(** * impresso-essentials: the statistics aggregators, verified

    A shallow embedding of [impresso_essentials/versioning/aggregators.py]
    and of [chunk] from [impresso_essentials/utils.py].

    - [Py]: the Python objects the code handles (JSON-decoded values, the
      exceptions the built-ins raise, [str.split], [set], [len], ...).
    - [Utils]: [user_confirmation], [user_question], [chunk] and
      [get_list_intersection] of [utils.py].
    - [Dask]: the part of the dask/pandas bag and dataframe interface the
      aggregators call (partitioned bags and frames, [to_dataframe],
      [groupby(...).agg(...)] with three-stage aggregations, [explode],
      [reset_index], [to_bag], [compute]).
    - [Aggregators]: the functions of [aggregators.py], in source order.

    Part I embeds the code.  Part II has the vocabulary of the
    specification (well-formed Raw Records, Count Records, groups), the
    lemmas and the theorems. *)

From Stdlib Require Import String Ascii List ZArith Lia Bool Arith.
From Stdlib Require Import DecimalString.
From Stdlib Require Import Permutation.
Import ListNotations.

Local Open Scope string_scope.
Local Open Scope list_scope.

(* ================================================================== *)
(** * Part I: the code                                                 *)
(* ================================================================== *)

(** ** Python objects and built-ins *)

Module Py.

(** The exception classes the modelled built-ins raise. *)
Inductive PyError : Type :=
| KeyError
| IndexError
| TypeError
| AttributeError
| ValueError.

(** A computation that returns a value or raises. *)
Definition Err (A : Type) : Type := (PyError + A)%type.

Definition ret {A : Type} (a : A) : Err A := inr a.
Definition raise {A : Type} (e : PyError) : Err A := inl e.
Definition bind {A B : Type} (m : Err A) (k : A -> Err B) : Err B :=
  match m with
  | inl e => inl e
  | inr a => k a
  end.

Declare Scope err_scope.
Delimit Scope err_scope with err.
Notation "x <- m ;; k" := (bind m (fun x => k))
  (at level 61, m at next level, right associativity) : err_scope.
Local Open Scope err_scope.

(** [[f(x) for x in l]], raising at the first element on which [f] raises. *)
Fixpoint mapM {A B : Type} (f : A -> Err B) (l : list A) : Err (list B) :=
  match l with
  | [] => ret []
  | x :: l' => y <- f x ;; ys <- mapM f l' ;; ret (y :: ys)
  end.

(** [[elt(x) for x in l if cond(x)]]: for each [x] in turn, the test, then
    the element. *)
Fixpoint list_comp {A B : Type} (cond : A -> Err bool) (elt : A -> Err B)
  (l : list A) : Err (list B) :=
  match l with
  | [] => ret []
  | x :: l' =>
      b <- cond x ;;
      if b then y <- elt x ;; ys <- list_comp cond elt l' ;; ret (y :: ys)
      else list_comp cond elt l'
  end.

(** *** What the functions write out *)

(** The observable effects of the aggregators: [print], [logger.info] and
    the progress display that [dask.distributed.progress] attaches to a
    collection. *)
Inductive Event : Type :=
| Print (msg : string)
| LogInfo (msg : string)
| Progress.

(** A computation that writes events, then returns or raises. *)
Definition Eff (A : Type) : Type := (list Event * Err A)%type.

Definition eff_ret {A : Type} (a : A) : Eff A := ([], inr a).
Definition eff_bind {A B : Type} (m : Eff A) (k : A -> Eff B) : Eff B :=
  match m with
  | (t, inl e) => (t, inl e)
  | (t, inr a) => let (t', r) := k a in (t ++ t', r)
  end.
Definition lift {A : Type} (m : Err A) : Eff A := ([], m).
Definition emit (e : Event) : Eff unit := ([e], inr tt).
Definition print (msg : string) : Eff unit := emit (Print msg).
Definition logger_info (msg : string) : Eff unit := emit (LogInfo msg).

Declare Scope eff_scope.
Delimit Scope eff_scope with eff.
Notation "x <- m ;; k" := (eff_bind m (fun x => k))
  (at level 61, m at next level, right associativity) : eff_scope.
Notation "m ;;; k" := (eff_bind m (fun _ => k))
  (at level 61, right associativity) : eff_scope.

(** *** Values *)

#[local] Set Warnings "-register-all".

(** Values: what [json.loads] produces (no floats or booleans: the
    aggregators never read one), plus [VNaN], the missing-value marker
    [numpy.nan] that pandas puts into a frame.  A [str] is a sequence of
    characters with code points below 256. *)
Inductive Val : Type :=
| VNone
| VNaN
| VInt (z : Z)
| VStr (s : string)
| VList (l : list Val)
| VDict (d : list (Val * Val)).

(** Lists and dicts are unhashable. *)
Definition hashable (v : Val) : bool :=
  match v with
  | VList _ | VDict _ => false
  | _ => true
  end.

(** Equality.  On hashable values this is what sets and dict keys use
    (identity or [==]; [numpy.nan] is one object, hence equal to itself
    there), and with a string on one side it is Python's [==].  Lists are
    compared element by element; the code never compares two dicts. *)
Fixpoint val_eqb (a b : Val) {struct a} : bool :=
  match a, b with
  | VNone, VNone => true
  | VNaN, VNaN => true
  | VInt x, VInt y => Z.eqb x y
  | VStr s, VStr t => String.eqb s t
  | VList l, VList m =>
      (fix list_eqb (l m : list Val) {struct l} : bool :=
         match l, m with
         | [], [] => true
         | x :: l', y :: m' => val_eqb x y && list_eqb l' m'
         | _, _ => false
         end) l m
  | VDict d, VDict e =>
      (fix dict_eqb (d e : list (Val * Val)) {struct d} : bool :=
         match d, e with
         | [], [] => true
         | (k, v) :: d', (k', v') :: e' =>
             val_eqb k k' && val_eqb v v' && dict_eqb d' e'
         | _, _ => false
         end) d e
  | _, _ => false
  end.

Section Generic.
Context {A : Type} (eqb : A -> A -> bool).

Fixpoint mem_by (x : A) (l : list A) : bool :=
  match l with
  | [] => false
  | y :: l' => eqb y x || mem_by x l'
  end.

(** The distinct elements of [l], each at its first occurrence. *)
Fixpoint dedup_by (l : list A) : list A :=
  match l with
  | [] => []
  | x :: l' => x :: filter (fun y => negb (eqb x y)) (dedup_by l')
  end.

Fixpoint list_eqb (l m : list A) : bool :=
  match l, m with
  | [], [] => true
  | x :: l', y :: m' => eqb x y && list_eqb l' m'
  | _, _ => false
  end.

(** Insertion into a list sorted by [leb]. *)
Fixpoint insert_by (leb : A -> A -> bool) (x : A) (l : list A) : list A :=
  match l with
  | [] => [x]
  | y :: l' => if leb x y then x :: l else y :: insert_by leb x l'
  end.

Definition sort_by (leb : A -> A -> bool) (l : list A) : list A :=
  fold_right (insert_by leb) [] l.
End Generic.

Definition mem : Val -> list Val -> bool := mem_by val_eqb.

(** The members of [set(l)].  (The order in which Python iterates a set is
    unspecified; nothing proved below depends on the order chosen here.) *)
Definition dedup : list Val -> list Val := dedup_by val_eqb.

(** [l.count(x)]. *)
Definition count (x : Val) (l : list Val) : nat :=
  length (filter (val_eqb x) l).

(** *** dict *)

Fixpoint dict_get (d : list (Val * Val)) (k : Val) : option Val :=
  match d with
  | [] => None
  | (k', v) :: d' => if val_eqb k' k then Some v else dict_get d' k
  end.

(** [d[k] = v]: an existing key keeps its place. *)
Fixpoint dict_set (d : list (Val * Val)) (k v : Val) : list (Val * Val) :=
  match d with
  | [] => [(k, v)]
  | (k', v') :: d' =>
      if val_eqb k' k then (k', v) :: d' else (k', v') :: dict_set d' k v
  end.

(** [d.update(e)], returning the updated dict. *)
Definition dict_update (d e : list (Val * Val)) : list (Val * Val) :=
  fold_left (fun acc kv => dict_set acc (fst kv) (snd kv)) e d.

(** A dict display [{"k1": v1, ...}] with string keys. *)
Definition mkdict (items : list (string * Val)) : list (Val * Val) :=
  dict_update [] (map (fun kv => (VStr (fst kv), snd kv)) items).

(** [o[k]] for a string key [k]. *)
Definition getitem (o : Val) (k : string) : Err Val :=
  match o with
  | VDict d =>
      match dict_get d (VStr k) with
      | Some v => ret v
      | None => raise KeyError
      end
  | _ => raise TypeError
  end.

(** [o[k] = v] for a string key [k], returning the updated object. *)
Definition setitem (o : Val) (k : string) (v : Val) : Err Val :=
  match o with
  | VDict d => ret (VDict (dict_set d (VStr k) v))
  | _ => raise TypeError
  end.

(** *** Sequences *)

(** [l[i]] on a Python list. *)
Definition list_index {A : Type} (l : list A) (i : Z) : Err A :=
  let n := Z.of_nat (length l) in
  let j := if (i <? 0)%Z then (n + i)%Z else i in
  if ((j <? 0) || (n <=? j))%Z then raise IndexError
  else match nth_error l (Z.to_nat j) with
       | Some x => ret x
       | None => raise IndexError
       end.

(** Where a slice bound lands in a sequence of length [n]. *)
Definition clip_index (n i : Z) : nat :=
  Z.to_nat (if (i <? 0)%Z then Z.max 0 (n + i) else Z.min i n).

(** [l[i:j]]. *)
Definition slice {A : Type} (l : list A) (i j : Z) : list A :=
  let n := Z.of_nat (length l) in
  let a := clip_index n i in
  let b := clip_index n j in
  firstn (b - a) (skipn a l).

(** [l[:j]]. *)
Definition slice_to {A : Type} (l : list A) (j : Z) : list A := slice l 0 j.

(** [range(start, stop, step)]. *)
Definition range (start stop step : Z) : Err (list Z) :=
  if (step =? 0)%Z then raise ValueError
  else
    let n := if (0 <? step)%Z then ((stop - start + step - 1) / step)%Z
             else ((start - stop - step - 1) / (- step))%Z in
    ret (map (fun k => (start + Z.of_nat k * step)%Z) (seq 0 (Z.to_nat n))).

(** *** str *)

(** [s.split(sep)] for a one-character separator. *)
Fixpoint str_split (sep : ascii) (s : string) : list string :=
  match s with
  | EmptyString => [EmptyString]
  | String c s' =>
      if Ascii.eqb c sep then EmptyString :: str_split sep s'
      else match str_split sep s' with
           | [] => [String c EmptyString]
           | w :: ws => String c w :: ws
           end
  end.

(** [sep.join(l)]. *)
Fixpoint str_join (sep : string) (l : list string) : string :=
  match l with
  | [] => EmptyString
  | w :: l' =>
      match l' with
      | [] => w
      | _ :: _ => (w ++ sep ++ str_join sep l')%string
      end
  end.

(** [c.isspace()] for a character below 256. *)
Definition isspace (c : ascii) : bool :=
  let n := nat_of_ascii c in
  (((9 <=? n) && (n <=? 13)) || ((28 <=? n) && (n <=? 32))
   || (n =? 133) || (n =? 160))%nat.

(** [s.split()]: the maximal runs of non-whitespace characters. *)
Fixpoint str_split_ws (s : string) : list string :=
  match s with
  | EmptyString => []
  | String c s' =>
      if isspace c then str_split_ws s'
      else match s' with
           | EmptyString => [String c EmptyString]
           | String c' _ =>
               if isspace c' then String c EmptyString :: str_split_ws s'
               else match str_split_ws s' with
                    | [] => [String c EmptyString]
                    | w :: ws => String c w :: ws
                    end
           end
  end.

(** [v.split(sep)]: only a [str] has the method. *)
Definition split (v : Val) (sep : ascii) : Err (list string) :=
  match v with
  | VStr s => ret (str_split sep s)
  | _ => raise AttributeError
  end.

(** [v.split()]. *)
Definition split_ws (v : Val) : Err (list string) :=
  match v with
  | VStr s => ret (str_split_ws s)
  | _ => raise AttributeError
  end.

Fixpoint chars (s : string) : list Val :=
  match s with
  | EmptyString => []
  | String c s' => VStr (String c EmptyString) :: chars s'
  end.

(** What [for x in v] runs through. *)
Definition iter (v : Val) : Err (list Val) :=
  match v with
  | VList l => ret l
  | VDict d => ret (map fst d)
  | VStr s => ret (chars s)
  | _ => raise TypeError
  end.

(** [len(v)]. *)
Definition len (v : Val) : Err Z :=
  match v with
  | VList l => ret (Z.of_nat (length l))
  | VDict d => ret (Z.of_nat (length d))
  | VStr s => ret (Z.of_nat (String.length s))
  | _ => raise TypeError
  end.

(** [set(l)] for a list [l] of values, as the list of its members. *)
Definition set_of (l : list Val) : Err (list Val) :=
  if forallb hashable l then ret (dedup l) else raise TypeError.

(** [set(v)]. *)
Definition set (v : Val) : Err (list Val) :=
  l <- iter v ;; set_of l.

(** [k in v] for a string [k]. *)
Definition contains (v : Val) (k : string) : Err bool :=
  match v with
  | VDict d =>
      ret (match dict_get d (VStr k) with Some _ => true | None => false end)
  | VList l => ret (mem (VStr k) l)
  | VStr s =>
      ret (match String.index 0 k s with Some _ => true | None => false end)
  | _ => raise TypeError
  end.

Definition as_str (v : Val) : Err string :=
  match v with
  | VStr s => ret s
  | _ => raise TypeError
  end.

Definition as_int (v : Val) : Err Z :=
  match v with
  | VInt z => ret z
  | _ => raise TypeError
  end.

(** [sorted(l)].  A list of fewer than two elements is returned without
    any comparison.  Otherwise strings are ordered by code point and
    integers by value; a list mixing the two (or holding a value that
    [json] data has no order for) cannot be ordered. *)
Definition sorted (l : list Val) : Err (list Val) :=
  match l with
  | [] | [_] => ret l
  | VInt _ :: _ =>
      zs <- mapM as_int l ;; ret (map VInt (sort_by Z.leb zs))
  | _ =>
      ss <- mapM as_str l ;; ret (map VStr (sort_by String.leb ss))
  end.

(** [a + b]. *)
Definition add (a b : Val) : Err Val :=
  match a, b with
  | VInt x, VInt y => ret (VInt (x + y))
  | VList x, VList y => ret (VList (x ++ y))
  | VStr x, VStr y => ret (VStr (x ++ y))
  | _, _ => raise TypeError
  end.

(** [collections.Counter(v)] turned into a [dict]: [Counter(None)] is
    empty, a mapping is taken as it is, the elements of any other
    iterable are counted, in the order in which they first occur. *)
Definition Counter (v : Val) : Err (list (Val * Val)) :=
  match v with
  | VNone => ret []
  | VDict d => ret d
  | _ =>
      l <- iter v ;;
      if forallb hashable l
      then ret (map (fun x => (x, VInt (Z.of_nat (count x l)))) (dedup l))
      else raise TypeError
  end.

(** *** [repr] and [ast.literal_eval] *)

Definition backslash : ascii := "092"%char.
Definition squote : ascii := "039"%char.
Definition dquote : ascii := "034"%char.

Definition hex_digit (n : nat) : ascii :=
  if (n <? 10)%nat then ascii_of_nat (48 + n) else ascii_of_nat (87 + n).

(** [c.isprintable()] for a character below 256. *)
Definition isprintable (c : ascii) : bool :=
  let n := nat_of_ascii c in
  (((32 <=? n) && (n <=? 126)) || ((161 <=? n) && negb (n =? 173)))%nat.

(** How [repr] writes the character [c] inside quotes [q]. *)
Definition escape_char (q c : ascii) : string :=
  let n := nat_of_ascii c in
  if Ascii.eqb c backslash then String backslash (String backslash "")
  else if Ascii.eqb c q then String backslash (String q "")
  else if (n =? 9)%nat then String backslash "t"
  else if (n =? 10)%nat then String backslash "n"
  else if (n =? 13)%nat then String backslash "r"
  else if isprintable c then String c ""
  else String backslash
         (String "x" (String (hex_digit (n / 16))
                        (String (hex_digit (n mod 16)) ""))).

Fixpoint escape (q : ascii) (s : string) : string :=
  match s with
  | EmptyString => EmptyString
  | String c s' => (escape_char q c ++ escape q s')%string
  end.

Fixpoint has_char (c : ascii) (s : string) : bool :=
  match s with
  | EmptyString => false
  | String c' s' => Ascii.eqb c' c || has_char c s'
  end.

(** [repr(s)] for a [str]: single quotes, unless the string has a single
    quote and no double quote. *)
Definition repr_str (s : string) : string :=
  let q := if has_char squote s && negb (has_char dquote s)
           then dquote else squote in
  String q (escape q s ++ String q "")%string.

(** [repr(v)]. *)
Fixpoint repr (v : Val) : string :=
  match v with
  | VNone => "None"
  | VNaN => "nan"
  | VInt z => NilZero.string_of_int (Z.to_int z)
  | VStr s => repr_str s
  | VList l => ("[" ++ str_join ", " (map repr l) ++ "]")%string
  | VDict d =>
      ("{" ++ str_join ", "
                (map (fun kv : Val * Val => let (k, x) := kv in
                                (repr k ++ ": " ++ repr x)%string) d)
           ++ "}")%string
  end.

(** [str(v)]. *)
Definition str (v : Val) : string :=
  match v with
  | VStr s => s
  | _ => repr v
  end.

Definition is_digit (c : ascii) : bool :=
  let n := nat_of_ascii c in ((48 <=? n) && (n <=? 57))%nat.

Definition hex_val (c : ascii) : option nat :=
  let n := nat_of_ascii c in
  if ((48 <=? n) && (n <=? 57))%nat then Some (n - 48)
  else if ((97 <=? n) && (n <=? 102))%nat then Some (n - 87)
  else if ((65 <=? n) && (n <=? 70))%nat then Some (n - 55)
  else None.

(** The character a one-letter escape stands for. *)
Definition unescape (e : ascii) : option ascii :=
  let n := nat_of_ascii e in
  if Ascii.eqb e backslash then Some backslash
  else if Ascii.eqb e squote then Some squote
  else if Ascii.eqb e dquote then Some dquote
  else if Ascii.eqb e "n" then Some (ascii_of_nat 10)
  else if Ascii.eqb e "r" then Some (ascii_of_nat 13)
  else if Ascii.eqb e "t" then Some (ascii_of_nat 9)
  else if Ascii.eqb e "a" then Some (ascii_of_nat 7)
  else if Ascii.eqb e "b" then Some (ascii_of_nat 8)
  else if Ascii.eqb e "f" then Some (ascii_of_nat 12)
  else if Ascii.eqb e "v" then Some (ascii_of_nat 11)
  else None.

Definition cons_char (c : ascii) (r : option (string * string))
  : option (string * string) :=
  match r with
  | Some (t, rest) => Some (String c t, rest)
  | None => None
  end.

(** The body of a string literal opened by the quote [q], up to the
    closing quote: the string it denotes and the text after it.  Octal and
    [\u], [\U], [\N] escapes, which [repr] never writes for these
    strings, are not read. *)
Fixpoint parse_str_body (q : ascii) (s : string) : option (string * string) :=
  match s with
  | EmptyString => None
  | String c rest =>
      if Ascii.eqb c q then Some (EmptyString, rest)
      else if Ascii.eqb c backslash then
        match rest with
        | EmptyString => None
        | String e rest' =>
            if Ascii.eqb e "x" then
              match rest' with
              | String h1 (String h2 rest'') =>
                  match hex_val h1, hex_val h2 with
                  | Some a, Some b =>
                      cons_char (ascii_of_nat (16 * a + b))
                                (parse_str_body q rest'')
                  | _, _ => None
                  end
              | _ => None
              end
            else
              match unescape e with
              | Some c' => cons_char c' (parse_str_body q rest')
              | None => None
              end
        end
      else if (nat_of_ascii c =? 10)%nat then None
      else cons_char c (parse_str_body q rest)
  end.

(** Blanks between the tokens of an expression. *)
Fixpoint skip_ws (s : string) : string :=
  match s with
  | String c rest =>
      if Ascii.eqb c " " || Ascii.eqb c (ascii_of_nat 9) then skip_ws rest
      else s
  | EmptyString => s
  end.

Fixpoint parse_digits (acc : Z) (s : string) : Z * string :=
  match s with
  | String c rest =>
      if is_digit c
      then parse_digits (10 * acc + Z.of_nat (nat_of_ascii c - 48)) rest
      else (acc, s)
  | EmptyString => (acc, s)
  end.

(** A literal at the head of [s]: its value and the text after it.  The
    literals read are the ones [Val] can hold: [None], integers, strings,
    list and dict displays. *)
Fixpoint parse_value (fuel : nat) (s : string) : Err (Val * string) :=
  match fuel with
  | O => raise ValueError
  | S fuel' =>
      match skip_ws s with
      | EmptyString => raise ValueError
      | String c rest =>
          if Ascii.eqb c "[" then
            r <- parse_items fuel' rest ;;
            ret (VList (fst r), snd r)
          else if Ascii.eqb c "{" then
            r <- parse_pairs fuel' rest ;;
            ret (VDict (dict_update [] (fst r)), snd r)
          else if Ascii.eqb c squote || Ascii.eqb c dquote then
            match parse_str_body c rest with
            | Some (t, rest') => ret (VStr t, rest')
            | None => raise ValueError
            end
          else if Ascii.eqb c "N" then
            match rest with
            | String "o" (String "n" (String "e" rest')) => ret (VNone, rest')
            | _ => raise ValueError
            end
          else if Ascii.eqb c "-" then
            match skip_ws rest with
            | String d _ =>
                if is_digit d
                then let (n, rest') := parse_digits 0 (skip_ws rest) in
                     ret (VInt (- n), rest')
                else raise ValueError
            | EmptyString => raise ValueError
            end
          else if is_digit c then
            let (n, rest') := parse_digits 0 (String c rest) in
            ret (VInt n, rest')
          else raise ValueError
      end
  end
with parse_items (fuel : nat) (s : string) : Err (list Val * string) :=
  match fuel with
  | O => raise ValueError
  | S fuel' =>
      match skip_ws s with
      | String "]" rest => ret ([], rest)
      | _ =>
          r <- parse_value fuel' s ;;
          match skip_ws (snd r) with
          | String "," rest' =>
              r' <- parse_items fuel' rest' ;;
              ret (fst r :: fst r', snd r')
          | String "]" rest' => ret ([fst r], rest')
          | _ => raise ValueError
          end
      end
  end
with parse_pairs (fuel : nat) (s : string)
  : Err (list (Val * Val) * string) :=
  match fuel with
  | O => raise ValueError
  | S fuel' =>
      match skip_ws s with
      | String "}" rest => ret ([], rest)
      | _ =>
          k <- parse_value fuel' s ;;
          match skip_ws (snd k) with
          | String ":" rest' =>
              x <- parse_value fuel' rest' ;;
              if hashable (fst k) then
                match skip_ws (snd x) with
                | String "," rest'' =>
                    r' <- parse_pairs fuel' rest'' ;;
                    ret ((fst k, fst x) :: fst r', snd r')
                | String "}" rest'' => ret ([(fst k, fst x)], rest'')
                | _ => raise ValueError
                end
              else raise TypeError
          | _ => raise ValueError
          end
      end
  end.

(** [ast.literal_eval(v)]: a [str] is parsed as one literal; anything else
    is a malformed node.  (Text that is not a literal makes Python raise
    [ValueError] or [SyntaxError]; the model has [ValueError] for both.) *)
Definition literal_eval (v : Val) : Err Val :=
  match v with
  | VStr s =>
      r <- parse_value (S (String.length s)) s ;;
      match skip_ws (snd r) with
      | EmptyString => ret (fst r)
      | _ => raise ValueError
      end
  | _ => raise ValueError
  end.

End Py.

(** ** utils.py *)

Module Utils.
Import Py.
Local Open Scope err_scope.

(** *** The terminal *)

(** [c.lower()] for a character below 256: the capital letters of ASCII
    and of Latin-1 (all of U+00C0..U+00DE but the multiplication sign). *)
Definition lower_char (c : ascii) : ascii :=
  let n := nat_of_ascii c in
  if (((65 <=? n) && (n <=? 90))
      || ((192 <=? n) && (n <=? 222) && negb (n =? 215)))%nat
  then ascii_of_nat (n + 32)
  else c.

(** [s.lower()] *)
Fixpoint lower (s : string) : string :=
  match s with
  | EmptyString => EmptyString
  | String c s' => String (lower_char c) (lower s')
  end.

(** What the interactive functions raise: a built-in exception,
    [EOFError] from [input()] at the end of the input, [SystemExit] from
    [sys.exit()]. *)
Inductive Exception : Type :=
| Builtin (e : PyError)
| EOFError
| SystemExit.

(** The terminal and the log: the lines still to be read from the
    standard input (without their newline), what was written to the
    standard output and what was logged, oldest first. *)
Record World : Type := {
  stdin : list string;
  stdout : list string;
  log : list string
}.

(** [valid = {"yes": True, "y": True, "no": False, "n": False}] *)
Definition valid : list (string * bool) :=
  [("yes", true); ("y", true); ("no", false); ("n", false)].

(** [valid.get(k)]: [None] stands for [k not in valid]. *)
Fixpoint lookup (d : list (string * bool)) (k : string) : option bool :=
  match d with
  | [] => None
  | (k', b) :: d' => if String.eqb k' k then Some b else lookup d' k
  end.

(** The prompt chosen for [default], or the [ValueError] for a default
    that is none of [None], ["yes"], ["no"]. *)
Definition prompt_of (default : option string) : Exception + string :=
  match default with
  | None => inr " [y/n] "
  | Some d =>
      if String.eqb d "yes" then inr " [Y/n] "
      else if String.eqb d "no" then inr " [y/N] "
      else inl (Builtin ValueError)
  end.

Definition reminder : string :=
  String.append "Please respond with 'yes' or 'no' (or 'y' or 'n')."
                (String (ascii_of_nat 10) EmptyString).

(** The [while True] loop of [user_confirmation], by recursion on the
    lines left on the standard input: each round writes the question,
    reads a line and either returns or writes the reminder and goes on.
<<
    while True:
        sys.stdout.write(question + prompt)
        choice = input().lower()
        if default is not None and choice == "":
            return valid[default]
        if choice in valid:
            return valid[choice]
        sys.stdout.write("Please respond with 'yes' or 'no' (or 'y' or 'n').\n")
>> *)
Fixpoint confirmation_loop (question prompt : string)
  (default : option string) (lines out : list string)
  : (list string * list string) * (Exception + bool) :=
  let out := out ++ [String.append question prompt] in
  match lines with
  | [] => (([], out), inl EOFError)
  | line :: rest =>
      let choice := lower line in
      match default, String.eqb choice EmptyString with
      | Some d, true =>
          ((rest, out),
           match lookup valid d with
           | Some b => inr b
           | None => inl (Builtin KeyError)
           end)
      | _, _ =>
          match lookup valid choice with
          | Some b => ((rest, out), inr b)
          | None =>
              confirmation_loop question prompt default rest
                (out ++ [reminder])
          end
      end
  end.

(** [user_confirmation(question, default=None)] *)
Definition user_confirmation (question : string) (default : option string)
  (w : World) : World * (Exception + bool) :=
  match prompt_of default with
  | inl e => (w, inl e)
  | inr prompt =>
      let '((rest, out), r) :=
        confirmation_loop question prompt default (stdin w) (stdout w) in
      ({| stdin := rest; stdout := out; log := log w |}, r)
  end.

(** [user_question(variable_to_confirm)] *)
Definition user_question (variable_to_confirm : string) (w : World)
  : World * (Exception + unit) :=
  let question :=
    String (ascii_of_nat 9)
      (String.append "Is the following the correct item to work with?"
         (String (ascii_of_nat 10)
            (String.append "  " variable_to_confirm))) in
  let (w1, r) := user_confirmation question None w in
  match r with
  | inl e => (w1, inl e)
  | inr answer =>
      if negb answer then
        ({| stdin := stdin w1; stdout := stdout w1;
            log := log w1 ++ ["Variable not confirmed, exiting."] |},
         inl SystemExit)
      else
        ({| stdin := stdin w1; stdout := stdout w1;
            log := log w1 ++ ["Variable confirmed."] |},
         inr tt)
  end.

(** [chunk(l_to_chunk, chunksize)]: the generator is modelled by the list
    of the values it yields.
<<
    for i in range(0, len(l_to_chunk), chunksize):
        yield l_to_chunk[i : i + chunksize]
>> *)
Definition chunk {A : Type} (l_to_chunk : list A) (chunksize : Z)
  : Err (list (list A)) :=
  starts <- range 0 (Z.of_nat (length l_to_chunk)) chunksize ;;
  ret (map (fun i => slice l_to_chunk i (i + chunksize)%Z) starts).

(** [set(list1).intersection(list2)]: every element of [list2] is hashed
    and looked up in the set; those found make up the result. *)
Definition set_intersection (s other : list Val) : Err (list Val) :=
  if forallb hashable other
  then ret (dedup (filter (fun x => mem x s) other))
  else raise TypeError.

(** [get_list_intersection(list1, list2)]:
<<
    return list(set(list1).intersection(list2))
>>
    (the order of the result is that of a set: unspecified). *)
Definition get_list_intersection (list1 list2 : list Val) : Err (list Val) :=
  s <- set_of list1 ;;
  set_intersection s list2.

End Utils.

(** ** The dask bag and dataframe interface *)

(** The engine is an external collaborator.  It is modelled as an
    in-process partitioned map-reduce: a bag or a frame is the list of its
    partitions, [map] runs item by item, a grouped aggregation runs its
    chunk stage on each partition, concatenates the results, runs its
    combine stage on the regrouped concatenation and finalizes.

    What the model fixes where engines differ:
    - the cells of an [object] column are the Python objects the code
      put in; an engine that stores such a column as text (on which
      [explode] finds no list to explode) is not modelled;
    - evaluation is eager and in order: each stage runs when the code
      reaches it, partition after partition, and [persist] is the
      identity.  An engine that defers the work to the final
      materialization, or runs partitions concurrently, can let another
      item's exception surface, and later events of the code come before
      it. *)

Module Dask.
Import Py.
Local Open Scope err_scope.

(** The handle to a [dask.distributed.Client] (its scheduler address). *)
Definition Client : Type := string.

Definition Bag (A : Type) : Type := list (list A).

(** [bag.map(f)] *)
Definition bag_map {A B : Type} (f : A -> Err B) (b : Bag A) : Err (Bag B) :=
  mapM (mapM f) b.

(** [bag.compute()]: the items of all partitions, in order. *)
Definition compute {A : Type} (b : Bag A) : list A := concat b.

(** [progress(collection)] *)
Definition progress : Eff unit := emit Progress.

(** A row of a frame: its cells by column name, in column order. *)
Definition Row : Type := list (string * Val).
Definition Partition : Type := list Row.
Definition DataFrame : Type := list Partition.

Fixpoint row_get (r : Row) (c : string) : option Val :=
  match r with
  | [] => None
  | (c', v) :: r' => if String.eqb c' c then Some v else row_get r' c
  end.

Fixpoint row_set (r : Row) (c : string) (v : Val) : Row :=
  match r with
  | [] => [(c, v)]
  | (c', v') :: r' =>
      if String.eqb c' c then (c', v) :: r' else (c', v') :: row_set r' c v
  end.

Definition cell (r : Row) (c : string) : Err Val :=
  match row_get r c with
  | Some v => ret v
  | None => raise KeyError
  end.

(** Column types of a [meta] mapping. *)
Inductive dtype : Type := dt_str | dt_int | dt_object.

(** The cell of a [str] column: the text of the value ([1950] becomes
    ['1950']); a missing value stays missing. *)
Definition to_text (v : Val) : Val :=
  match v with
  | VNone | VNaN => v
  | _ => VStr (str v)
  end.

(** [astype]: a [str] column holds text, an [object] column holds the
    Python objects as they are, an [int] column holds integers (the
    extractors fill these columns with [len(...)] or a constant, so no
    other cell reaches the cast; a missing value cannot be cast). *)
Definition astype (t : dtype) (v : Val) : Err Val :=
  match t with
  | dt_int => match v with VInt _ => ret v | _ => raise ValueError end
  | dt_str => ret (to_text v)
  | dt_object => ret v
  end.

(** One item of the bag as a row with the columns of [meta]; a column the
    item lacks holds the missing value. *)
Definition to_row (meta : list (string * dtype)) (item : Val) : Err Row :=
  match item with
  | VDict d =>
      mapM (fun ct : string * dtype =>
              v <- astype (snd ct)
                     (match dict_get d (VStr (fst ct)) with
                      | Some v => v
                      | None => VNaN
                      end) ;;
              ret (fst ct, v)) meta
  | _ => raise TypeError
  end.

(** [bag.to_dataframe(meta=meta)] *)
Definition to_dataframe (meta : list (string * dtype)) (b : Bag Val)
  : Err DataFrame :=
  bag_map (to_row meta) b.

(** [df[c] = df[c].apply(f)] *)
Definition map_column (c : string) (f : Val -> Err Val) (df : DataFrame)
  : Err DataFrame :=
  bag_map (fun r : Row => v <- cell r c ;; w <- f v ;; ret (row_set r c w)) df.

(** [df.explode(c)], the cells being Python objects: a row whose cell is
    a list becomes one row per element, an empty list becomes one row
    holding the missing value.  (Where the column is stored as text
    there is no list to explode: the rows stay as they are, and an
    empty partition makes [explode] raise; that engine is not the one
    modelled.) *)
Definition explode_row (c : string) (r : Row) : Err (list Row) :=
  v <- cell r c ;;
  ret (match v with
       | VList [] => [row_set r c VNaN]
       | VList l => map (fun x => row_set r c x) l
       | _ => [r]
       end).

Definition explode (c : string) (df : DataFrame) : Err DataFrame :=
  mapM (fun p : Partition => rs <- mapM (explode_row c) p ;; ret (concat rs))
       df.

(** *** Grouping *)

(** A group key: the cells of the [by] columns. *)
Definition Key : Type := list Val.

Definition key_eqb : Key -> Key -> bool := list_eqb val_eqb.

Definition isna (v : Val) : bool :=
  match v with
  | VNone | VNaN => true
  | _ => false
  end.

(** A series: values with their index (here always a group key). *)
Definition Series : Type := list (Key * Val).

(** A series grouped by its index. *)
Record SeriesGroupBy : Type := { _selected_obj : Series }.

(** [series.groupby(level=all levels)] *)
Definition groupby_level (s : Series) : SeriesGroupBy :=
  {| _selected_obj := s |}.

Definition row_key (by_ : list string) (r : Row) : Err Key :=
  k <- mapM (cell r) by_ ;;
  if forallb hashable k then ret k else raise TypeError.

(** [partition.groupby(by)[col]]: rows whose key has a missing value
    belong to no group. *)
Definition groupby_column (by_ : list string) (col : string) (part : Partition)
  : Err SeriesGroupBy :=
  s <- mapM (fun r : Row => k <- row_key by_ r ;; v <- cell r col ;; ret (k, v))
         part ;;
  ret (groupby_level (filter (fun kv => negb (existsb isna (fst kv))) s)).

(** The groups of a grouped series, in the order in which their keys
    first appear. *)
Definition group_keys (s : Series) : list Key :=
  dedup_by key_eqb (map fst s).

Definition group_values (s : Series) (k : Key) : list Val :=
  map snd (filter (fun kv => key_eqb (fst kv) k) s).

(** [grouped.apply(f)]: [f] on the values of each group. *)
Definition groupby_apply (f : list Val -> Err Val) (g : SeriesGroupBy)
  : Err Series :=
  mapM (fun k => v <- f (group_values (_selected_obj g) k) ;; ret (k, v))
       (group_keys (_selected_obj g)).

(** [series.apply(f)]: [f] on each value. *)
Definition series_apply (f : Val -> Err Val) (s : Series) : Err Series :=
  mapM (fun kv : Key * Val => v <- f (snd kv) ;; ret (fst kv, v)) s.

Fixpoint sum_from (acc : Val) (l : list Val) : Err Val :=
  match l with
  | [] => ret acc
  | x :: l' => a <- add acc x ;; sum_from a l'
  end.

(** The [+]-reduction of the values of a group. *)
Definition sum_values (l : list Val) : Err Val :=
  match l with
  | [] => ret (VInt 0)
  | x :: l' => sum_from x l'
  end.

(** [grouped.sum()] *)
Definition groupby_sum (g : SeriesGroupBy) : Err Series :=
  groupby_apply sum_values g.

(** *** Three-stage aggregations *)

(** [dd.Aggregation(name, chunk, agg, finalize)] *)
Record Aggregation : Type := {
  agg_chunk : SeriesGroupBy -> Err Series;
  agg_agg : SeriesGroupBy -> Err Series;
  agg_finalize : Series -> Err Series
}.

(** The built-in [sum]: sums per partition, then the sum of the sums. *)
Definition agg_sum : Aggregation :=
  {| agg_chunk := groupby_sum;
     agg_agg := groupby_sum;
     agg_finalize := fun s => ret s |}.

(** The built-in [list]: the values per partition as a list, then the
    chained lists. *)
Definition agg_list : Aggregation :=
  {| agg_chunk := groupby_apply (fun x => ret (VList x));
     agg_agg :=
       groupby_apply (fun chunks =>
                        ls <- mapM iter chunks ;; ret (VList (concat ls)));
     agg_finalize := fun s => ret s |}.

(** The three stages of an aggregation over the partitions of a grouped
    column: chunk on each, combine on the concatenated chunk results
    regrouped by index, finalize. *)
Definition aggregate (A : Aggregation) (parts : list SeriesGroupBy)
  : Err Series :=
  chunks <- mapM (agg_chunk A) parts ;;
  combined <- agg_agg A (groupby_level (concat chunks)) ;;
  agg_finalize A combined.

(** One column of [df.groupby(by).agg({col: A})]. *)
Definition aggregate_column (by_ : list string) (df : DataFrame)
  (col : string) (A : Aggregation) : Err Series :=
  parts <- mapM (groupby_column by_ col) df ;;
  aggregate A parts.

(** The value at index [k]. *)
Definition series_get (s : Series) (k : Key) : Val :=
  match find (fun kv => key_eqb (fst kv) k) s with
  | Some kv => snd kv
  | None => VNaN
  end.

(** An aggregated frame: one row per group, indexed by the group key. *)
Record AggFrame : Type := {
  index_names : list string;
  agg_rows : list (Key * Row)
}.

(** [df.groupby(by).agg(spec)] *)
Definition groupby_agg (by_ : list string)
  (spec : list (string * Aggregation)) (df : DataFrame) : Err AggFrame :=
  cols <- mapM (fun ca : string * Aggregation =>
                  s <- aggregate_column by_ df (fst ca) (snd ca) ;;
                  ret (fst ca, s)) spec ;;
  let index := match cols with
               | [] => []
               | (_, s) :: _ => map fst s
               end in
  ret {| index_names := by_;
         agg_rows :=
           map (fun k =>
                  (k, map (fun cs : string * Series =>
                             (fst cs, series_get (snd cs) k)) cols))
               index |}.

(** [frame.reset_index()]: the key becomes columns again, in front. *)
Definition reset_index (f : AggFrame) : Partition :=
  map (fun kr : Key * Row => combine (index_names f) (fst kr) ++ snd kr)
      (agg_rows f).

(** The rows of an indexed frame without their index, which is what
    [to_bag] keeps of them. *)
Definition drop_index (f : AggFrame) : Partition := map snd (agg_rows f).

(** A row as a dict (column names are distinct). *)
Definition row_to_dict (r : Row) : Val :=
  VDict (map (fun cv : string * Val => (VStr (fst cv), snd cv)) r).

(** [frame.to_bag(format="dict")] *)
Definition to_bag (p : Partition) : Bag Val := [map row_to_dict p].

End Dask.

(** ** versioning/aggregators.py *)

Module Aggregators.
Import Py Dask.
Local Open Scope err_scope.

(** [counts_for_canonical_issue(issue, include_np_yr=False)] *)
Definition counts_for_canonical_issue (issue : Val) (include_np_yr : bool)
  : Err Val :=
  counts <-
    (if include_np_yr then
       id0 <- getitem issue "id" ;;
       parts0 <- split id0 "-" ;;
       np_id <- list_index parts0 0 ;;
       id1 <- getitem issue "id" ;;
       parts1 <- split id1 "-" ;;
       year <- list_index parts1 1 ;;
       ret (mkdict [("np_id", VStr np_id); ("year", VStr year)])
     else ret []) ;;
  pp <- getitem issue "pp" ;;
  pages <- set pp ;;
  i <- getitem issue "i" ;;
  content_items_out <- len i ;;
  i' <- getitem issue "i" ;;
  items <- iter i' ;;
  images <-
    list_comp (fun item =>
                 m <- getitem item "m" ;;
                 tp <- getitem m "tp" ;;
                 ret (val_eqb tp (VStr "image")))
              (fun item => ret item) items ;;
  ret (VDict
         (dict_update counts
            (mkdict [("issues", VInt 1);
                     ("pages", VInt (Z.of_nat (length pages)));
                     ("content_items_out", VInt content_items_out);
                     ("images", VInt (Z.of_nat (length images)))]))).

(** [counts_for_rebuilt(rebuilt_ci, include_np=False, passim=False)] *)
Definition counts_for_rebuilt (rebuilt_ci : Val) (include_np passim : bool)
  : Err Val :=
  id <- getitem rebuilt_ci "id" ;;
  split_id <- split id "-" ;;
  counts <-
    (if include_np then
       np_id <- list_index split_id 0 ;;
       ret (mkdict [("np_id", VStr np_id)])
     else ret []) ;;
  year <- list_index split_id 1 ;;
  let counts :=
    dict_update counts
      (mkdict [("year", VStr year);
               ("issues", VStr (str_join "-" (slice_to split_id (-1))));
               ("content_items_out", VInt 1)]) in
  counts <-
    (if negb passim then
       has_ft <- contains rebuilt_ci "ft" ;;
       ft_tokens <-
         (if has_ft then
            ft <- getitem rebuilt_ci "ft" ;;
            tokens <- split_ws ft ;;
            ret (Z.of_nat (length tokens))
          else ret 0%Z) ;;
       ret (dict_update counts (mkdict [("ft_tokens", VInt ft_tokens)]))
     else ret counts) ;;
  ret (VDict counts).

(** [compute_stats_in_canonical_bag(s3_canonical_issues, client=None)] *)
Definition compute_stats_in_canonical_bag (s3_canonical_issues : Bag Val)
  (client : option Client) : Eff (list Val) :=
  (print "Fetched all issues, gathering desired information." ;;;
   logger_info "Fetched all issues, gathering desired information." ;;;
   count_df <-
     lift (b <- bag_map (fun i => counts_for_canonical_issue i true)
                  s3_canonical_issues ;;
           to_dataframe [("np_id", dt_str); ("year", dt_str);
                         ("issues", dt_int); ("pages", dt_int);
                         ("images", dt_int); ("content_items_out", dt_int)]
                        b)%err ;;
   aggregated_df <-
     lift (g <- groupby_agg ["np_id"; "year"]
                  [("issues", agg_sum); ("pages", agg_sum);
                   ("content_items_out", agg_sum); ("images", agg_sum)]
                  count_df ;;
           ret (reset_index g))%err ;;
   (match client with
    | Some _ => progress
    | None => eff_ret tt
    end) ;;;
   print "Finished grouping and aggregating stats by title and year." ;;;
   logger_info "Finished grouping and aggregating stats by title and year." ;;;
   eff_ret (compute (to_bag aggregated_df)))%eff.

(** *** The definition of [tunique] *)

(** [chunk(s)]: applied to the individual partition (map).
<<
    return s.apply(lambda x: list(set(x)))
>> *)
Definition chunk (s : SeriesGroupBy) : Err Series :=
  groupby_apply (fun x => m <- set_of x ;; ret (VList m)) s.

(** [agg(s)]: aggregates the results from all the partitions (reduce).
<<
    s = s._selected_obj
    return s.apply(list).groupby(level=list(range(s.index.nlevels))).sum()
>> *)
Definition agg (s : SeriesGroupBy) : Err Series :=
  let s := _selected_obj s in
  s' <- series_apply (fun x => l <- iter x ;; ret (VList l)) s ;;
  groupby_sum (groupby_level s').

(** [finalize(s)]: applied to the result of [agg].
<<
    return s.apply(lambda x: len(set(x)))
>> *)
Definition finalize (s : Series) : Err Series :=
  series_apply (fun x => m <- set x ;; ret (VInt (Z.of_nat (length m)))) s.

(** [tunique = dd.Aggregation("tunique", chunk, agg, finalize)] *)
Definition tunique : Aggregation :=
  {| agg_chunk := chunk; agg_agg := agg; agg_finalize := finalize |}.

(** [compute_stats_in_rebuilt_bag(rebuilt_articles, key="",
    include_np=False, passim=False, client=None)] *)
Definition compute_stats_in_rebuilt_bag (rebuilt_articles : Bag Val)
  (key : string) (include_np passim : bool) (client : option Client)
  : Eff (list Val) :=
  (print "Fetched all files, gathering desired information." ;;;
   logger_info "Fetched all files, gathering desired information." ;;;
   let df_meta :=
     (if include_np then [("np_id", dt_str)] else [])
     ++ [("year", dt_str); ("issues", dt_str); ("content_items_out", dt_int)]
     ++ (if negb passim then [("ft_tokens", dt_int)] else []) in
   rebuilt_count_df <-
     lift (b <- bag_map (fun rf => counts_for_rebuilt rf include_np passim)
                  rebuilt_articles ;;
           to_dataframe df_meta b)%err ;;
   let gp_key := if include_np then ["np_id"; "year"] else ["year"] in
   aggregated_df <-
     lift (if negb passim then
             groupby_agg gp_key
               [("issues", tunique); ("content_items_out", agg_sum);
                ("ft_tokens", agg_sum)] rebuilt_count_df
           else
             groupby_agg gp_key
               [("issues", tunique); ("content_items_out", agg_sum)]
               rebuilt_count_df)%err ;;
   let aggregated_df :=
     if include_np then reset_index aggregated_df
     else drop_index aggregated_df in
   let msg := "Obtaining the yearly rebuilt statistics" in
   (if negb (String.eqb key "")
    then logger_info (msg ++ " for " ++ key)%string
    else logger_info msg) ;;;
   (match client with
    | Some _ => progress
    | None => eff_ret tt
    end) ;;;
   eff_ret (compute (to_bag aggregated_df)))%eff.

(** The function mapped over the bag in [compute_stats_in_entities_bag]. *)
Definition entities_counts (ci : Val) : Err Val :=
  id0 <- getitem ci "id" ;;
  parts0 <- split id0 "-" ;;
  np_id <- list_index parts0 0 ;;
  id1 <- getitem ci "id" ;;
  parts1 <- split id1 "-" ;;
  year <- list_index parts1 1 ;;
  id2 <- getitem ci "id" ;;
  parts2 <- split id2 "-" ;;
  let issues := str_join "-" (slice_to parts2 (-1)) in
  nes <- getitem ci "nes" ;;
  ne_mentions <- len nes ;;
  nes' <- getitem ci "nes" ;;
  mentions <- iter nes' ;;
  wkd_ids <-
    list_comp (fun m =>
                 has_id <- contains m "wkd_id" ;;
                 if has_id then
                   w <- getitem m "wkd_id" ;;
                   ret (negb (mem w [VStr "NIL"; VNone]))
                 else ret false)
              (fun m => getitem m "wkd_id") mentions ;;
  distinct <- set_of wkd_ids ;;
  ne_entities <- sorted distinct ;;
  ret (VDict
         (mkdict [("np_id", VStr np_id);
                  ("year", VStr year);
                  ("issues", VStr issues);
                  ("content_items_out", VInt 1);
                  ("ne_mentions", VInt ne_mentions);
                  ("ne_entities", VList ne_entities)])).

(** [compute_stats_in_entities_bag(s3_entities, client=None)] *)
Definition compute_stats_in_entities_bag (s3_entities : Bag Val)
  (client : option Client) : Eff (list Val) :=
  (count_df <-
     lift (b <- bag_map entities_counts s3_entities ;;
           df <- to_dataframe
                   [("np_id", dt_str); ("year", dt_str); ("issues", dt_str);
                    ("content_items_out", dt_int); ("ne_mentions", dt_int);
                    ("ne_entities", dt_object)] b ;;
           df <- map_column "ne_entities"
                   (fun x => ret (match x with
                                  | VList _ => x
                                  | _ => VList [x]
                                  end)) df ;;
           explode "ne_entities" df)%err ;;
   aggregated_df <-
     lift (g <- groupby_agg ["np_id"; "year"]
                  [("issues", tunique); ("content_items_out", agg_sum);
                   ("ne_mentions", agg_sum); ("ne_entities", tunique)]
                  count_df ;;
           ret (reset_index g))%err ;;
   print "Finished grouping and aggregating stats by title and year." ;;;
   logger_info "Finished grouping and aggregating stats by title and year." ;;;
   (match client with
    | Some _ => progress
    | None => eff_ret tt
    end) ;;;
   eff_ret (compute (to_bag aggregated_df)))%eff.

(** [freq(x, col="lang_fd")], local to [compute_stats_in_langident_bag]:
<<
    x[col] = dict(Counter(literal_eval(x[col])))
    return x
>> *)
Definition freq (x : Val) (col : string) : Err Val :=
  c <- getitem x col ;;
  parsed <- literal_eval c ;;
  counted <- Counter parsed ;;
  setitem x col (VDict counted).

(** The function mapped over the bag in [compute_stats_in_langident_bag]. *)
Definition langident_counts (ci : Val) : Err Val :=
  id0 <- getitem ci "id" ;;
  parts0 <- split id0 "-" ;;
  np_id <- list_index parts0 0 ;;
  id1 <- getitem ci "id" ;;
  parts1 <- split id1 "-" ;;
  year <- list_index parts1 1 ;;
  id2 <- getitem ci "id" ;;
  parts2 <- split id2 "-" ;;
  let issues := str_join "-" (slice_to parts2 (-1)) in
  tp <- getitem ci "tp" ;;
  let images := if val_eqb tp (VStr "img") then 1%Z else 0%Z in
  lg <- getitem ci "lg" ;;
  lang_fd <-
    (match lg with
     | VNone => ret (VStr "None")
     | _ => lg' <- getitem ci "lg" ;; ret lg'
     end) ;;
  ret (VDict
         (mkdict [("np_id", VStr np_id);
                  ("year", VStr year);
                  ("issues", VStr issues);
                  ("content_items_out", VInt 1);
                  ("images", VInt images);
                  ("lang_fd", lang_fd)])).

(** [compute_stats_in_langident_bag(s3_langident, client=None)].

    [freq] is mapped over the records of the aggregated frame, whose
    [lang_fd] cell is the list the [list] aggregation collected.  As
    every stage of the model, the mapping runs where the code calls it,
    before [progress]. *)
Definition compute_stats_in_langident_bag (s3_langident : Bag Val)
  (client : option Client) : Eff (list Val) :=
  (count_df <-
     lift (b <- bag_map langident_counts s3_langident ;;
           to_dataframe
             [("np_id", dt_str); ("year", dt_str); ("issues", dt_str);
              ("content_items_out", dt_int); ("images", dt_int);
              ("lang_fd", dt_object)] b)%err ;;
   aggregated_df <-
     lift (g <- groupby_agg ["np_id"; "year"]
                  [("issues", tunique); ("content_items_out", agg_sum);
                   ("images", agg_sum); ("lang_fd", agg_list)]
                  count_df ;;
           ret (reset_index g))%err ;;
   agg_bag <-
     lift (bag_map (fun x => freq x "lang_fd") (to_bag aggregated_df))%err ;;
   (match client with
    | Some _ => progress
    | None => eff_ret tt
    end) ;;;
   eff_ret (compute agg_bag))%eff.

(** The function mapped over the bag in [compute_stats_in_solr_text_bag]. *)
Definition solr_counts (ci : Val) : Err Val :=
  np_id <- getitem ci "meta_journal_s" ;;
  year <- getitem ci "meta_year_i" ;;
  issues <- getitem ci "meta_issue_id_s" ;;
  ret (VDict
         (mkdict [("np_id", np_id);
                  ("year", year);
                  ("issues", issues);
                  ("content_items_out", VInt 1)])).

(** [compute_stats_in_solr_text_bag(s3_solr_text, client=None)] *)
Definition compute_stats_in_solr_text_bag (s3_solr_text : Bag Val)
  (client : option Client) : Eff (list Val) :=
  (count_df <-
     lift (b <- bag_map solr_counts s3_solr_text ;;
           to_dataframe
             [("np_id", dt_str); ("year", dt_str); ("issues", dt_str);
              ("content_items_out", dt_int)] b)%err ;;
   aggregated_df <-
     lift (g <- groupby_agg ["np_id"; "year"]
                  [("issues", tunique); ("content_items_out", agg_sum)]
                  count_df ;;
           ret (reset_index g))%err ;;
   print "Finished grouping and aggregating stats by title and year." ;;;
   logger_info "Finished grouping and aggregating stats by title and year." ;;;
   (match client with
    | Some _ => progress
    | None => eff_ret tt
    end) ;;;
   eff_ret (compute (to_bag aggregated_df)))%eff.

End Aggregators.

(* ================================================================== *)
(** * Part II: properties                                              *)
(* ================================================================== *)

Import Py.
Local Open Scope err_scope.

(** ** [utils.chunk] *)

Section ChunkFacts.
Context {A : Type}.

Lemma slice_nonneg (l : list A) (i j : Z) :
  (0 <= i <= j)%Z ->
  slice l i j = firstn (Z.to_nat (j - i)) (skipn (Z.to_nat i) l).
Proof.
  intros Hij. unfold slice, clip_index.
  destruct (Z.ltb_spec i 0); [lia|].
  destruct (Z.ltb_spec j 0); [lia|].
  set (n := Z.of_nat (length l)).
  destruct (Z.le_gt_cases i n) as [Hi|Hi].
  - rewrite (Z.min_l i n) by lia.
    destruct (Z.le_gt_cases j n) as [Hj|Hj].
    + rewrite (Z.min_l j n) by lia. f_equal. lia.
    + rewrite (Z.min_r j n) by lia.
      rewrite !firstn_all2; try reflexivity;
        rewrite length_skipn; unfold n in *; lia.
  - rewrite (Z.min_r i n), (Z.min_r j n) by lia.
    rewrite !skipn_all2 by (unfold n in *; lia).
    now rewrite !firstn_nil.
Qed.

(** The [k]-th chunk of size [m]. *)
Definition nth_chunk (m : nat) (l : list A) (k : nat) : list A :=
  firstn m (skipn (k * m) l).

Lemma nth_chunk_succ (m : nat) (l : list A) (k : nat) :
  nth_chunk m l (S k) = nth_chunk m (skipn m l) k.
Proof.
  unfold nth_chunk. rewrite skipn_skipn. do 2 f_equal. lia.
Qed.

Lemma concat_chunks (m c : nat) (l : list A) :
  length l <= c * m ->
  concat (map (nth_chunk m l) (seq 0 c)) = l.
Proof.
  revert l. induction c as [|c IH]; intros l Hlen.
  - destruct l; [reflexivity | simpl in Hlen; lia].
  - cbn [seq map concat]. rewrite <- seq_shift, map_map.
    rewrite (map_ext _ (nth_chunk m (skipn m l)))
      by (intros k; apply nth_chunk_succ).
    rewrite IH by (rewrite length_skipn; lia).
    unfold nth_chunk. cbn [Nat.mul skipn]. apply firstn_skipn.
Qed.

Lemma nth_chunk_full (m : nat) (l : list A) (k : nat) :
  S k * m <= length l -> length (nth_chunk m l k) = m.
Proof.
  intros H. unfold nth_chunk. rewrite length_firstn, length_skipn. lia.
Qed.

Lemma chunk_pos (l : list A) (n : Z) :
  (0 < n)%Z ->
  Utils.chunk l n =
    ret (map (nth_chunk (Z.to_nat n) l)
             (seq 0 (Z.to_nat ((Z.of_nat (length l) + n - 1) / n)))).
Proof.
  intros Hn. unfold Utils.chunk, range.
  destruct (Z.eqb_spec n 0); [lia|].
  destruct (Z.ltb_spec 0 n); [|lia].
  cbn [bind ret]. f_equal. rewrite map_map. rewrite Z.sub_0_r.
  apply map_ext. intros k.
  rewrite slice_nonneg by nia. unfold nth_chunk.
  f_equal; [lia|]. f_equal. nia.
Qed.

(** The number of chunks is [ceil(len(l) / n)]. *)
Lemma chunk_count_bounds (len n : nat) :
  0 < n ->
  let c := Z.to_nat ((Z.of_nat len + Z.of_nat n - 1) / Z.of_nat n) in
  len <= c * n /\ (forall k, S k < c -> S k * n <= len)
  /\ (0 < len -> (c - 1) * n < len) /\ (len = 0 -> c = 0).
Proof.
  intros Hn c.
  assert (Hc : (Z.of_nat c = (Z.of_nat len + Z.of_nat n - 1) / Z.of_nat n)%Z).
  { unfold c. rewrite Z2Nat.id; [reflexivity|].
    apply Z.div_pos; lia. }
  pose proof (Z.mul_div_le (Z.of_nat len + Z.of_nat n - 1) (Z.of_nat n)
                ltac:(lia)) as Hle.
  pose proof (Z.mul_succ_div_gt (Z.of_nat len + Z.of_nat n - 1) (Z.of_nat n)
                ltac:(lia)) as Hgt.
  rewrite <- Hc in Hle, Hgt.
  repeat split; intros; nia.
Qed.

End ChunkFacts.

(** C10.  For a positive [chunksize], [chunk] yields consecutive slices of
    the list: their concatenation, in order, is the list itself; the
    [k]-th one is [l[k*n : k*n + n]]; and every chunk but possibly the last
    has exactly [chunksize] elements (the last one, when there is one, is
    not empty and has at most [chunksize]). *)
Theorem chunk_concat_and_sizes (A : Type) (l : list A) (chunksize : Z) :
  (0 < chunksize)%Z ->
  exists chunks : list (list A),
    Utils.chunk l chunksize = ret chunks
    /\ concat chunks = l
    /\ (forall k, k < length chunks ->
          nth k chunks [] =
            slice l (Z.of_nat k * chunksize)
                    (Z.of_nat k * chunksize + chunksize))
    /\ (forall k, S k < length chunks ->
          Z.of_nat (length (nth k chunks [])) = chunksize)
    /\ (forall k, k < length chunks ->
          0 < length (nth k chunks [])
          /\ (Z.of_nat (length (nth k chunks [])) <= chunksize)%Z).
Proof.
  intros Hn.
  set (m := Z.to_nat chunksize).
  assert (Hm : 0 < m) by (unfold m; lia).
  assert (Hzm : chunksize = Z.of_nat m) by (unfold m; lia).
  rewrite chunk_pos by assumption. fold m.
  set (c := Z.to_nat ((Z.of_nat (length l) + chunksize - 1) / chunksize)).
  destruct (chunk_count_bounds (length l) m Hm)
    as (Hcov & Hfull & Hlast & Hnone).
  rewrite <- Hzm in Hcov, Hfull, Hlast, Hnone.
  fold c in Hcov, Hfull, Hlast, Hnone.
  eexists. split; [reflexivity|].
  assert (Hnth : forall k, k < c ->
            nth k (map (nth_chunk m l) (seq 0 c)) [] = nth_chunk m l k).
  { intros k Hk.
    rewrite (nth_indep _ [] (nth_chunk m l 0))
      by (now rewrite length_map, length_seq).
    rewrite (map_nth (nth_chunk m l)), seq_nth by assumption. reflexivity. }
  rewrite length_map, length_seq.
  split; [now apply concat_chunks|].
  split; [|split].
  - intros k Hk. rewrite Hnth by assumption.
    rewrite slice_nonneg by nia. unfold nth_chunk.
    f_equal; [lia|]. f_equal. nia.
  - intros k Hk. rewrite Hnth by lia.
    rewrite nth_chunk_full by (apply Hfull; exact Hk). lia.
  - intros k Hk. rewrite Hnth by assumption.
    unfold nth_chunk. rewrite length_firstn, length_skipn.
    assert (Hl : 0 < length l) by lia.
    specialize (Hlast Hl).
    assert (k * m <= (c - 1) * m) by nia.
    lia.
Qed.

Lemma chunk_concat_and_sizes_witness :
  exists chunks : list (list nat),
    Utils.chunk [1; 2; 3; 4; 5; 6; 7] 3 = ret chunks
    /\ concat chunks = [1; 2; 3; 4; 5; 6; 7]
    /\ (forall k, k < length chunks ->
          nth k chunks [] =
            slice [1; 2; 3; 4; 5; 6; 7] (Z.of_nat k * 3) (Z.of_nat k * 3 + 3))
    /\ (forall k, S k < length chunks ->
          Z.of_nat (length (nth k chunks [])) = 3%Z)
    /\ (forall k, k < length chunks ->
          0 < length (nth k chunks [])
          /\ (Z.of_nat (length (nth k chunks [])) <= 3)%Z).
Proof. apply (chunk_concat_and_sizes nat [1; 2; 3; 4; 5; 6; 7] 3). lia. Defined.

Example chunk_7_by_3 :
  Utils.chunk [1; 2; 3; 4; 5; 6; 7] 3 = ret [[1; 2; 3]; [4; 5; 6]; [7]].
Proof. reflexivity. Qed.

Example chunk_step_zero : Utils.chunk [1; 2; 3] 0 = raise ValueError.
Proof. reflexivity. Qed.

(** ** The error monad *)

Lemma bind_ret_inv {A B : Type} (m : Err A) (k : A -> Err B) (b : B) :
  bind m k = inr b -> exists a, m = inr a /\ k a = inr b.
Proof. destruct m as [e|a]; simpl; [discriminate | eauto]. Qed.

Lemma mapM_ok {A B : Type} (f : A -> Err B) (g : A -> B) (l : list A) :
  (forall x, In x l -> f x = inr (g x)) -> mapM f l = inr (map g l).
Proof.
  induction l as [|x l IH]; intros H; simpl; [reflexivity|].
  rewrite (H x) by now left. simpl.
  rewrite IH by (intros; apply H; now right). reflexivity.
Qed.

Lemma mapM_inv {A B : Type} (f : A -> Err B) (l : list A) (ys : list B) :
  mapM f l = inr ys -> Forall2 (fun x y => f x = inr y) l ys.
Proof.
  revert ys. induction l as [|x l IH]; simpl; intros ys H.
  - injection H as <-. constructor.
  - apply bind_ret_inv in H as (y & Hy & H).
    apply bind_ret_inv in H as (ys' & Hys & H).
    injection H as <-. constructor; auto.
Qed.

Lemma mapM_app {A B : Type} (f : A -> Err B) (l1 l2 : list A)
  (ys1 ys2 : list B) :
  mapM f l1 = inr ys1 -> mapM f l2 = inr ys2 ->
  mapM f (l1 ++ l2) = inr (ys1 ++ ys2).
Proof.
  revert ys1. induction l1 as [|x l1 IH]; simpl; intros ys1 H1 H2.
  - injection H1 as <-. exact H2.
  - apply bind_ret_inv in H1 as (y & Hy & H1).
    apply bind_ret_inv in H1 as (ys' & Hys & H1).
    injection H1 as <-. rewrite Hy. simpl.
    rewrite (IH ys') by assumption. reflexivity.
Qed.

Lemma mapM_raises {A B : Type} (f : A -> Err B) (l : list A) (x : A)
  (e : PyError) :
  In x l -> f x = inl e -> exists e', mapM f l = inl e'.
Proof.
  induction l as [|y l IH]; simpl; [contradiction|].
  intros [->|Hin] Hx.
  - rewrite Hx. simpl. eauto.
  - destruct (f y); simpl; [eauto|].
    destruct (IH Hin Hx) as (e' & ->). simpl. eauto.
Qed.

(** ** Equality of values *)

Section ValInduction.
Variable P : Val -> Prop.
Hypothesis HNone : P VNone.
Hypothesis HNaN : P VNaN.
Hypothesis HInt : forall z, P (VInt z).
Hypothesis HStr : forall s, P (VStr s).
Hypothesis HList : forall l, Forall P l -> P (VList l).
Hypothesis HDict :
  forall d, Forall (fun kv => P (fst kv) /\ P (snd kv)) d -> P (VDict d).

Fixpoint Val_nested_ind (v : Val) : P v :=
  match v with
  | VNone => HNone
  | VNaN => HNaN
  | VInt z => HInt z
  | VStr s => HStr s
  | VList l =>
      HList l
        ((fix go (l : list Val) : Forall P l :=
            match l with
            | [] => Forall_nil P
            | x :: l' => Forall_cons x (Val_nested_ind x) (go l')
            end) l)
  | VDict d =>
      HDict d
        ((fix go (d : list (Val * Val))
            : Forall (fun kv => P (fst kv) /\ P (snd kv)) d :=
            match d with
            | [] => Forall_nil _
            | (k, x) :: d' =>
                Forall_cons (k, x)
                  (conj (Val_nested_ind k) (Val_nested_ind x)) (go d')
            end) d)
  end.
End ValInduction.

Lemma val_eqb_eq (a b : Val) : val_eqb a b = true <-> a = b.
Proof.
  revert b. induction a as [ | | z | s | l IH | d IH] using Val_nested_ind;
    intros b; destruct b as [ | | z' | s' | l' | d'];
    simpl; try (split; [discriminate | congruence]);
    try (split; reflexivity).
  - rewrite Z.eqb_eq. split; congruence.
  - rewrite String.eqb_eq. split; congruence.
  - revert l'. induction IH as [|x l Hx _ IHl]; intros [|y l'];
      try (split; [discriminate | congruence]); [split; reflexivity|].
    rewrite andb_true_iff, Hx, IHl. split.
    + intros [-> H]. now injection H as ->.
    + intros H. injection H as -> ->. auto.
  - revert d'. induction IH as [|[k x] d [Hk Hx] _ IHd]; intros [|[k' x'] d'];
      try (split; [discriminate | congruence]); [split; reflexivity|].
    simpl in Hk, Hx.
    rewrite !andb_true_iff, Hk, Hx, IHd. split.
    + intros [[-> ->] H]. now injection H as ->.
    + intros H. injection H as -> -> ->. auto.
Qed.

Lemma val_eqb_refl (a : Val) : val_eqb a a = true.
Proof. now apply val_eqb_eq. Qed.

Lemma val_eqb_neq (a b : Val) : val_eqb a b = false <-> a <> b.
Proof.
  rewrite <- val_eqb_eq. destruct (val_eqb a b); split; congruence.
Qed.

(** ** Lists with a boolean equality *)

Section GenericFacts.
Context {A : Type} (eqb : A -> A -> bool).
Hypothesis eqb_eq : forall x y, eqb x y = true <-> x = y.

Lemma list_eqb_eq (l m : list A) : list_eqb eqb l m = true <-> l = m.
Proof.
  revert m. induction l as [|x l IH]; intros [|y m]; simpl;
    try (split; [discriminate | congruence]); [split; reflexivity|].
  rewrite andb_true_iff, eqb_eq, IH. split.
  - now intros [-> ->].
  - intros H. injection H as -> ->. auto.
Qed.

Lemma mem_by_In (x : A) (l : list A) : mem_by eqb x l = true <-> In x l.
Proof.
  induction l as [|y l IH]; simpl; [split; [discriminate | tauto]|].
  now rewrite orb_true_iff, eqb_eq, IH.
Qed.

Lemma dedup_by_In (x : A) (l : list A) : In x (dedup_by eqb l) <-> In x l.
Proof.
  induction l as [|y l IH]; simpl; [tauto|].
  rewrite filter_In, IH, negb_true_iff.
  split; [tauto|]. intros [->|H]; [now left|].
  destruct (eqb y x) eqn:E; [left; now apply eqb_eq | right; auto].
Qed.

Lemma dedup_by_NoDup (l : list A) : NoDup (dedup_by eqb l).
Proof.
  induction l as [|y l IH]; simpl; constructor.
  - rewrite filter_In, negb_true_iff. intros [_ H].
    assert (eqb y y = true) by now apply eqb_eq. congruence.
  - now apply NoDup_filter.
Qed.

Lemma dedup_by_Permutation (l m : list A) :
  (forall x, In x l <-> In x m) ->
  Permutation (dedup_by eqb l) (dedup_by eqb m).
Proof.
  intros H. apply NoDup_Permutation; try apply dedup_by_NoDup.
  intros x. now rewrite !dedup_by_In.
Qed.

Lemma insert_by_Permutation (leb : A -> A -> bool) (x : A) (l : list A) :
  Permutation (insert_by leb x l) (x :: l).
Proof.
  induction l as [|y l IH]; simpl; [reflexivity|].
  destruct (leb x y); [reflexivity|].
  rewrite IH. apply perm_swap.
Qed.

Lemma sort_by_Permutation (leb : A -> A -> bool) (l : list A) :
  Permutation (sort_by leb l) l.
Proof.
  induction l as [|x l IH]; simpl; [reflexivity|].
  rewrite insert_by_Permutation. now constructor.
Qed.

(** In a list without duplicates, the elements equal to [x] are [x]
    itself, if it is there. *)
Lemma filter_eqb_NoDup (x : A) (l : list A) :
  NoDup l ->
  filter (fun y => eqb y x) l = if mem_by eqb x l then [x] else [].
Proof.
  induction 1 as [|y l Hy Hnd IH]; simpl; [reflexivity|].
  destruct (eqb y x) eqn:E; simpl.
  - apply eqb_eq in E. subst y. rewrite IH.
    destruct (mem_by eqb x l) eqn:M; [|reflexivity].
    apply mem_by_In in M. contradiction.
  - exact IH.
Qed.
End GenericFacts.

Lemma dedup_In (x : Val) (l : list Val) : In x (dedup l) <-> In x l.
Proof. apply dedup_by_In, val_eqb_eq. Qed.

Lemma dedup_NoDup (l : list Val) : NoDup (dedup l).
Proof. apply dedup_by_NoDup, val_eqb_eq. Qed.

(** [len(set(...))] sees a collection only through its members. *)
Lemma dedup_length_ext (l m : list Val) :
  (forall x, In x l <-> In x m) -> length (dedup l) = length (dedup m).
Proof.
  intros H. apply Permutation_length, dedup_by_Permutation; auto.
  apply val_eqb_eq.
Qed.

Lemma dedup_length_concat (ls : list (list Val)) :
  length (dedup (concat (map dedup ls))) = length (dedup (concat ls)).
Proof.
  apply dedup_length_ext. intros x. rewrite !in_concat. split.
  - intros (l & Hl & Hx). apply in_map_iff in Hl as (l0 & <- & Hl0).
    rewrite dedup_In in Hx. exists l0. split; assumption.
  - intros (l & Hl & Hx). exists (dedup l). split.
    + now apply in_map.
    + now apply dedup_In.
Qed.

(** ** Grouping *)

Import Dask.

Lemma key_eqb_eq (k1 k2 : Key) : key_eqb k1 k2 = true <-> k1 = k2.
Proof. apply list_eqb_eq, val_eqb_eq. Qed.

Lemma key_eqb_refl (k : Key) : key_eqb k k = true.
Proof. now apply key_eqb_eq. Qed.

Lemma group_keys_In (k : Key) (s : Series) :
  In k (group_keys s) <-> In k (map fst s).
Proof.
  unfold group_keys. apply dedup_by_In, key_eqb_eq.
Qed.

Lemma In_key_dec (k : Key) (ks : list Key) : In k ks \/ ~ In k ks.
Proof.
  destruct (mem_by key_eqb k ks) eqn:M.
  - left. now apply (mem_by_In key_eqb key_eqb_eq).
  - right. intros H. apply (mem_by_In key_eqb key_eqb_eq) in H. congruence.
Qed.

Lemma group_keys_NoDup (s : Series) : NoDup (group_keys s).
Proof.
  unfold group_keys. apply dedup_by_NoDup, key_eqb_eq.
Qed.

Lemma group_values_app (s1 s2 : Series) (k : Key) :
  group_values (s1 ++ s2) k = group_values s1 k ++ group_values s2 k.
Proof. unfold group_values. now rewrite filter_app, map_app. Qed.

Lemma group_values_concat (ss : list Series) (k : Key) :
  group_values (concat ss) k = concat (map (fun s => group_values s k) ss).
Proof.
  induction ss as [|s ss IH]; simpl; [reflexivity|].
  now rewrite group_values_app, IH.
Qed.

Lemma group_values_nil (s : Series) (k : Key) :
  group_values s k = [] <-> ~ In k (map fst s).
Proof.
  unfold group_values. induction s as [|[k' v] s IH]; simpl; [tauto|].
  destruct (key_eqb k' k) eqn:E; simpl.
  - apply key_eqb_eq in E. split; [discriminate | tauto].
  - rewrite IH. apply not_true_iff_false in E. rewrite key_eqb_eq in E.
    tauto.
Qed.

Lemma group_values_In (s : Series) (k : Key) (v : Val) :
  In v (group_values s k) <-> In (k, v) s.
Proof.
  unfold group_values. rewrite in_map_iff. split.
  - intros ([k' v'] & <- & H). apply filter_In in H as [H E].
    simpl in E. apply key_eqb_eq in E. now subst.
  - intros H. exists (k, v). split; [reflexivity|].
    apply filter_In. split; [assumption | apply key_eqb_refl].
Qed.

(** What [grouped.apply(f)] returns when [f] succeeds on every group. *)
Lemma groupby_apply_ok (f : list Val -> Err Val) (g : Key -> Val)
  (s : Series) :
  (forall k, In k (map fst s) -> f (group_values s k) = inr (g k)) ->
  groupby_apply f (groupby_level s)
  = inr (map (fun k => (k, g k)) (group_keys s)).
Proof.
  intros H. unfold groupby_apply. simpl. apply mapM_ok.
  intros k Hk. apply group_keys_In in Hk. now rewrite H.
Qed.

Lemma map_fst_keyed {B : Type} (g : Key -> B) (ks : list Key) :
  map fst (map (fun k => (k, g k)) ks) = ks.
Proof. rewrite map_map. simpl. apply map_id. Qed.

(** The values a chunk result holds for [k]: one, if the partition saw
    the group, none otherwise. *)
Lemma group_values_chunk (g : Key -> Val) (p : Series) (k : Key) :
  group_values (map (fun k' => (k', g k')) (group_keys p)) k
  = match group_values p k with
    | [] => []
    | _ :: _ => [g k]
    end.
Proof.
  unfold group_values at 1.
  assert (E : filter (fun kv : Key * Val => key_eqb (fst kv) k)
                (map (fun k' => (k', g k')) (group_keys p))
              = map (fun k' => (k', g k'))
                  (filter (fun k' => key_eqb k' k) (group_keys p))).
  { induction (group_keys p) as [|k' ks IH]; simpl; [reflexivity|].
    destruct (key_eqb k' k); simpl; now rewrite IH. }
  rewrite E, (filter_eqb_NoDup key_eqb key_eqb_eq) by apply group_keys_NoDup.
  destruct (mem_by key_eqb k (group_keys p)) eqn:M.
  - apply (mem_by_In key_eqb key_eqb_eq) in M. apply group_keys_In in M.
    destruct (group_values p k) eqn:V; [|reflexivity].
    apply group_values_nil in V. contradiction.
  - destruct (group_values p k) eqn:V; [reflexivity|].
    destruct (In_key_dec k (map fst p)) as [Hin|Hout].
    + apply group_keys_In, (mem_by_In key_eqb key_eqb_eq) in Hin.
      congruence.
    + apply group_values_nil in Hout. congruence.
Qed.

(** The concatenated chunk results, regrouped: every group that some
    partition saw, with one chunk value per partition that saw it. *)
Section ChunkStage.
Variable c1 : list Val -> Val.
Variable parts : list Series.

Definition chunk_results : Series :=
  concat (map (fun p => map (fun k => (k, c1 (group_values p k)))
                            (group_keys p)) parts).

Lemma chunk_results_keys (k : Key) :
  In k (map fst chunk_results) <-> In k (map fst (concat parts)).
Proof.
  unfold chunk_results. rewrite !concat_map, !in_concat. split.
  - intros (l & Hl & Hk). rewrite map_map in Hl.
    apply in_map_iff in Hl as (p & <- & Hp).
    rewrite map_fst_keyed in Hk. apply group_keys_In in Hk.
    exists (map fst p). split; [now apply in_map | assumption].
  - intros (l & Hl & Hk). apply in_map_iff in Hl as (p & <- & Hp).
    exists (group_keys p). split.
    + rewrite map_map. apply in_map_iff. exists p.
      split; [apply map_fst_keyed | assumption].
    + now apply group_keys_In.
Qed.

Lemma chunk_results_values (k : Key) :
  group_values chunk_results k
  = map c1 (filter (fun l => match l with [] => false | _ => true end)
                   (map (fun p => group_values p k) parts)).
Proof.
  unfold chunk_results. rewrite group_values_concat, map_map.
  induction parts as [|p ps IH]; simpl; [reflexivity|].
  rewrite (group_values_chunk (fun k => c1 (group_values p k))), IH.
  destruct (group_values p k); reflexivity.
Qed.
End ChunkStage.

Lemma concat_filter_nonempty {A : Type} (ls : list (list A)) :
  concat (filter (fun l => match l with [] => false | _ => true end) ls)
  = concat ls.
Proof.
  induction ls as [|[|x l] ls IH]; simpl; [reflexivity | assumption|].
  now rewrite IH.
Qed.

(** ** What the three aggregations compute *)

Definition is_int (v : Val) : bool :=
  match v with
  | VInt _ => true
  | _ => false
  end.

(** The arithmetic sum of a list of integer cells. *)
Definition zsum (l : list Val) : Z :=
  fold_right (fun v acc => match v with VInt z => z + acc | _ => acc end)%Z
             0%Z l.

(** [A] reduces each group to [h] of the group's values, whatever the
    partitioning: on any partitions whose values satisfy [ok], the three
    stages return one entry per group, holding [h] of the values the
    group has in the concatenation of the partitions. *)
Definition reduces (A : Aggregation) (ok : Val -> bool)
  (h : list Val -> Val) : Prop :=
  forall parts : list Series,
    (forall p kv, In p parts -> In kv p -> ok (snd kv) = true) ->
    exists out : Series,
      aggregate A (map groupby_level parts) = inr out
      /\ NoDup (map fst out)
      /\ (forall k, In k (map fst out) <-> In k (map fst (concat parts)))
      /\ (forall k v, In (k, v) out ->
                      v = h (group_values (concat parts) k)).

Lemma mapM_map {A B C : Type} (f : B -> Err C) (g : A -> B) (l : list A) :
  mapM f (map g l) = mapM (fun x => f (g x)) l.
Proof. induction l as [|x l IH]; simpl; [reflexivity | now rewrite IH]. Qed.

Lemma series_apply_ok (f : Val -> Err Val) (g : Val -> Val) (s : Series) :
  (forall kv, In kv s -> f (snd kv) = inr (g (snd kv))) ->
  series_apply f s = inr (map (fun kv => (fst kv, g (snd kv))) s).
Proof.
  intros H. unfold series_apply. apply mapM_ok.
  intros kv Hkv. now rewrite H.
Qed.

Lemma zsum_app (l1 l2 : list Val) : zsum (l1 ++ l2) = (zsum l1 + zsum l2)%Z.
Proof.
  induction l1 as [|v l1 IH]; simpl; [reflexivity|].
  rewrite IH. destruct v; lia.
Qed.

Lemma zsum_chunks (ls : list (list Val)) :
  zsum (map (fun l => VInt (zsum l)) ls) = zsum (concat ls).
Proof.
  induction ls as [|l ls IH]; simpl; [reflexivity|].
  now rewrite zsum_app, IH.
Qed.

Lemma sum_from_ints (acc : Z) (l : list Val) :
  forallb is_int l = true ->
  sum_from (VInt acc) l = inr (VInt (acc + zsum l)).
Proof.
  revert acc. induction l as [|v l IH]; simpl; intros acc H.
  - now rewrite Z.add_0_r.
  - apply andb_true_iff in H as [Hv Hl]. destruct v; try discriminate.
    simpl. rewrite IH by assumption. now rewrite Z.add_assoc.
Qed.

Lemma sum_values_ints (l : list Val) :
  forallb is_int l = true -> sum_values l = inr (VInt (zsum l)).
Proof.
  destruct l as [|v l]; simpl; [reflexivity|].
  intros H. apply andb_true_iff in H as [Hv Hl]. destruct v; try discriminate.
  now apply sum_from_ints.
Qed.

Lemma sum_from_lists (a : list Val) (ls : list (list Val)) :
  sum_from (VList a) (map VList ls) = inr (VList (a ++ concat ls)).
Proof.
  revert a. induction ls as [|l ls IH]; simpl; intros a.
  - now rewrite app_nil_r.
  - rewrite IH. now rewrite app_assoc.
Qed.

Lemma sum_values_lists (ls : list (list Val)) :
  ls <> [] -> sum_values (map VList ls) = inr (VList (concat ls)).
Proof.
  destruct ls as [|l ls]; [congruence|]. intros _. simpl.
  apply sum_from_lists.
Qed.

Lemma forallb_group_values (ok : Val -> bool) (s : Series) (k : Key) :
  (forall kv, In kv s -> ok (snd kv) = true) ->
  forallb ok (group_values s k) = true.
Proof.
  intros H. apply forallb_forall. intros v Hv.
  apply group_values_In in Hv. exact (H _ Hv).
Qed.

(** The part of the three proofs below that does not depend on the
    aggregation: from the entries of the result to the statement. *)
Lemma reduces_intro (A : Aggregation) (h : list Val -> Val)
  (c1 : list Val -> Val) (parts : list Series) :
  aggregate A (map groupby_level parts)
  = inr (map (fun k => (k, h (group_values (concat parts) k)))
             (group_keys (chunk_results c1 parts))) ->
  exists out : Series,
    aggregate A (map groupby_level parts) = inr out
    /\ NoDup (map fst out)
    /\ (forall k, In k (map fst out) <-> In k (map fst (concat parts)))
    /\ (forall k v, In (k, v) out -> v = h (group_values (concat parts) k)).
Proof.
  intros H. eexists. split; [exact H|]. rewrite map_fst_keyed.
  split; [apply group_keys_NoDup|]. split.
  - intros k. now rewrite group_keys_In, chunk_results_keys.
  - intros k v Hin. apply in_map_iff in Hin as (k' & E & _).
    now injection E as <- <-.
Qed.

Lemma group_values_concat_parts (parts : list Series) (k : Key) :
  concat (filter (fun l => match l with [] => false | _ => true end)
                 (map (fun p => group_values p k) parts))
  = group_values (concat parts) k.
Proof. now rewrite concat_filter_nonempty, group_values_concat. Qed.

(** The built-in [sum] yields the arithmetic sum of the group. *)
Lemma agg_sum_reduces : reduces agg_sum is_int (fun l => VInt (zsum l)).
Proof.
  intros parts Hok.
  apply (reduces_intro agg_sum (fun l => VInt (zsum l))
           (fun l => VInt (zsum l)) parts).
  unfold aggregate. cbn [agg_sum agg_chunk agg_agg agg_finalize].
  rewrite mapM_map.
  rewrite (mapM_ok _ (fun p => map (fun k => (k, VInt (zsum (group_values p k))))
                                   (group_keys p))).
  2:{ intros p Hp. apply groupby_apply_ok. intros k _.
      apply sum_values_ints, forallb_group_values. intros kv. apply Hok, Hp. }
  cbn [bind]. fold (chunk_results (fun l => VInt (zsum l)) parts).
  unfold groupby_sum.
  rewrite (groupby_apply_ok _
             (fun k => VInt (zsum (group_values (concat parts) k)))).
  { reflexivity. }
  intros k _. rewrite chunk_results_values.
  rewrite sum_values_ints.
  - now rewrite zsum_chunks, group_values_concat_parts.
  - apply forallb_forall. intros v Hv.
    apply in_map_iff in Hv as (l & <- & _). reflexivity.
Qed.

(** The built-in [list] yields the values of the group, in the order of
    the concatenated partitions. *)
Lemma agg_list_reduces : reduces agg_list (fun _ => true) VList.
Proof.
  intros parts _.
  apply (reduces_intro agg_list VList VList parts).
  unfold aggregate. cbn [agg_list agg_chunk agg_agg agg_finalize].
  rewrite mapM_map.
  rewrite (mapM_ok _ (fun p => map (fun k => (k, VList (group_values p k)))
                                   (group_keys p))).
  2:{ intros p Hp. now apply groupby_apply_ok. }
  cbn [bind]. fold (chunk_results VList parts).
  rewrite (groupby_apply_ok _
             (fun k => VList (group_values (concat parts) k))).
  { reflexivity. }
  intros k _. rewrite chunk_results_values.
  rewrite mapM_map. cbn [iter]. rewrite (mapM_ok _ (fun l => l)) by reflexivity.
  cbn [bind]. now rewrite map_id, group_values_concat_parts.
Qed.

Lemma chunk_results_cells (c1 : list Val -> Val) (parts : list Series)
  (kv : Key * Val) :
  In kv (chunk_results c1 parts) -> exists l, snd kv = c1 l.
Proof.
  unfold chunk_results. rewrite in_concat.
  intros (s & Hs & Hkv). apply in_map_iff in Hs as (p & <- & _).
  apply in_map_iff in Hkv as (k & <- & _). simpl. eauto.
Qed.

Lemma map_pair_id {A B : Type} (l : list (A * B)) :
  map (fun kv => (fst kv, snd kv)) l = l.
Proof.
  induction l as [|[a b] l IH]; simpl; [reflexivity | now rewrite IH].
Qed.

(** The three source functions [chunk], [agg] and [finalize] together:
    [tunique] yields the number of distinct values of the group. *)
Lemma tunique_reduces :
  reduces Aggregators.tunique hashable
          (fun l => VInt (Z.of_nat (length (dedup l)))).
Proof.
  intros parts Hok.
  apply (reduces_intro Aggregators.tunique
           (fun l => VInt (Z.of_nat (length (dedup l))))
           (fun l => VList (dedup l)) parts).
  unfold aggregate.
  cbn [Aggregators.tunique agg_chunk agg_agg agg_finalize].
  rewrite mapM_map.
  rewrite (mapM_ok _ (fun p => map (fun k => (k, VList (dedup (group_values p k))))
                                   (group_keys p))).
  2:{ intros p Hp. unfold Aggregators.chunk. apply groupby_apply_ok.
      intros k _. unfold set_of.
      rewrite forallb_group_values by (intros kv; apply Hok, Hp).
      reflexivity. }
  cbn [bind]. fold (chunk_results (fun l => VList (dedup l)) parts).
  set (C := chunk_results (fun l => VList (dedup l)) parts).
  unfold Aggregators.agg. cbn [_selected_obj groupby_level].
  rewrite (series_apply_ok _ (fun v => v)).
  2:{ intros kv Hkv. apply chunk_results_cells in Hkv as (l & ->).
      reflexivity. }
  rewrite map_pair_id. cbn [bind]. unfold groupby_sum.
  set (ls := fun k =>
         map dedup
           (filter (fun l => match l with [] => false | _ => true end)
                   (map (fun p => group_values p k) parts))).
  assert (HC : forall k, group_values C k = map VList (ls k)).
  { intros k. unfold C, ls. rewrite chunk_results_values.
    now rewrite map_map. }
  rewrite (groupby_apply_ok _ (fun k => VList (concat (ls k)))).
  2:{ intros k Hk. rewrite HC. apply sum_values_lists.
      intros E. apply (group_values_nil C k); [|exact Hk].
      now rewrite HC, E. }
  cbn [bind]. unfold Aggregators.finalize.
  rewrite (series_apply_ok _
             (fun v => match v with
                       | VList l => VInt (Z.of_nat (length (dedup l)))
                       | _ => v
                       end)).
  2:{ intros kv Hkv. apply in_map_iff in Hkv as (k & <- & _).
      cbn [snd]. unfold set. cbn [iter bind ret]. unfold set_of.
      replace (forallb hashable (concat (ls k))) with true; [reflexivity|].
      symmetry. apply forallb_forall. intros x Hx.
      apply in_concat in Hx as (l & Hl & Hx). unfold ls in Hl.
      apply in_map_iff in Hl as (l0 & <- & Hl0).
      rewrite dedup_In in Hx. apply filter_In in Hl0 as [Hl0 _].
      apply in_map_iff in Hl0 as (p & E & Hp). subst l0.
      rewrite group_values_In in Hx. exact (Hok p (k, x) Hp Hx). }
  rewrite map_map. cbn [fst snd]. f_equal. apply map_ext. intros k.
  do 3 f_equal. unfold ls.
  now rewrite dedup_length_concat, group_values_concat_parts.
Qed.

(** ** [groupby(...).agg(...)] on a whole frame *)

(** The rows of group [k], where [kf] gives the key of a row. *)
Definition group_rows (kf : Row -> Key) (rows : list Row) (k : Key)
  : list Row :=
  filter (fun r => key_eqb (kf r) k) rows.

(** What one column of an aggregation computes: the cell it reads from a
    row, and the reduction of a group's cells. *)
Record ColumnSem : Type := {
  col_value : Row -> Val;
  col_reduce : list Val -> Val
}.

Definition column_ok (rows : list Row) (ca : string * Aggregation)
  (sem : ColumnSem) : Prop :=
  exists ok : Val -> bool,
    reduces (snd ca) ok (col_reduce sem)
    /\ forall r, In r rows ->
         cell r (fst ca) = inr (col_value sem r)
         /\ ok (col_value sem r) = true.

(** The aggregated row of group [k]. *)
Definition agg_row (kf : Row -> Key) (rows : list Row)
  (spec : list (string * Aggregation)) (sems : list ColumnSem) (k : Key)
  : Row :=
  map (fun cs : (string * Aggregation) * ColumnSem =>
         (fst (fst cs),
          col_reduce (snd cs)
            (map (col_value (snd cs)) (group_rows kf rows k))))
      (combine spec sems).

Section GroupbyAgg.
Variable by_ : list string.
Variable kf : Row -> Key.

(** Every row has a key, and no key has a missing value. *)
Definition keyed (rows : list Row) : Prop :=
  forall r, In r rows ->
    row_key by_ r = inr (kf r) /\ existsb isna (kf r) = false.

Lemma filter_all {A : Type} (f : A -> bool) (l : list A) :
  (forall x, In x l -> f x = true) -> filter f l = l.
Proof.
  induction l as [|x l IH]; simpl; intros H; [reflexivity|].
  rewrite (H x) by now left. f_equal. apply IH. intros; apply H; now right.
Qed.

Lemma groupby_column_ok (c : string) (vf : Row -> Val) (part : Partition) :
  keyed part ->
  (forall r, In r part -> cell r c = inr (vf r)) ->
  groupby_column by_ c part
  = inr (groupby_level (map (fun r => (kf r, vf r)) part)).
Proof.
  intros Hk Hc. unfold groupby_column.
  rewrite (mapM_ok _ (fun r => (kf r, vf r))).
  - cbn [bind ret]. rewrite filter_all; [reflexivity|].
    intros kv Hkv. apply in_map_iff in Hkv as (r & <- & Hr).
    cbn [fst]. now rewrite (proj2 (Hk r Hr)).
  - intros r Hr. rewrite (proj1 (Hk r Hr)), (Hc r Hr). reflexivity.
Qed.

Lemma group_values_rows (vf : Row -> Val) (rows : list Row) (k : Key) :
  group_values (map (fun r => (kf r, vf r)) rows) k
  = map vf (group_rows kf rows k).
Proof.
  unfold group_values, group_rows.
  induction rows as [|r rows IH]; simpl; [reflexivity|].
  destruct (key_eqb (kf r) k); simpl; now rewrite IH.
Qed.

(** One column: the entries of its result. *)
Definition column_result (rows : list Row) (sem : ColumnSem) (s : Series)
  : Prop :=
  NoDup (map fst s)
  /\ (forall k, In k (map fst s) <-> In k (map kf rows))
  /\ (forall k v, In (k, v) s ->
        v = col_reduce sem (map (col_value sem) (group_rows kf rows k))).

Lemma aggregate_column_ok (df : DataFrame) (ca : string * Aggregation)
  (sem : ColumnSem) :
  keyed (concat df) ->
  column_ok (concat df) ca sem ->
  exists s, aggregate_column by_ df (fst ca) (snd ca) = inr s
            /\ column_result (concat df) sem s.
Proof.
  intros Hk (ok & Hred & Hcol). unfold aggregate_column.
  rewrite (mapM_ok _ (fun p => groupby_level
                                 (map (fun r => (kf r, col_value sem r)) p))).
  2:{ intros p Hp. apply groupby_column_ok.
      - intros r Hr. apply Hk, in_concat. eauto.
      - intros r Hr. apply Hcol, in_concat. eauto. }
  cbn [bind]. rewrite <- map_map.
  destruct (Hred (map (map (fun r => (kf r, col_value sem r))) df))
    as (out & Hout & Hnd & Hkeys & Hvals).
  { intros p kv Hp Hkv. apply in_map_iff in Hp as (p0 & <- & Hp0).
    apply in_map_iff in Hkv as (r & <- & Hr). cbn [snd].
    apply Hcol, in_concat. eauto. }
  rewrite <- concat_map in Hkeys, Hvals.
  exists out. split; [exact Hout|]. split; [exact Hnd|]. split.
  - intros k. rewrite Hkeys, map_map. reflexivity.
  - intros k v Hin. rewrite (Hvals k v Hin). now rewrite group_values_rows.
Qed.

Lemma series_get_unique (s : Series) (k : Key) (x : Val) :
  In k (map fst s) -> (forall v, In (k, v) s -> v = x) ->
  series_get s k = x.
Proof.
  intros Hin Hval. unfold series_get.
  destruct (find (fun kv => key_eqb (fst kv) k) s) as [[k' v]|] eqn:F.
  - apply find_some in F as [Hkv E]. cbn [fst] in E.
    apply key_eqb_eq in E. subst k'. now apply Hval.
  - apply in_map_iff in Hin as ([k' v] & E & Hkv). cbn [fst] in E. subst k'.
    apply (find_none _ _ F) in Hkv. cbn [fst] in Hkv.
    now rewrite key_eqb_refl in Hkv.
Qed.

Lemma aggregate_columns_ok (df : DataFrame)
  (spec : list (string * Aggregation)) (sems : list ColumnSem) :
  keyed (concat df) ->
  Forall2 (column_ok (concat df)) spec sems ->
  exists cols : list (string * Series),
    mapM (fun ca : string * Aggregation =>
            s <- aggregate_column by_ df (fst ca) (snd ca) ;;
            ret (fst ca, s)) spec = inr cols
    /\ Forall2 (fun (cs : (string * Aggregation) * ColumnSem)
                    (col : string * Series) =>
                  fst col = fst (fst cs)
                  /\ column_result (concat df) (snd cs) (snd col))
               (combine spec sems) cols.
Proof.
  intros Hk. induction 1 as [|ca sem spec sems Hca _ IH].
  - exists []. split; [reflexivity | constructor].
  - destruct (aggregate_column_ok df ca sem Hk Hca) as (s & Hs & Hres).
    destruct IH as (cols & Hcols & Hall).
    exists ((fst ca, s) :: cols). split.
    + cbn [mapM]. rewrite Hs. cbn [bind]. rewrite Hcols. reflexivity.
    + cbn [combine]. constructor; [split; [reflexivity | exact Hres]|].
      exact Hall.
Qed.

Lemma agg_row_cols (rows : list Row) (k : Key)
  (css : list ((string * Aggregation) * ColumnSem))
  (cols : list (string * Series)) :
  In k (map kf rows) ->
  Forall2 (fun (cs : (string * Aggregation) * ColumnSem)
               (col : string * Series) =>
             fst col = fst (fst cs)
             /\ column_result rows (snd cs) (snd col)) css cols ->
  map (fun col : string * Series => (fst col, series_get (snd col) k)) cols
  = map (fun cs : (string * Aggregation) * ColumnSem =>
           (fst (fst cs),
            col_reduce (snd cs)
              (map (col_value (snd cs)) (group_rows kf rows k)))) css.
Proof.
  intros Hkin.
  induction 1 as [|cs col l l' [Hname (_ & Hkeys & Hvals)] _ IH];
    [reflexivity|].
  cbn [map]. f_equal; [|exact IH].
  rewrite Hname. f_equal. apply series_get_unique.
  - now apply Hkeys.
  - intros v Hv. now apply Hvals.
Qed.

(** [df.groupby(by).agg(spec)]: one row per group key occurring in the
    frame, holding for each column the reduction of the group's cells;
    which rows sit in which partition plays no role. *)
Theorem groupby_agg_spec (df : DataFrame)
  (spec : list (string * Aggregation)) (sems : list ColumnSem) :
  spec <> [] ->
  keyed (concat df) ->
  Forall2 (column_ok (concat df)) spec sems ->
  exists idx : list Key,
    groupby_agg by_ spec df
    = inr {| index_names := by_;
             agg_rows :=
               map (fun k => (k, agg_row kf (concat df) spec sems k)) idx |}
    /\ NoDup idx
    /\ (forall k, In k idx <-> In k (map kf (concat df))).
Proof.
  intros Hne Hk Hcols.
  destruct (aggregate_columns_ok df spec sems Hk Hcols)
    as (cols & Hrun & Hall).
  unfold groupby_agg. rewrite Hrun. cbn [bind ret].
  destruct Hcols as [|ca sem spec sems Hca Hrest]; [congruence|].
  cbn [combine] in Hall.
  destruct cols as [|[c0 s0] cols]; [inversion Hall|].
  assert (H0 : column_result (concat df) sem s0).
  { inversion Hall as [|? ? ? ? [_ H] _]; subst. exact H. }
  destruct H0 as (Hnd & Hkeys & _).
  exists (map fst s0). split; [|split; assumption].
  unfold ret. do 2 f_equal. apply map_ext_in. intros k Hin.
  unfold agg_row. cbn [combine]. apply f_equal.
  apply agg_row_cols; [now apply Hkeys | exact Hall].
Qed.
End GroupbyAgg.

(** ** From a bag of Count Records to the aggregated frame *)

(** The value of field [c] of a Count Record (the missing value if the
    record lacks it, as in the frame built from it). *)
Definition field (c : string) (rec : Val) : Val :=
  match rec with
  | VDict d =>
      match dict_get d (VStr c) with
      | Some v => v
      | None => VNaN
      end
  | _ => VNaN
  end.

(** The Group Key of a Count Record. *)
Definition rec_key (by_ : list string) (rec : Val) : Key :=
  map (fun c => field c rec) by_.

(** The Count Records of group [k]. *)
Definition group_of (by_ : list string) (recs : list Val) (k : Key)
  : list Val :=
  filter (fun rec => key_eqb (rec_key by_ rec) k) recs.

(** A column of an aggregation together with what it computes. *)
Record ColSpec : Type := {
  cs_name : string;
  cs_agg : Aggregation;
  cs_ok : Val -> bool;
  cs_reduce : list Val -> Val;
  cs_reduces : reduces cs_agg cs_ok cs_reduce
}.

Definition sum_col (c : string) : ColSpec :=
  {| cs_name := c; cs_agg := agg_sum; cs_ok := is_int;
     cs_reduce := fun l => VInt (zsum l);
     cs_reduces := agg_sum_reduces |}.

Definition tunique_col (c : string) : ColSpec :=
  {| cs_name := c; cs_agg := Aggregators.tunique; cs_ok := hashable;
     cs_reduce := fun l => VInt (Z.of_nat (length (dedup l)));
     cs_reduces := tunique_reduces |}.

Definition list_col (c : string) : ColSpec :=
  {| cs_name := c; cs_agg := agg_list; cs_ok := fun _ => true;
     cs_reduce := VList;
     cs_reduces := agg_list_reduces |}.

Definition spec_of (cols : list ColSpec) : list (string * Aggregation) :=
  map (fun cs => (cs_name cs, cs_agg cs)) cols.

(** The Statistics Record of group [k], without its key. *)
Definition stat_row (by_ : list string) (cols : list ColSpec)
  (recs : list Val) (k : Key) : Row :=
  map (fun cs =>
         (cs_name cs,
          cs_reduce cs (map (field (cs_name cs)) (group_of by_ recs k))))
      cols.

(** A Count Record the frame holds as it is (each cell has the type of
    its column already) and the aggregation can reduce. *)
Definition good_record (meta : list (string * dtype)) (by_ : list string)
  (cols : list ColSpec) (rec : Val) : Prop :=
  (exists d, rec = VDict d)
  /\ (forall c t, In (c, t) meta -> astype t (field c rec) = inr (field c rec))
  /\ forallb hashable (rec_key by_ rec) = true
  /\ existsb isna (rec_key by_ rec) = false
  /\ (forall cs, In cs cols -> cs_ok cs (field (cs_name cs) rec) = true).

Definition row_of (cols : list string) (rec : Val) : Row :=
  map (fun c => (c, field c rec)) cols.

Definition cell_of (c : string) (r : Row) : Val :=
  match row_get r c with
  | Some v => v
  | None => VNaN
  end.

Definition key_of (by_ : list string) (r : Row) : Key :=
  map (fun c => cell_of c r) by_.

Lemma row_get_row_of (cols : list string) (rec : Val) (c : string) :
  In c cols -> row_get (row_of cols rec) c = Some (field c rec).
Proof.
  induction cols as [|c' cols IH]; simpl; [contradiction|].
  destruct (String.eqb_spec c' c) as [->|N]; [reflexivity|].
  intros [E|H]; [congruence | auto].
Qed.

Lemma to_row_ok (meta : list (string * dtype)) (rec : Val) :
  (exists d, rec = VDict d) ->
  (forall c t, In (c, t) meta -> astype t (field c rec) = inr (field c rec)) ->
  to_row meta rec = inr (row_of (map fst meta) rec).
Proof.
  intros (d & ->) Hcast. unfold to_row, row_of. rewrite map_map.
  apply mapM_ok. intros [c t] Hin. cbn [fst snd].
  change (match dict_get d (VStr c) with Some v => v | None => VNaN end)
    with (field c (VDict d)).
  rewrite (Hcast c t Hin). reflexivity.
Qed.

Section FrameSpec.
Variable meta : list (string * dtype).
Variable by_ : list string.
Variable cols : list ColSpec.
Hypothesis by_in_meta : incl by_ (map fst meta).
Hypothesis cols_in_meta :
  forall cs, In cs cols -> In (cs_name cs) (map fst meta).

Let mrow := row_of (map fst meta).

Lemma cell_of_row (rec : Val) (c : string) :
  In c (map fst meta) -> cell_of c (mrow rec) = field c rec.
Proof.
  intros H. unfold cell_of, mrow. now rewrite row_get_row_of.
Qed.

Lemma key_of_row (rec : Val) : key_of by_ (mrow rec) = rec_key by_ rec.
Proof.
  unfold key_of, rec_key. apply map_ext_in. intros c Hc.
  apply cell_of_row, by_in_meta, Hc.
Qed.

Lemma cell_row (rec : Val) (c : string) :
  In c (map fst meta) -> cell (mrow rec) c = inr (cell_of c (mrow rec)).
Proof.
  intros H. unfold cell, cell_of, mrow. now rewrite row_get_row_of.
Qed.

Lemma row_key_row (rec : Val) :
  forallb hashable (rec_key by_ rec) = true ->
  row_key by_ (mrow rec) = inr (key_of by_ (mrow rec)).
Proof.
  intros H. unfold row_key.
  rewrite (mapM_ok _ (fun c => cell_of c (mrow rec))).
  - cbn [bind]. fold (key_of by_ (mrow rec)).
    now rewrite key_of_row, H.
  - intros c Hc. apply cell_row, by_in_meta, Hc.
Qed.

Lemma group_rows_records (recs : list Val) (k : Key) (c : string) :
  In c (map fst meta) ->
  map (cell_of c) (group_rows (key_of by_) (map mrow recs) k)
  = map (field c) (group_of by_ recs k).
Proof.
  intros Hc. unfold group_rows, group_of.
  induction recs as [|rec recs IH]; simpl; [reflexivity|].
  rewrite key_of_row. destruct (key_eqb (rec_key by_ rec) k); simpl.
  - now rewrite IH, cell_of_row.
  - exact IH.
Qed.

Definition sems_of (l : list ColSpec) : list ColumnSem :=
  map (fun cs => {| col_value := cell_of (cs_name cs);
                    col_reduce := cs_reduce cs |}) l.

Lemma columns_ok_all (recs : list Val) (l : list ColSpec) :
  (forall cs, In cs l -> In cs cols) ->
  (forall rec, In rec recs -> good_record meta by_ cols rec) ->
  Forall2 (column_ok (map mrow recs)) (spec_of l) (sems_of l).
Proof.
  intros Hsub Hgood.
  induction l as [|cs l IH]; cbn [map spec_of sems_of]; constructor.
  - exists (cs_ok cs). cbn [fst snd col_reduce col_value].
    split; [apply cs_reduces|].
    intros r Hr. apply in_map_iff in Hr as (rec & <- & Hrec).
    assert (Hin : In cs cols) by (apply Hsub; now left).
    split; [apply cell_row, cols_in_meta, Hin|].
    rewrite cell_of_row by (apply cols_in_meta, Hin).
    destruct (Hgood rec Hrec) as (_ & _ & _ & _ & Hok). now apply Hok.
  - apply IH. intros cs' H'. apply Hsub. now right.
Qed.

Lemma agg_row_stat_row (recs : list Val) (l : list ColSpec) (k : Key) :
  (forall cs, In cs l -> In cs cols) ->
  agg_row (key_of by_) (map mrow recs) (spec_of l) (sems_of l) k
  = stat_row by_ l recs k.
Proof.
  intros Hsub. unfold agg_row, stat_row, spec_of, sems_of.
  induction l as [|cs l IH]; cbn [map combine]; [reflexivity|].
  f_equal.
  - cbn [fst snd col_reduce col_value]. do 2 f_equal.
    apply group_rows_records, cols_in_meta, Hsub. now left.
  - apply IH. intros cs' H'. apply Hsub. now right.
Qed.

(** [to_dataframe] then [groupby(by).agg(spec)] on a bag of good Count
    Records: one row per Group Key, each column reduced over the Count
    Records of the group. *)
Theorem frame_spec (recs : Bag Val) :
  cols <> [] ->
  Forall (good_record meta by_ cols) (concat recs) ->
  exists idx : list Key,
    (df <- to_dataframe meta recs ;; groupby_agg by_ (spec_of cols) df)
    = inr {| index_names := by_;
             agg_rows :=
               map (fun k => (k, stat_row by_ cols (concat recs) k)) idx |}
    /\ NoDup idx
    /\ (forall k, In k idx <-> In k (map (rec_key by_) (concat recs))).
Proof.
  intros Hne Hgood. rewrite Forall_forall in Hgood.
  unfold to_dataframe, bag_map.
  rewrite (mapM_ok _ (map mrow)).
  2:{ intros p Hp. apply mapM_ok. intros rec Hrec.
      destruct (Hgood rec) as (Hd & Hint & _).
      { apply in_concat. eauto. }
      now apply to_row_ok. }
  cbn [bind].
  destruct (groupby_agg_spec by_ (key_of by_) (map (map mrow) recs)
              (spec_of cols) (sems_of cols)) as (idx & Hrun & Hnd & Hkeys).
  - unfold spec_of. destruct cols; [congruence | discriminate].
  - rewrite <- concat_map. intros r Hr.
    apply in_map_iff in Hr as (rec & <- & Hrec).
    destruct (Hgood rec Hrec) as (_ & _ & Hh & Hna & _). split.
    + now apply row_key_row.
    + now rewrite key_of_row.
  - rewrite <- concat_map. now apply columns_ok_all.
  - exists idx. rewrite Hrun. split; [|split; [exact Hnd|]].
    + do 2 f_equal. apply map_ext. intros k. f_equal.
      rewrite <- concat_map. now apply agg_row_stat_row.
    + intros k. rewrite Hkeys, <- concat_map, map_map.
      rewrite (map_ext _ (rec_key by_)) by apply key_of_row. reflexivity.
Qed.
End FrameSpec.

(** ** Strings and sequences *)

Lemma str_split_nonempty (sep : ascii) (s : string) : str_split sep s <> [].
Proof.
  destruct s as [|c s]; simpl; [discriminate|].
  destruct (Ascii.eqb c sep); [discriminate|].
  destruct (str_split sep s); discriminate.
Qed.

(** Joining what [split] returned gives the string back. *)
Lemma str_join_split (sep : ascii) (s : string) :
  str_join (String sep "") (str_split sep s) = s.
Proof.
  induction s as [|c s IH]; [reflexivity|].
  cbn [str_split]. destruct (Ascii.eqb_spec c sep) as [->|N].
  - pose proof (str_split_nonempty sep s) as Hne.
    destruct (str_split sep s) as [|w ws] eqn:E; [congruence|].
    cbn [str_join]. cbn [str_join] in IH. now rewrite IH.
  - destruct (str_split sep s) as [|w ws] eqn:E.
    + now destruct (str_split_nonempty sep s).
    + cbn [str_join] in *. destruct ws; simpl in *; now rewrite IH.
Qed.

(** A string without the separator is a single component. *)
Lemma str_split_no_sep (sep : ascii) (t : string) :
  has_char sep t = false -> str_split sep t = [t].
Proof.
  induction t as [|c t IH]; simpl; [reflexivity|].
  rewrite orb_false_iff. intros [Hc Ht]. rewrite Hc, (IH Ht). reflexivity.
Qed.

(** The components of [s-t], for a last component [t] free of dashes. *)
Lemma str_split_app (sep : ascii) (s t : string) :
  has_char sep t = false ->
  str_split sep (s ++ String sep t) = str_split sep s ++ [t].
Proof.
  intros Ht. induction s as [|c s IH]; cbn [String.append str_split].
  - rewrite Ascii.eqb_refl. now rewrite str_split_no_sep.
  - rewrite IH. destruct (Ascii.eqb c sep); [reflexivity|].
    pose proof (str_split_nonempty sep s).
    destruct (str_split sep s); [congruence | reflexivity].
Qed.

Lemma list_index_nat {A : Type} (l : list A) (i : nat) (x : A) :
  nth_error l i = Some x -> list_index l (Z.of_nat i) = inr x.
Proof.
  intros H. unfold list_index.
  assert (i < length l) by (apply nth_error_Some; congruence).
  destruct (Z.ltb_spec (Z.of_nat i) 0); [lia|].
  destruct (Z.ltb_spec (Z.of_nat i) 0); [lia|].
  destruct (Z.leb_spec (Z.of_nat (length l)) (Z.of_nat i)); [lia|].
  cbn [orb]. now rewrite Nat2Z.id, H.
Qed.

Lemma list_index_short {A : Type} (l : list A) (i : nat) :
  length l <= i -> list_index l (Z.of_nat i) = @inl _ A IndexError.
Proof.
  intros H. unfold list_index.
  destruct (Z.ltb_spec (Z.of_nat i) 0); [lia|].
  destruct (Z.ltb_spec (Z.of_nat i) 0); [lia|].
  destruct (Z.leb_spec (Z.of_nat (length l)) (Z.of_nat i)); [|lia].
  reflexivity.
Qed.

(** [l[:-1]] drops the last element. *)
Lemma slice_to_last {A : Type} (l : list A) (x : A) :
  slice_to (l ++ [x]) (-1) = l.
Proof.
  unfold slice_to, slice, clip_index. rewrite length_app. cbn [length].
  destruct (Z.ltb_spec 0 0); [lia|].
  destruct (Z.ltb_spec (-1) 0); [|lia].
  rewrite Z.min_l by lia. cbn [Z.to_nat skipn].
  rewrite Z.max_r by lia.
  replace (Z.to_nat (Z.of_nat (length l + 1) + -1) - 0) with (length l) by lia.
  rewrite firstn_app, firstn_all, Nat.sub_diag. cbn [firstn].
  apply app_nil_r.
Qed.

(** ** The Record Extractors on well-formed Raw Records *)

(** The parts of a composite identifier [<source>-<year>-...]. *)
Definition np_id_of (id : string) : string := nth 0 (str_split "-" id) "".
Definition year_of (id : string) : string := nth 1 (str_split "-" id) "".
Definition issue_id_of (id : string) : string :=
  str_join "-" (slice_to (str_split "-" id) (-1)).

(** The type [item["m"]["tp"]] of a content item. *)
Definition item_type (item : Val) : Err Val :=
  m <- getitem item "m" ;; getitem m "tp".

Definition is_image (tp : Val) : bool := val_eqb tp (VStr "image").

(** A well-formed canonical issue: an id with at least two components,
    a list of page ids, a list of content items that have a type. *)
Record canonical_issue (issue : Val) (id : string)
  (pp items tps : list Val) : Prop := {
  ci_id : getitem issue "id" = inr (VStr id);
  ci_id_parts : 2 <= length (str_split "-" id);
  ci_pp : getitem issue "pp" = inr (VList pp);
  ci_pp_hashable : forallb hashable pp = true;
  ci_items : getitem issue "i" = inr (VList items);
  ci_types : mapM item_type items = inr tps
}.

(** The Count Record of a canonical issue. *)
Definition canonical_counts (include_np_yr : bool) (id : string)
  (pp items tps : list Val) : Val :=
  VDict ((if include_np_yr
          then [(VStr "np_id", VStr (np_id_of id));
                (VStr "year", VStr (year_of id))]
          else [])
         ++ [(VStr "issues", VInt 1);
             (VStr "pages", VInt (Z.of_nat (length (dedup pp))));
             (VStr "content_items_out", VInt (Z.of_nat (length items)));
             (VStr "images",
              VInt (Z.of_nat (length (filter is_image tps))))]).

Lemma id_parts (id : string) :
  2 <= length (str_split "-" id) ->
  list_index (str_split "-" id) 0 = inr (np_id_of id)
  /\ list_index (str_split "-" id) 1 = inr (year_of id).
Proof.
  intros H. unfold np_id_of, year_of.
  destruct (str_split "-" id) as [|a [|b l]]; simpl in H; try lia.
  split; [apply (list_index_nat _ 0) | apply (list_index_nat _ 1)];
    reflexivity.
Qed.

Lemma image_items (items tps : list Val) :
  mapM item_type items = inr tps ->
  exists images,
    list_comp (fun item =>
                 m <- getitem item "m" ;;
                 tp <- getitem m "tp" ;;
                 ret (val_eqb tp (VStr "image")))
              (fun item => ret item) items = inr images
    /\ length images = length (filter is_image tps).
Proof.
  revert tps. induction items as [|item items IH]; cbn [mapM]; intros tps H.
  - injection H as <-. exists []. split; reflexivity.
  - apply bind_ret_inv in H as (tp & Htp & H).
    apply bind_ret_inv in H as (tps' & Htps & H). injection H as <-.
    destruct (IH tps' Htps) as (images & Himg & Hlen).
    unfold item_type in Htp.
    apply bind_ret_inv in Htp as (m & Hm & Htp).
    cbn [list_comp]. rewrite Hm. cbn [bind]. rewrite Htp. cbn [bind ret].
    cbn [filter]. fold (is_image tp). destruct (is_image tp).
    + rewrite Himg. cbn [bind]. exists (item :: images).
      split; [reflexivity|]. cbn [length]. now rewrite Hlen.
    + exists images. split; assumption.
Qed.

Lemma counts_for_canonical_issue_wf (issue : Val) (id : string)
  (pp items tps : list Val) (include_np_yr : bool) :
  canonical_issue issue id pp items tps ->
  Aggregators.counts_for_canonical_issue issue include_np_yr
  = inr (canonical_counts include_np_yr id pp items tps).
Proof.
  intros [Hid Hparts Hpp Hhash Hitems Htypes].
  destruct (id_parts id Hparts) as [Hnp Hyear].
  destruct (image_items items tps Htypes) as (images & Himg & Hlen).
  unfold Aggregators.counts_for_canonical_issue, canonical_counts.
  rewrite Hpp, Hitems. unfold set, set_of. cbn [bind iter len ret].
  rewrite Hhash, Himg, <- Hlen.
  destruct include_np_yr.
  - rewrite Hid. cbn [bind split ret]. rewrite Hnp, Hyear. reflexivity.
  - reflexivity.
Qed.

(** ** The pipelines *)

Ltac inv_bind :=
  repeat match goal with
         | H : bind _ _ = inr _ |- _ =>
             apply bind_ret_inv in H; destruct H as (? & ? & H)
         end.

(** The Statistics Records of the groups [idx]: the key columns, then the
    reduced columns. *)
Definition stats_records (by_ : list string) (cols : list ColSpec)
  (recs : list Val) (idx : list Key) : list Val :=
  map (fun k => row_to_dict (combine by_ k ++ stat_row by_ cols recs k)) idx.

(** The same without the key columns (an index that was not reset). *)
Definition stats_records_no_key (by_ : list string) (cols : list ColSpec)
  (recs : list Val) (idx : list Key) : list Val :=
  map (fun k => row_to_dict (stat_row by_ cols recs k)) idx.

Lemma run_frame (meta : list (string * dtype)) (by_ : list string)
  (cols : list ColSpec) (recs : Bag Val) :
  incl by_ (map fst meta) ->
  (forall cs, In cs cols -> In (cs_name cs) (map fst meta)) ->
  cols <> [] ->
  Forall (good_record meta by_ cols) (concat recs) ->
  exists (idx : list Key) (df : DataFrame),
    to_dataframe meta recs = inr df
    /\ groupby_agg by_ (spec_of cols) df
       = inr {| index_names := by_;
                agg_rows :=
                  map (fun k => (k, stat_row by_ cols (concat recs) k)) idx |}
    /\ NoDup idx
    /\ (forall k, In k idx <-> In k (map (rec_key by_) (concat recs))).
Proof.
  intros Hby Hcols Hne Hgood.
  destruct (frame_spec meta by_ cols Hby Hcols recs Hne Hgood)
    as (idx & Hrun & Hnd & Hkeys).
  apply bind_ret_inv in Hrun as (df & Hdf & Hagg).
  exists idx, df. auto.
Qed.

Lemma compute_reset_index (by_ : list string) (R : Key -> Row)
  (idx : list Key) :
  compute (to_bag (reset_index
                     {| index_names := by_;
                        agg_rows := map (fun k => (k, R k)) idx |}))
  = map (fun k => row_to_dict (combine by_ k ++ R k)) idx.
Proof.
  unfold compute, to_bag, reset_index. cbn [concat index_names agg_rows].
  now rewrite app_nil_r, !map_map.
Qed.

Lemma compute_drop_index (by_ : list string) (R : Key -> Row)
  (idx : list Key) :
  compute (to_bag (drop_index
                     {| index_names := by_;
                        agg_rows := map (fun k => (k, R k)) idx |}))
  = map (fun k => row_to_dict (R k)) idx.
Proof.
  unfold compute, to_bag, drop_index. cbn [concat index_names agg_rows].
  now rewrite app_nil_r, !map_map.
Qed.

Lemma bag_map_concat {A B : Type} (f : A -> Err B) (b : Bag A)
  (recs : Bag B) :
  bag_map f b = inr recs ->
  Forall2 (fun x y => f x = inr y) (concat b) (concat recs).
Proof.
  unfold bag_map. intros H. apply mapM_inv in H.
  induction H as [|p q b' recs' Hpq _ IH]; cbn [concat]; [constructor|].
  apply Forall2_app; [now apply mapM_inv | exact IH].
Qed.

Lemma bag_map_ok {A B : Type} (f : A -> Err B) (g : A -> B) (b : Bag A) :
  (forall x, In x (concat b) -> f x = inr (g x)) ->
  bag_map f b = inr (map (map g) b).
Proof.
  intros H. unfold bag_map. apply mapM_ok. intros p Hp.
  apply mapM_ok. intros x Hx. apply H, in_concat. eauto.
Qed.

Lemma Forall2_Forall_r {A B : Type} (R : A -> B -> Prop) (P : B -> Prop)
  (l : list A) (m : list B) :
  Forall2 R l m -> (forall x y, R x y -> P y) -> Forall P m.
Proof. induction 1; intros HP; constructor; eauto. Qed.

(** *** Canonical issues *)

Definition canonical_meta : list (string * dtype) :=
  [("np_id", dt_str); ("year", dt_str); ("issues", dt_int);
   ("pages", dt_int); ("images", dt_int); ("content_items_out", dt_int)].

Definition canonical_cols : list ColSpec :=
  [sum_col "issues"; sum_col "pages"; sum_col "content_items_out";
   sum_col "images"].

Definition np_year : list string := ["np_id"; "year"].

(** Whatever the issue, a Count Record the canonical extractor returns
    for the pipeline has these six fields. *)
Lemma counts_for_canonical_issue_shape (issue c : Val) :
  Aggregators.counts_for_canonical_issue issue true = inr c ->
  exists (np y : string) (p n im : Z),
    c = VDict [(VStr "np_id", VStr np); (VStr "year", VStr y);
               (VStr "issues", VInt 1); (VStr "pages", VInt p);
               (VStr "content_items_out", VInt n); (VStr "images", VInt im)].
Proof.
  unfold Aggregators.counts_for_canonical_issue. intros H. inv_bind.
  injection H as <-.
  match goal with H : ret _ = inr _ |- _ => injection H as <- end.
  do 5 eexists. reflexivity.
Qed.

Ltac solve_good_record :=
  repeat split;
  [ eexists; reflexivity
  | intros c ty Hc; cbn in Hc;
    repeat (destruct Hc as [Hc|Hc]; [inversion Hc; subst; reflexivity|]);
    try discriminate; contradiction
  | intros cs Hcs; cbn in Hcs;
    repeat (destruct Hcs as [Hcs|Hcs]; [subst cs; reflexivity|]);
    contradiction ].

Lemma canonical_counts_good (issue c : Val) :
  Aggregators.counts_for_canonical_issue issue true = inr c ->
  good_record canonical_meta np_year canonical_cols c.
Proof.
  intros H. apply counts_for_canonical_issue_shape in H
    as (np & y & p & n & im & ->).
  solve_good_record.
Qed.

Definition canonical_trace (client : option Client) : list Event :=
  [Print "Fetched all issues, gathering desired information.";
   LogInfo "Fetched all issues, gathering desired information."]
  ++ match client with Some _ => [Progress] | None => [] end
  ++ [Print "Finished grouping and aggregating stats by title and year.";
      LogInfo "Finished grouping and aggregating stats by title and year."].

(** The canonical pipeline, when every issue of the bag has a Count
    Record: one Statistics Record per (np_id, year) of the Count Records,
    each summed field being the sum over the Count Records of the group. *)
Theorem canonical_pipeline (bag recs : Bag Val) (client : option Client) :
  bag_map (fun i => Aggregators.counts_for_canonical_issue i true) bag
  = inr recs ->
  exists idx : list Key,
    NoDup idx
    /\ (forall k, In k idx <-> In k (map (rec_key np_year) (concat recs)))
    /\ Aggregators.compute_stats_in_canonical_bag bag client
       = (canonical_trace client,
          inr (stats_records np_year canonical_cols (concat recs) idx)).
Proof.
  intros Hbag.
  destruct (run_frame canonical_meta np_year canonical_cols recs)
    as (idx & df & Hdf & Hagg & Hnd & Hkeys).
  - intros c Hc. cbn in *. tauto.
  - intros cs Hcs. cbn in Hcs.
    repeat (destruct Hcs as [<-|Hcs]; [cbn; tauto|]). contradiction.
  - discriminate.
  - eapply Forall2_Forall_r; [exact (bag_map_concat _ _ _ Hbag)|].
    intros issue c. apply canonical_counts_good.
  - exists idx. split; [exact Hnd|]. split; [exact Hkeys|].
    unfold Aggregators.compute_stats_in_canonical_bag.
    rewrite Hbag. cbn [bind].
    fold canonical_meta. rewrite Hdf.
    cbn [eff_bind lift print logger_info emit].
    change [("issues", agg_sum); ("pages", agg_sum);
            ("content_items_out", agg_sum); ("images", agg_sum)]
      with (spec_of canonical_cols).
    fold np_year. rewrite Hagg. cbn [bind ret].
    rewrite compute_reset_index.
    destruct client; reflexivity.
Qed.

(** *** Rebuilt and passim articles *)

Definition rebuilt_meta (include_np passim : bool)
  : list (string * dtype) :=
  (if include_np then [("np_id", dt_str)] else [])
  ++ [("year", dt_str); ("issues", dt_str); ("content_items_out", dt_int)]
  ++ (if negb passim then [("ft_tokens", dt_int)] else []).

Definition rebuilt_by (include_np : bool) : list string :=
  if include_np then ["np_id"; "year"] else ["year"].

Definition rebuilt_cols (passim : bool) : list ColSpec :=
  if negb passim
  then [tunique_col "issues"; sum_col "content_items_out";
        sum_col "ft_tokens"]
  else [tunique_col "issues"; sum_col "content_items_out"].

(** A well-formed rebuilt or passim article: an id with at least two
    components and, possibly, a full text. *)
Record rebuilt_article (ci : Val) (id : string) (ft : option string)
  : Prop := {
  ra_id : getitem ci "id" = inr (VStr id);
  ra_id_parts : 2 <= length (str_split "-" id);
  ra_ft : match ft with
          | Some text => getitem ci "ft" = inr (VStr text)
          | None => contains ci "ft" = inr false
          end
}.

(** The number of whitespace-separated tokens of the full text. *)
Definition ft_tokens_of (ft : option string) : Z :=
  match ft with
  | Some text => Z.of_nat (length (str_split_ws text))
  | None => 0
  end.

(** The Count Record of a rebuilt article. *)
Definition rebuilt_counts (include_np passim : bool) (id : string)
  (ft : option string) : Val :=
  VDict ((if include_np then [(VStr "np_id", VStr (np_id_of id))] else [])
         ++ [(VStr "year", VStr (year_of id));
             (VStr "issues", VStr (issue_id_of id));
             (VStr "content_items_out", VInt 1)]
         ++ (if passim then []
             else [(VStr "ft_tokens", VInt (ft_tokens_of ft))])).

Lemma getitem_contains (o : Val) (k : string) (v : Val) :
  getitem o k = inr v -> contains o k = inr true.
Proof.
  destruct o; try discriminate. cbn [getitem contains].
  destruct (dict_get d (VStr k)); [reflexivity | discriminate].
Qed.

Lemma counts_for_rebuilt_wf (ci : Val) (id : string) (ft : option string)
  (include_np passim : bool) :
  rebuilt_article ci id ft ->
  Aggregators.counts_for_rebuilt ci include_np passim
  = inr (rebuilt_counts include_np passim id ft).
Proof.
  intros [Hid Hparts Hft].
  destruct (id_parts id Hparts) as [Hnp Hyear].
  unfold Aggregators.counts_for_rebuilt, rebuilt_counts.
  rewrite Hid. cbn [bind split ret]. rewrite Hyear.
  fold (issue_id_of id).
  destruct include_np, passim, ft as [text|]; cbn [negb bind ret];
    rewrite ?Hnp, ?(getitem_contains _ _ _ Hft), ?Hft;
    cbn [bind ret]; rewrite ?Hft; reflexivity.
Qed.

Lemma counts_for_rebuilt_shape (ci c : Val) (include_np passim : bool) :
  Aggregators.counts_for_rebuilt ci include_np passim = inr c ->
  exists (np y i : string) (t : Z),
    c = VDict ((if include_np then [(VStr "np_id", VStr np)] else [])
               ++ [(VStr "year", VStr y); (VStr "issues", VStr i);
                   (VStr "content_items_out", VInt 1)]
               ++ (if passim then [] else [(VStr "ft_tokens", VInt t)])).
Proof.
  unfold Aggregators.counts_for_rebuilt. intros H.
  destruct include_np, passim; cbn [negb] in H; inv_bind;
    injection H as <-;
    repeat match goal with
           | H : ret _ = inr _ |- _ => injection H as <-
           | H : (if ?b then _ else _) = inr _ |- _ => destruct b; inv_bind
           end;
    match goal with
    | |- exists _ _ _ _, ?c = _ =>
        exists (match field "np_id" c with VStr s => s | _ => "" end),
               (match field "year" c with VStr s => s | _ => "" end),
               (match field "issues" c with VStr s => s | _ => "" end),
               (match field "ft_tokens" c with VInt z => z | _ => 0%Z end)
    end; reflexivity.
Qed.

Lemma rebuilt_counts_good (ci c : Val) (include_np passim : bool) :
  Aggregators.counts_for_rebuilt ci include_np passim = inr c ->
  good_record (rebuilt_meta include_np passim) (rebuilt_by include_np)
              (rebuilt_cols passim) c.
Proof.
  intros H. apply counts_for_rebuilt_shape in H as (np & y & i & t & ->).
  destruct include_np, passim; solve_good_record.
Qed.

Definition rebuilt_trace (key : string) (client : option Client)
  : list Event :=
  [Print "Fetched all files, gathering desired information.";
   LogInfo "Fetched all files, gathering desired information.";
   LogInfo (if negb (String.eqb key "")
            then "Obtaining the yearly rebuilt statistics" ++ " for " ++ key
            else "Obtaining the yearly rebuilt statistics")%string]
  ++ match client with Some _ => [Progress] | None => [] end.

(** The rebuilt pipeline, when every article of the bag has a Count
    Record: one Statistics Record per Group Key; [issues] is the number of
    distinct issue ids of the group, the other fields are sums. *)
Theorem rebuilt_pipeline (bag recs : Bag Val) (key : string)
  (include_np passim : bool) (client : option Client) :
  bag_map (fun rf => Aggregators.counts_for_rebuilt rf include_np passim) bag
  = inr recs ->
  exists idx : list Key,
    NoDup idx
    /\ (forall k, In k idx
                  <-> In k (map (rec_key (rebuilt_by include_np))
                                (concat recs)))
    /\ Aggregators.compute_stats_in_rebuilt_bag bag key include_np passim
         client
       = (rebuilt_trace key client,
          inr ((if include_np then stats_records else stats_records_no_key)
                 (rebuilt_by include_np) (rebuilt_cols passim)
                 (concat recs) idx)).
Proof.
  intros Hbag.
  destruct (run_frame (rebuilt_meta include_np passim) (rebuilt_by include_np)
              (rebuilt_cols passim) recs)
    as (idx & df & Hdf & Hagg & Hnd & Hkeys).
  - destruct include_np, passim; intros c Hc; cbn in *; tauto.
  - destruct include_np, passim; intros cs Hcs; cbn in Hcs;
      repeat (destruct Hcs as [<-|Hcs]; [cbn; tauto|]); contradiction.
  - destruct passim; discriminate.
  - eapply Forall2_Forall_r; [exact (bag_map_concat _ _ _ Hbag)|].
    intros ci c. apply rebuilt_counts_good.
  - exists idx. split; [exact Hnd|]. split; [exact Hkeys|].
    unfold Aggregators.compute_stats_in_rebuilt_bag.
    rewrite Hbag. cbn [bind].
    fold (rebuilt_meta include_np passim). rewrite Hdf.
    cbn [eff_bind lift print logger_info emit].
    fold (rebuilt_by include_np).
    replace (if negb passim
             then groupby_agg (rebuilt_by include_np)
                    [("issues", Aggregators.tunique);
                     ("content_items_out", agg_sum);
                     ("ft_tokens", agg_sum)] df
             else groupby_agg (rebuilt_by include_np)
                    [("issues", Aggregators.tunique);
                     ("content_items_out", agg_sum)] df)
      with (groupby_agg (rebuilt_by include_np)
              (spec_of (rebuilt_cols passim)) df)
      by (destruct passim; reflexivity).
    rewrite Hagg. unfold rebuilt_trace.
    destruct include_np;
      [rewrite compute_reset_index | rewrite compute_drop_index];
      destruct client, (negb (String.eqb key "")); reflexivity.
Qed.

(** *** Search-index items *)

Definition solr_meta : list (string * dtype) :=
  [("np_id", dt_str); ("year", dt_str); ("issues", dt_str);
   ("content_items_out", dt_int)].

Definition solr_cols : list ColSpec :=
  [tunique_col "issues"; sum_col "content_items_out"].

(** A well-formed search-index item: a journal and a year that are
    scalars and not null, and a scalar issue id. *)
Record solr_item (ci : Val) (journal year issue : Val) : Prop := {
  si_journal : getitem ci "meta_journal_s" = inr journal;
  si_year : getitem ci "meta_year_i" = inr year;
  si_issue : getitem ci "meta_issue_id_s" = inr issue;
  si_journal_ok : hashable journal = true /\ isna journal = false;
  si_year_ok : hashable year = true /\ isna year = false;
  si_issue_ok : hashable issue = true
}.

Definition solr_counts_of (journal year issue : Val) : Val :=
  VDict [(VStr "np_id", journal); (VStr "year", year);
         (VStr "issues", issue); (VStr "content_items_out", VInt 1)].

Lemma solr_counts_wf (ci journal year issue : Val) :
  solr_item ci journal year issue ->
  Aggregators.solr_counts ci = inr (solr_counts_of journal year issue).
Proof.
  intros [Hj Hy Hi _ _ _]. unfold Aggregators.solr_counts.
  rewrite Hj, Hy, Hi. reflexivity.
Qed.

Lemma to_text_idem (v : Val) : to_text (to_text v) = to_text v.
Proof. destruct v; reflexivity. Qed.

Lemma to_text_hashable (v : Val) : hashable (to_text v) = true.
Proof. destruct v; reflexivity. Qed.

Lemma to_text_isna (v : Val) : isna (to_text v) = isna v.
Proof. destruct v; reflexivity. Qed.

(** A Count Record of the search index as the frame holds it: [np_id],
    [year] and [issues] are [str] columns, so their cells are text. *)
Definition solr_frame_record (c : Val) : Val :=
  solr_counts_of (to_text (field "np_id" c)) (to_text (field "year" c))
                 (to_text (field "issues" c)).

Definition is_solr_record (c : Val) : Prop :=
  exists journal year issue : Val, c = solr_counts_of journal year issue.

Lemma solr_counts_shape (ci c : Val) :
  Aggregators.solr_counts ci = inr c -> is_solr_record c.
Proof.
  unfold Aggregators.solr_counts. intros H. inv_bind. injection H as <-.
  do 3 eexists. reflexivity.
Qed.

Lemma solr_to_row (c : Val) :
  is_solr_record c ->
  to_row solr_meta c = to_row solr_meta (solr_frame_record c).
Proof.
  intros (j & y & i & ->). cbn. now rewrite !to_text_idem.
Qed.

Lemma mapM_ext_in {A B : Type} (f g : A -> Err B) (l : list A) :
  (forall x, In x l -> f x = g x) -> mapM f l = mapM g l.
Proof.
  induction l as [|x l IH]; intros H; simpl; [reflexivity|].
  rewrite (H x) by now left.
  rewrite IH by (intros; apply H; now right). reflexivity.
Qed.

(** The frame of the Count Records is the frame of their text form. *)
Lemma solr_frame (recs : Bag Val) :
  Forall is_solr_record (concat recs) ->
  to_dataframe solr_meta recs
  = to_dataframe solr_meta (map (map solr_frame_record) recs).
Proof.
  intros Hall. rewrite Forall_forall in Hall.
  unfold to_dataframe, bag_map. rewrite mapM_map.
  apply mapM_ext_in. intros p Hp. rewrite mapM_map.
  apply mapM_ext_in. intros c Hc.
  apply solr_to_row, Hall, in_concat. eauto.
Qed.

Lemma solr_counts_good (journal year issue : Val) :
  isna journal = false -> isna year = false ->
  good_record solr_meta np_year solr_cols
    (solr_frame_record (solr_counts_of journal year issue)).
Proof.
  intros Hj Hy. unfold solr_frame_record, solr_counts_of.
  cbn [field dict_get val_eqb String.eqb Ascii.eqb Bool.eqb].
  repeat split.
  - eexists; reflexivity.
  - intros c ty Hc; cbn in Hc;
      repeat (destruct Hc as [Hc|Hc];
              [inversion Hc; subst; cbn; now rewrite ?to_text_idem|]);
      contradiction.
  - cbn. now rewrite !to_text_hashable.
  - cbn. now rewrite !to_text_isna, Hj, Hy.
  - intros cs Hcs; cbn in Hcs.
    destruct Hcs as [<-|[<-|[]]]; [apply to_text_hashable | reflexivity].
Qed.

Definition solr_trace (client : option Client) : list Event :=
  [Print "Finished grouping and aggregating stats by title and year.";
   LogInfo "Finished grouping and aggregating stats by title and year."]
  ++ match client with Some _ => [Progress] | None => [] end.

(** The search-index pipeline on well-formed items: one Statistics
    Record per (np_id, year) of the Count Records as the frame holds
    them. *)
Theorem solr_pipeline (bag recs : Bag Val) (client : option Client) :
  bag_map Aggregators.solr_counts bag = inr recs ->
  Forall (fun ci => exists j y i, solr_item ci j y i) (concat bag) ->
  exists idx : list Key,
    NoDup idx
    /\ (forall k, In k idx
                  <-> In k (map (rec_key np_year)
                                (map solr_frame_record (concat recs))))
    /\ Aggregators.compute_stats_in_solr_text_bag bag client
       = (solr_trace client,
          inr (stats_records np_year solr_cols
                 (map solr_frame_record (concat recs)) idx)).
Proof.
  intros Hbag Hwf.
  assert (Hall : Forall is_solr_record (concat recs)).
  { eapply Forall2_Forall_r; [exact (bag_map_concat _ _ _ Hbag)|].
    intros ci c. apply solr_counts_shape. }
  destruct (run_frame solr_meta np_year solr_cols
              (map (map solr_frame_record) recs))
    as (idx & df & Hdf & Hagg & Hnd & Hkeys).
  - intros c Hc. cbn in *. tauto.
  - intros cs Hcs. cbn in Hcs.
    repeat (destruct Hcs as [<-|Hcs]; [cbn; tauto|]). contradiction.
  - discriminate.
  - rewrite <- concat_map. apply Forall_forall. intros c' Hc'.
    apply in_map_iff in Hc' as (c & <- & Hc).
    pose proof (bag_map_concat _ _ _ Hbag) as H2.
    clear Hall. revert c Hc.
    induction H2 as [|ci c0 l l' Hc0 _ IH]; intros c Hc; [contradiction|].
    inversion Hwf as [|? ? (j & y & i & Hitem) Hwf']; subst.
    destruct Hc as [<-|Hc]; [|now apply IH].
    rewrite (solr_counts_wf _ _ _ _ Hitem) in Hc0. injection Hc0 as <-.
    destruct Hitem as [_ _ _ [_ Hj] [_ Hy] _]. now apply solr_counts_good.
  - rewrite <- concat_map in Hagg, Hkeys.
    exists idx. split; [exact Hnd|]. split; [exact Hkeys|].
    unfold Aggregators.compute_stats_in_solr_text_bag.
    rewrite Hbag. cbn [bind].
    fold solr_meta. rewrite (solr_frame recs Hall), Hdf.
    cbn [eff_bind lift print logger_info emit].
    change [("issues", Aggregators.tunique); ("content_items_out", agg_sum)]
      with (spec_of solr_cols).
    fold np_year. rewrite Hagg. cbn [bind ret].
    rewrite compute_reset_index.
    destruct client; reflexivity.
Qed.

(** ** [literal_eval] reads back the [repr] of a list of strings *)

Lemma parse_escape_char (q c : ascii) (rest : string) :
  q = squote \/ q = dquote ->
  parse_str_body q (escape_char q c ++ rest)
  = cons_char c (parse_str_body q rest).
Proof.
  intros Hq.
  destruct c as [[] [] [] [] [] [] [] []];
    destruct Hq as [-> | ->]; reflexivity.
Qed.

Lemma append_assoc (a b c : string) :
  ((a ++ b) ++ c = a ++ (b ++ c))%string.
Proof. induction a as [|x a IH]; simpl; [reflexivity | now rewrite IH]. Qed.

Lemma str_length_append (a b : string) :
  String.length (a ++ b) = String.length a + String.length b.
Proof. induction a as [|x a IH]; simpl; [reflexivity | now rewrite IH]. Qed.

Lemma parse_escape (q : ascii) (s rest : string) :
  q = squote \/ q = dquote ->
  parse_str_body q (escape q s ++ String q rest) = Some (s, rest).
Proof.
  intros Hq. induction s as [|c s IH]; cbn [escape String.append].
  - cbn [parse_str_body]. now rewrite Ascii.eqb_refl.
  - rewrite append_assoc, parse_escape_char by assumption.
    now rewrite IH.
Qed.

(** A string literal as [repr] writes it: a quote, the escaped
    characters, the same quote. *)
Lemma repr_str_quoted (s : string) :
  exists q, (q = squote \/ q = dquote)
            /\ forall rest,
                 (repr_str s ++ rest)%string
                 = String q (escape q s ++ String q rest).
Proof.
  unfold repr_str.
  destruct (has_char squote s && negb (has_char dquote s));
    [exists dquote | exists squote]; (split; [auto|]); intros rest;
    cbn [String.append]; now rewrite append_assoc.
Qed.

Lemma parse_value_quote (fuel : nat) (q : ascii) (body : string) :
  q = squote \/ q = dquote ->
  parse_value (S fuel) (String q body)
  = match parse_str_body q body with
    | Some (t, rest) => ret (VStr t, rest)
    | None => raise ValueError
    end.
Proof. intros [-> | ->]; reflexivity. Qed.

Lemma parse_value_repr_str (fuel : nat) (s rest : string) :
  parse_value (S fuel) (repr_str s ++ rest) = inr (VStr s, rest).
Proof.
  destruct (repr_str_quoted s) as (q & Hq & ->).
  rewrite parse_value_quote by assumption.
  now rewrite parse_escape.
Qed.

Lemma parse_value_blank (fuel : nat) (s : string) :
  parse_value fuel (String " " s) = parse_value fuel s.
Proof. destruct fuel; reflexivity. Qed.

Lemma parse_items_blank (fuel : nat) (s : string) :
  parse_items fuel (String " " s) = parse_items fuel s.
Proof.
  destruct fuel as [|fuel]; [reflexivity|].
  cbn [parse_items]. rewrite parse_value_blank. reflexivity.
Qed.

(** The text of the items of a list display, after the opening bracket. *)
Definition items_text (l : list string) (rest : string) : string :=
  (str_join ", " (map repr_str l) ++ String "]" rest)%string.

Lemma parse_items_first (fuel : nat) (a : string) (rest : string) :
  parse_items (S (S fuel)) (repr_str a ++ rest)
  = match skip_ws rest with
    | String "," rest' =>
        r' <- parse_items (S fuel) rest' ;; ret (VStr a :: fst r', snd r')
    | String "]" rest' => ret ([VStr a], rest')
    | _ => raise ValueError
    end.
Proof.
  change (parse_items (S (S fuel)) (repr_str a ++ rest))
    with (match skip_ws (repr_str a ++ rest) with
          | String "]" rest0 => ret ([], rest0)
          | _ =>
              r <- parse_value (S fuel) (repr_str a ++ rest) ;;
              match skip_ws (snd r) with
              | String "," rest' =>
                  r' <- parse_items (S fuel) rest' ;;
                  ret (fst r :: fst r', snd r')
              | String "]" rest' => ret ([fst r], rest')
              | _ => raise ValueError
              end
          end).
  rewrite parse_value_repr_str. cbn [bind fst snd].
  destruct (repr_str_quoted a) as (q & Hq & ->).
  destruct Hq as [-> | ->]; reflexivity.
Qed.

Lemma skip_ws_comma (s : string) : skip_ws (String "," s) = String "," s.
Proof. reflexivity. Qed.

Lemma parse_items_text (l : list string) (rest : string) (fuel : nat) :
  l <> [] -> length l < fuel ->
  parse_items fuel (items_text l rest) = inr (map VStr l, rest).
Proof.
  revert fuel. induction l as [|a l IH]; intros fuel Hne Hfuel;
    [congruence|].
  destruct fuel as [|[|fuel]]; cbn [length] in Hfuel; try lia.
  unfold items_text. cbn [map str_join].
  destruct l as [|b l].
  - cbn [map]. rewrite parse_items_first. reflexivity.
  - cbn [map]. rewrite !append_assoc. rewrite parse_items_first.
    cbn [String.append]. rewrite skip_ws_comma. cbv beta iota.
    rewrite parse_items_blank.
    change (str_join ", " (repr_str b :: map repr_str l) ++ String "]" rest)%string
      with (items_text (b :: l) rest).
    rewrite IH by (try discriminate; cbn [length] in *; lia).
    reflexivity.
Qed.

Lemma str_join_length (l : list string) :
  length l <= String.length (str_join ", " (map repr_str l)).
Proof.
  induction l as [|a l IH]; cbn [map str_join length]; [lia|].
  destruct (repr_str_quoted a) as (q & _ & Hq).
  assert (Ha : 1 <= String.length (repr_str a)).
  { specialize (Hq ""%string).
    replace (repr_str a ++ "")%string with (repr_str a) in Hq.
    - rewrite Hq. cbn [String.length]. lia.
    - clear. induction (repr_str a); simpl; congruence. }
  destruct l as [|b l]; [cbn [length map]; lia|].
  cbn [map] in *. rewrite !str_length_append. cbn [length] in *. lia.
Qed.

Lemma parse_value_list (fuel : nat) (s : string) :
  parse_value (S fuel) (String "[" s)
  = (r <- parse_items fuel s ;; ret (VList (fst r), snd r)).
Proof. reflexivity. Qed.

Lemma repr_list_strs (l : list string) :
  repr (VList (map VStr l)) = String "[" (items_text l "").
Proof.
  cbn [repr]. rewrite map_map.
  change (map (fun x => repr (VStr x)) l) with (map repr_str l).
  reflexivity.
Qed.

(** [literal_eval(repr(l)) == l] for a list [l] of strings. *)
Theorem literal_eval_repr_strs (l : list string) :
  literal_eval (VStr (repr (VList (map VStr l))))
  = inr (VList (map VStr l)).
Proof.
  rewrite repr_list_strs. cbn [literal_eval String.length].
  rewrite parse_value_list.
  destruct l as [|a l]; [reflexivity|].
  rewrite parse_items_text.
  - reflexivity.
  - discriminate.
  - unfold items_text. rewrite str_length_append.
    pose proof (str_join_length (a :: l)). cbn [String.length]. lia.
Qed.

(** *** Language-identification items *)

Definition langident_meta : list (string * dtype) :=
  [("np_id", dt_str); ("year", dt_str); ("issues", dt_str);
   ("content_items_out", dt_int); ("images", dt_int);
   ("lang_fd", dt_object)].

Definition langident_cols : list ColSpec :=
  [tunique_col "issues"; sum_col "content_items_out"; sum_col "images";
   list_col "lang_fd"].

(** A well-formed language-identification item: an id with at least two
    components, a type, and a language that is a string or null. *)
Record langident_item (ci : Val) (id : string) (tp : Val)
  (lg : option string) : Prop := {
  li_id : getitem ci "id" = inr (VStr id);
  li_id_parts : 2 <= length (str_split "-" id);
  li_tp : getitem ci "tp" = inr tp;
  li_lg : getitem ci "lg"
          = inr (match lg with Some l => VStr l | None => VNone end)
}.

(** The language label of an item: its language code, or ["None"]. *)
Definition label_of (lg : option string) : string :=
  match lg with
  | Some l => l
  | None => "None"
  end.

(** The Count Record of a language-identification item. *)
Definition langident_counts_of (id : string) (tp : Val) (lg : option string)
  : Val :=
  VDict [(VStr "np_id", VStr (np_id_of id));
         (VStr "year", VStr (year_of id));
         (VStr "issues", VStr (issue_id_of id));
         (VStr "content_items_out", VInt 1);
         (VStr "images", VInt (if val_eqb tp (VStr "img") then 1 else 0));
         (VStr "lang_fd", VStr (label_of lg))].

Lemma langident_counts_wf (ci : Val) (id : string) (tp : Val)
  (lg : option string) :
  langident_item ci id tp lg ->
  Aggregators.langident_counts ci = inr (langident_counts_of id tp lg).
Proof.
  intros [Hid Hparts Htp Hlg].
  destruct (id_parts id Hparts) as [Hnp Hyear].
  unfold Aggregators.langident_counts, langident_counts_of.
  rewrite Hid. cbn [bind split ret]. rewrite Hnp, Hyear, Htp, Hlg.
  fold (issue_id_of id). destruct lg; cbn [bind ret]; rewrite ?Hlg;
    reflexivity.
Qed.

Lemma langident_counts_shape (ci c : Val) :
  Aggregators.langident_counts ci = inr c ->
  exists (np y i : string) (im : Z) (lf : Val),
    c = VDict [(VStr "np_id", VStr np); (VStr "year", VStr y);
               (VStr "issues", VStr i); (VStr "content_items_out", VInt 1);
               (VStr "images", VInt im); (VStr "lang_fd", lf)].
Proof.
  unfold Aggregators.langident_counts. intros H. inv_bind.
  injection H as <-. do 5 eexists. reflexivity.
Qed.

Lemma langident_counts_good (ci c : Val) :
  Aggregators.langident_counts ci = inr c ->
  good_record langident_meta np_year langident_cols c.
Proof.
  intros H. apply langident_counts_shape in H
    as (np & y & i & im & lf & ->).
  solve_good_record.
Qed.

(** [dict(Counter(l))]: each distinct element with its number of
    occurrences. *)
Definition counter_dict (l : list Val) : list (Val * Val) :=
  map (fun x => (x, VInt (Z.of_nat (count x l)))) (dedup l).

Lemma forallb_hashable_strs (l : list string) :
  forallb hashable (map VStr l) = true.
Proof. induction l; simpl; auto. Qed.

(** [freq] on a record of the aggregated frame: its [lang_fd] is the
    collected list, which [literal_eval] does not read. *)
Lemma freq_collected (x y a b c : Val) (l : list Val) :
  Aggregators.freq
    (row_to_dict
       ([("np_id", x); ("year", y)]
        ++ [("issues", a); ("content_items_out", b); ("images", c);
            ("lang_fd", VList l)])) "lang_fd"
  = inl ValueError.
Proof. reflexivity. Qed.

Definition langident_trace (client : option Client) : list Event :=
  match client with Some _ => [Progress] | None => [] end.

(** The langident pipeline, when every item of the bag has a Count
    Record: an empty bag gives no Statistics Record; otherwise [freq]
    raises on the first record of the aggregated frame. *)
Theorem langident_pipeline (bag recs : Bag Val) (client : option Client) :
  bag_map Aggregators.langident_counts bag = inr recs ->
  Aggregators.compute_stats_in_langident_bag bag client
  = match concat recs with
    | [] => (langident_trace client, inr [])
    | _ :: _ => ([], inl ValueError)
    end.
Proof.
  intros Hbag.
  destruct (run_frame langident_meta np_year langident_cols recs)
    as (idx & df & Hdf & Hagg & Hnd & Hkeys).
  - intros c Hc. cbn in *. tauto.
  - intros cs Hcs. cbn in Hcs.
    repeat (destruct Hcs as [<-|Hcs]; [cbn; tauto|]). contradiction.
  - discriminate.
  - eapply Forall2_Forall_r; [exact (bag_map_concat _ _ _ Hbag)|].
    intros ci c. apply langident_counts_good.
  - unfold Aggregators.compute_stats_in_langident_bag.
    rewrite Hbag. cbn [bind].
    fold langident_meta. rewrite Hdf.
    cbn [eff_bind lift print logger_info emit].
    change [("issues", Aggregators.tunique); ("content_items_out", agg_sum);
            ("images", agg_sum); ("lang_fd", agg_list)]
      with (spec_of langident_cols).
    fold np_year. rewrite Hagg. cbn [bind ret].
    unfold reset_index, to_bag, bag_map.
    cbn [index_names agg_rows mapM]. rewrite !map_map.
    destruct idx as [|k idx].
    + destruct (concat recs) as [|c l].
      * destruct client; reflexivity.
      * exfalso. apply (proj2 (Hkeys (rec_key np_year c))). now left.
    + assert (Hk : In k (map (rec_key np_year) (concat recs)))
        by (apply Hkeys; now left).
      apply in_map_iff in Hk as (c & <- & Hc).
      destruct (concat recs) as [|c0 l] eqn:E; [contradiction|].
      cbn [map mapM fst snd].
      unfold stat_row, langident_cols, rec_key, np_year.
      cbn [map combine cs_name cs_reduce sum_col tunique_col list_col].
      rewrite freq_collected. reflexivity.
Qed.

(** ** Independence of the arrangement of the records *)

Lemma filter_Permutation {A : Type} (f : A -> bool) (l l' : list A) :
  Permutation l l' -> Permutation (filter f l) (filter f l').
Proof.
  induction 1 as [|x l l' _ IH|x y l|l l' l'' _ IH1 _ IH2]; simpl.
  - constructor.
  - destruct (f x); [now constructor | assumption].
  - destruct (f x), (f y); try reflexivity. apply perm_swap.
  - now transitivity (filter f l').
Qed.

Lemma zsum_Permutation (l l' : list Val) :
  Permutation l l' -> zsum l = zsum l'.
Proof.
  induction 1 as [|x l l' _ IH|x y l|l l' l'' _ IH1 _ IH2]; simpl.
  - reflexivity.
  - now rewrite IH.
  - destruct x, y; lia.
  - congruence.
Qed.

(** A reduction that does not depend on the order of the values. *)
Definition order_free (cs : ColSpec) : Prop :=
  forall l l', Permutation l l' -> cs_reduce cs l = cs_reduce cs l'.

Lemma sum_col_order_free (c : string) : order_free (sum_col c).
Proof.
  intros l l' H. cbn [cs_reduce sum_col]. now rewrite (zsum_Permutation l l').
Qed.

Lemma tunique_col_order_free (c : string) : order_free (tunique_col c).
Proof.
  intros l l' H. cbn [cs_reduce tunique_col]. do 2 f_equal.
  apply dedup_length_ext. intros x.
  split; intros Hx; (eapply Permutation_in; [|exact Hx]);
    [|symmetry]; assumption.
Qed.

Lemma stat_row_Permutation (by_ : list string) (cols : list ColSpec)
  (recs recs' : list Val) (k : Key) :
  Forall order_free cols -> Permutation recs recs' ->
  stat_row by_ cols recs k = stat_row by_ cols recs' k.
Proof.
  intros Hfree Hperm. unfold stat_row. apply map_ext_in. intros cs Hcs.
  f_equal. rewrite Forall_forall in Hfree. apply (Hfree cs Hcs).
  apply Permutation_map. unfold group_of. now apply filter_Permutation.
Qed.

(** A bag all of whose Count Records have the key [k] has one group. *)
Lemma single_group (rk : Val -> Key) (recs : list Val) (idx : list Key)
  (k : Key) :
  NoDup idx -> (forall k', In k' idx <-> In k' (map rk recs)) ->
  recs <> [] -> (forall c, In c recs -> rk c = k) ->
  idx = [k].
Proof.
  intros Hnd Hkeys Hne Hall.
  assert (Honly : forall k', In k' idx -> k' = k).
  { intros k' Hk'. apply Hkeys in Hk'.
    apply in_map_iff in Hk' as (c & <- & Hc). now apply Hall. }
  assert (Hin : In k idx).
  { destruct recs as [|c recs]; [congruence|].
    apply Hkeys. rewrite <- (Hall c) by now left. now left. }
  destruct idx as [|k1 [|k2 idx]].
  - contradiction.
  - now rewrite (Honly k1) by now left.
  - exfalso. inversion Hnd as [|? ? Hnotin _]; subst. apply Hnotin.
    rewrite (Honly k1), (Honly k2) by (simpl; auto). now left.
Qed.

(** The Count Record of an item, when the extractor returns one. *)
Definition the_counts (extract : Val -> Err Val) (x : Val) : Val :=
  match extract x with
  | inr c => c
  | inl _ => VNone
  end.

Lemma bag_map_the_counts (extract : Val -> Err Val) (bag : Bag Val) :
  (forall x, In x (concat bag) -> exists c, extract x = inr c) ->
  bag_map extract bag = inr (map (map (the_counts extract)) bag).
Proof.
  intros H. apply bag_map_ok. intros x Hx.
  destruct (H x Hx) as (c & Hc). unfold the_counts. now rewrite Hc.
Qed.

(** ** C1: the Distinct-Count Aggregator *)

(** C1.  Whatever the partitions [parts] over which the (group, value)
    records are split, the three stages of [tunique] (chunk on each
    partition, agg on the concatenated chunk results, finalize) return for
    every group the number of distinct values of the group, [len(set(...))]
    of the values the group has in any arrangement [rows] of the same
    records: the count does not depend on the partitioning. *)
Theorem tunique_counts_distinct (parts : list Series) (rows : Series) :
  (forall p kv, In p parts -> In kv p -> hashable (snd kv) = true) ->
  Permutation rows (concat parts) ->
  exists out : Series,
    aggregate Aggregators.tunique (map groupby_level parts) = inr out
    /\ NoDup (map fst out)
    /\ (forall k, In k (map fst out) <-> In k (map fst rows))
    /\ (forall k v, In (k, v) out ->
          v = VInt (Z.of_nat (length (dedup (group_values rows k))))).
Proof.
  intros Hok Hperm.
  destruct (tunique_reduces parts Hok) as (out & Hrun & Hnd & Hkeys & Hvals).
  exists out. split; [exact Hrun|]. split; [exact Hnd|]. split.
  - intros k. rewrite Hkeys.
    split; intros H; (eapply Permutation_in; [|exact H]);
      apply Permutation_map; [symmetry|]; assumption.
  - intros k v Hin. rewrite (Hvals k v Hin). cbn beta. do 2 f_equal.
    apply dedup_length_ext. intros x. rewrite !group_values_In.
    split; intros H; (eapply Permutation_in; [|exact H]);
      [symmetry|]; assumption.
Qed.

Definition c1_key : Key := [VStr "GDL"; VStr "1950"].

Definition c1_parts : list Series :=
  [[(c1_key, VStr "a"); (c1_key, VStr "b"); (c1_key, VStr "a")];
   [];
   [(c1_key, VStr "b"); (c1_key, VStr "c")]].

Lemma tunique_counts_distinct_witness :
  exists out : Series,
    aggregate Aggregators.tunique (map groupby_level c1_parts) = inr out
    /\ NoDup (map fst out)
    /\ (forall k, In k (map fst out) <-> In k (map fst (concat c1_parts)))
    /\ (forall k v, In (k, v) out ->
          v = VInt (Z.of_nat
                      (length (dedup (group_values (concat c1_parts) k))))).
Proof.
  apply (tunique_counts_distinct c1_parts (concat c1_parts)).
  - intros p kv Hp Hkv.
    assert (H : forallb (fun p : Series =>
                           forallb (fun kv => hashable (snd kv)) p) c1_parts
                = true) by reflexivity.
    rewrite forallb_forall in H. specialize (H p Hp).
    rewrite forallb_forall in H. exact (H kv Hkv).
  - apply Permutation_refl.
Defined.

Example tunique_three_partitions :
  aggregate Aggregators.tunique (map groupby_level c1_parts)
  = inr [(c1_key, VInt 3)].
Proof. reflexivity. Qed.

Lemma series_get_absent (s : Series) (k : Key) :
  ~ In k (map fst s) -> series_get s k = VNaN.
Proof.
  unfold series_get. induction s as [|[k0 v] s IH]; cbn [find map fst In];
    [reflexivity|].
  intros H. destruct (key_eqb k0 k) eqn:E.
  - apply key_eqb_eq in E. tauto.
  - apply IH. tauto.
Qed.

(** Two partitionings of the same records give the same counts. *)
Corollary tunique_partition_independent (parts parts' : list Series) :
  (forall p kv, In p parts -> In kv p -> hashable (snd kv) = true) ->
  Permutation (concat parts') (concat parts) ->
  exists out out' : Series,
    aggregate Aggregators.tunique (map groupby_level parts) = inr out
    /\ aggregate Aggregators.tunique (map groupby_level parts') = inr out'
    /\ forall k, series_get out' k = series_get out k.
Proof.
  intros Hok Hperm.
  assert (Hok' : forall p kv, In p parts' -> In kv p ->
                              hashable (snd kv) = true).
  { intros p kv Hp Hkv.
    assert (Hin : In kv (concat parts)).
    { eapply Permutation_in; [exact Hperm|]. apply in_concat. eauto. }
    apply in_concat in Hin as (q & Hq & Hkv'). eauto. }
  destruct (tunique_reduces parts Hok) as (out & Hrun & _ & Hkeys & Hvals).
  destruct (tunique_reduces parts' Hok')
    as (out' & Hrun' & _ & Hkeys' & Hvals').
  exists out, out'. split; [exact Hrun|]. split; [exact Hrun'|].
  assert (Hsame : forall k, In k (map fst (concat parts'))
                            <-> In k (map fst (concat parts))).
  { intros k. split; intros H; (eapply Permutation_in; [|exact H]);
      apply Permutation_map; [|symmetry]; assumption. }
  intros k. destruct (In_key_dec k (map fst (concat parts))) as [Hin|Hout].
  - rewrite (series_get_unique out' k
               (VInt (Z.of_nat
                        (length (dedup (group_values (concat parts') k)))))),
      (series_get_unique out k
               (VInt (Z.of_nat
                        (length (dedup (group_values (concat parts) k))))));
      try (intros v Hv; first [exact (Hvals _ _ Hv) | exact (Hvals' _ _ Hv)]);
      try (now apply Hkeys); try (now apply Hkeys', Hsame).
    do 2 f_equal. apply dedup_length_ext. intros x.
    rewrite !group_values_In.
    split; intros H; (eapply Permutation_in; [|exact H]);
      [|symmetry]; assumption.
  - rewrite !series_get_absent; [reflexivity | |].
    + intros H. now apply Hout, Hkeys.
    + intros H. now apply Hout, Hsame, Hkeys'.
Qed.

(** ** C4: canonical issues *)

Lemma getitem_row_to_dict (r : Row) (c : string) :
  getitem (row_to_dict r) c
  = match row_get r c with
    | Some v => inr v
    | None => inl KeyError
    end.
Proof.
  unfold row_to_dict. cbn [getitem].
  induction r as [|[c' v] r IH]; cbn [map dict_get row_get fst snd val_eqb];
    [reflexivity|].
  destruct (String.eqb c' c); [reflexivity | exact IH].
Qed.

Lemma canonical_counts_key (include : bool) (id : string)
  (pp items tps : list Val) :
  rec_key np_year (canonical_counts true id pp items tps)
  = [VStr (np_id_of id); VStr (year_of id)].
Proof. reflexivity. Qed.

(** C4.  For a well-formed canonical issue the extractor returns the
    Count Record [canonical_counts]: [issues] is 1, [pages] the number of
    distinct page ids, [images] the number of content items of type
    ["image"], and [np_id] and [year] are in the record exactly when
    [include_np_yr] is set.  And two issues ["NZZ-1900-01-01-a"] (2
    distinct pages, 1 image item) and ["NZZ-1900-01-02-a"] (3 distinct
    pages, no image item), in any partitioning and order, aggregate to the
    single Statistics Record of (NZZ, 1900) with [issues] 2, [pages] 5 and
    [images] 1. *)
Theorem canonical_counts_and_example
  (issue : Val) (id : string) (pp items tps : list Val)
  (i1 i2 : Val) (pp1 items1 tps1 pp2 items2 tps2 : list Val)
  (bag : Bag Val) (client : option Client) :
  canonical_issue issue id pp items tps ->
  canonical_issue i1 "NZZ-1900-01-01-a" pp1 items1 tps1 ->
  length (dedup pp1) = 2 -> length (filter is_image tps1) = 1 ->
  canonical_issue i2 "NZZ-1900-01-02-a" pp2 items2 tps2 ->
  length (dedup pp2) = 3 -> length (filter is_image tps2) = 0 ->
  Permutation (concat bag) [i1; i2] ->
  (forall include_np_yr : bool,
     exists counts : Val,
       Aggregators.counts_for_canonical_issue issue include_np_yr
       = inr counts
       /\ getitem counts "issues" = inr (VInt 1)
       /\ getitem counts "pages" = inr (VInt (Z.of_nat (length (dedup pp))))
       /\ getitem counts "images"
          = inr (VInt (Z.of_nat (length (filter is_image tps))))
       /\ contains counts "np_id" = inr include_np_yr
       /\ contains counts "year" = inr include_np_yr
       /\ (include_np_yr = true ->
           getitem counts "np_id" = inr (VStr (np_id_of id))
           /\ getitem counts "year" = inr (VStr (year_of id))))
  /\ exists (tr : list Event) (rec : Val),
       Aggregators.compute_stats_in_canonical_bag bag client
       = (tr, inr [rec])
       /\ getitem rec "np_id" = inr (VStr "NZZ")
       /\ getitem rec "year" = inr (VStr "1900")
       /\ getitem rec "issues" = inr (VInt 2)
       /\ getitem rec "pages" = inr (VInt 5)
       /\ getitem rec "images" = inr (VInt 1).
Proof.
  intros Hwf Hwf1 Hp1 Him1 Hwf2 Hp2 Him2 Hperm. split.
  - intros include_np_yr.
    exists (canonical_counts include_np_yr id pp items tps).
    split; [now apply counts_for_canonical_issue_wf|].
    destruct include_np_yr; repeat split; try reflexivity; discriminate.
  - set (extract := fun i => Aggregators.counts_for_canonical_issue i true).
    set (c1 := canonical_counts true "NZZ-1900-01-01-a" pp1 items1 tps1).
    set (c2 := canonical_counts true "NZZ-1900-01-02-a" pp2 items2 tps2).
    assert (H1 : extract i1 = inr c1)
      by now apply counts_for_canonical_issue_wf.
    assert (H2 : extract i2 = inr c2)
      by now apply counts_for_canonical_issue_wf.
    assert (Hbag : bag_map extract bag
                   = inr (map (map (the_counts extract)) bag)).
    { apply bag_map_the_counts. intros x Hx.
      apply (Permutation_in _ Hperm) in Hx.
      destruct Hx as [<-|[<-|[]]]; eauto. }
    destruct (canonical_pipeline bag _ client Hbag)
      as (idx & Hnd & Hkeys & Hrun).
    rewrite <- concat_map in Hkeys, Hrun.
    assert (Hrecs : Permutation (map (the_counts extract) (concat bag))
                                [c1; c2]).
    { apply (Permutation_map (the_counts extract)) in Hperm.
      cbn [map] in Hperm. unfold the_counts at 2 3 in Hperm.
      now rewrite H1, H2 in Hperm. }
    set (k := [VStr "NZZ"; VStr "1900"]).
    assert (Hidx : idx = [k]).
    { apply (single_group (rec_key np_year)
               (map (the_counts extract) (concat bag))); auto.
      - intros E. rewrite E in Hrecs. now apply Permutation_nil in Hrecs.
      - intros c Hc. apply (Permutation_in _ Hrecs) in Hc.
        destruct Hc as [<-|[<-|[]]]; reflexivity. }
    rewrite Hidx in Hrun. unfold stats_records in Hrun. cbn [map] in Hrun.
    rewrite (stat_row_Permutation _ _ _ [c1; c2]) in Hrun; auto.
    2:{ repeat constructor; apply sum_col_order_free. }
    eexists _, _. split; [exact Hrun|].
    rewrite !getitem_row_to_dict. unfold c1, c2, canonical_counts.
    rewrite Hp1, Hp2, Him1, Him2. repeat split; reflexivity.
Qed.

(** *** The example, run *)

Definition content_item (tp : string) : Val :=
  VDict [(VStr "m", VDict [(VStr "tp", VStr tp)])].

(** The two issues of the example: 2 distinct pages (one listed twice)
    and 1 image item; 3 distinct pages and no image item. *)
Definition nzz_issue_1 : Val :=
  VDict [(VStr "id", VStr "NZZ-1900-01-01-a");
         (VStr "pp", VList [VStr "NZZ-1900-01-01-a-p0001";
                            VStr "NZZ-1900-01-01-a-p0002";
                            VStr "NZZ-1900-01-01-a-p0001"]);
         (VStr "i", VList [content_item "image"; content_item "article"])].

Definition nzz_issue_2 : Val :=
  VDict [(VStr "id", VStr "NZZ-1900-01-02-a");
         (VStr "pp", VList [VStr "NZZ-1900-01-02-a-p0001";
                            VStr "NZZ-1900-01-02-a-p0002";
                            VStr "NZZ-1900-01-02-a-p0003"]);
         (VStr "i", VList [content_item "article"])].

(** An issue of another title. *)
Definition gdl_issue : Val :=
  VDict [(VStr "id", VStr "GDL-1950-01-01-a");
         (VStr "pp", VList [VStr "GDL-1950-01-01-a-p0001"]);
         (VStr "i", VList [])].

Definition canonical_bag : Bag Val :=
  [[nzz_issue_2]; []; [nzz_issue_1]].

Lemma canonical_counts_and_example_witness :
  exists (tr : list Event) (rec : Val),
    Aggregators.compute_stats_in_canonical_bag canonical_bag None
    = (tr, inr [rec])
    /\ getitem rec "np_id" = inr (VStr "NZZ")
    /\ getitem rec "year" = inr (VStr "1900")
    /\ getitem rec "issues" = inr (VInt 2)
    /\ getitem rec "pages" = inr (VInt 5)
    /\ getitem rec "images" = inr (VInt 1).
Proof.
  refine (proj2 (canonical_counts_and_example
                   gdl_issue "GDL-1950-01-01-a"
                   [VStr "GDL-1950-01-01-a-p0001"] [] []
                   nzz_issue_1 nzz_issue_2
                   [VStr "NZZ-1900-01-01-a-p0001";
                    VStr "NZZ-1900-01-01-a-p0002";
                    VStr "NZZ-1900-01-01-a-p0001"]
                   [content_item "image"; content_item "article"]
                   [VStr "image"; VStr "article"]
                   [VStr "NZZ-1900-01-02-a-p0001";
                    VStr "NZZ-1900-01-02-a-p0002";
                    VStr "NZZ-1900-01-02-a-p0003"]
                   [content_item "article"] [VStr "article"]
                   canonical_bag None _ _ _ _ _ _ _ _)).
  - constructor; try reflexivity. cbn. lia.
  - constructor; try reflexivity. cbn. lia.
  - reflexivity.
  - reflexivity.
  - constructor; try reflexivity. cbn. lia.
  - reflexivity.
  - reflexivity.
  - cbn. apply perm_swap.
Defined.

Example canonical_bag_two_titles :
  snd (Aggregators.compute_stats_in_canonical_bag
         [[nzz_issue_2; gdl_issue]; [nzz_issue_1]] None)
  = inr [VDict [(VStr "np_id", VStr "NZZ"); (VStr "year", VStr "1900");
                (VStr "issues", VInt 2); (VStr "pages", VInt 5);
                (VStr "content_items_out", VInt 3); (VStr "images", VInt 1)];
         VDict [(VStr "np_id", VStr "GDL"); (VStr "year", VStr "1950");
                (VStr "issues", VInt 1); (VStr "pages", VInt 1);
                (VStr "content_items_out", VInt 0); (VStr "images", VInt 0)]].
Proof. vm_compute. reflexivity. Qed.

(** ** C5: rebuilt and passim articles *)

(** The id of a content item is the id of its issue followed by a last
    component; dropping that component gives the issue id back. *)
Lemma article_id_parts (s t : string) :
  has_char "-" t = false ->
  str_split "-" (s ++ String "-" t) = str_split "-" s ++ [t]
  /\ issue_id_of (s ++ String "-" t) = s
  /\ np_id_of (s ++ String "-" t) = np_id_of s
  /\ (2 <= length (str_split "-" s) ->
      year_of (s ++ String "-" t) = year_of s).
Proof.
  intros Ht. pose proof (str_split_app "-" s t Ht) as E.
  split; [exact E|]. unfold issue_id_of, np_id_of, year_of. rewrite E.
  split; [|split].
  - rewrite slice_to_last. apply (str_join_split "-").
  - pose proof (str_split_nonempty "-" s).
    destruct (str_split "-" s); [congruence | reflexivity].
  - intros H. destruct (str_split "-" s) as [|a [|b l]]; simpl in H; try lia.
    reflexivity.
Qed.

Lemma rebuilt_article_of_issue (a : Val) (s t : string) (ft : option string) :
  getitem a "id" = inr (VStr (s ++ String "-" t)) ->
  has_char "-" t = false ->
  match ft with
  | Some text => getitem a "ft" = inr (VStr text)
  | None => contains a "ft" = inr false
  end ->
  rebuilt_article a (s ++ String "-" t) ft.
Proof.
  intros Hid Ht Hft. constructor; try assumption.
  destruct (article_id_parts s t Ht) as (E & _). rewrite E, length_app.
  pose proof (str_split_nonempty "-" s).
  destruct (str_split "-" s); [congruence | cbn [length]; lia].
Qed.

(** C5.  For a well-formed rebuilt or passim article the extractor
    returns the Count Record [rebuilt_counts]: [issues] is the id of the
    article's issue (the id without its last dash-separated component),
    [content_items_out] is 1, and [ft_tokens], present exactly when not in
    passim mode, is the number of whitespace-separated tokens of the full
    text, 0 without full text.  And three articles of the issues
    ["GDL-1950-01-01-a"], ["GDL-1950-01-01-a"], ["GDL-1950-01-02-a"] with
    10, 5 and 7 tokens, in any partitioning and order, aggregate to a
    single Statistics Record with [issues] 2, [content_items_out] 3 and
    [ft_tokens] 22 (of (GDL, 1950) when the title is included). *)
Theorem rebuilt_counts_and_example
  (ci : Val) (id : string) (ft : option string)
  (a1 a2 a3 : Val) (t1 t2 t3 : string) (ft1 ft2 ft3 : option string)
  (bag : Bag Val) (key : string) (client : option Client) :
  rebuilt_article ci id ft ->
  rebuilt_article a1 ("GDL-1950-01-01-a" ++ String "-" t1) ft1 ->
  rebuilt_article a2 ("GDL-1950-01-01-a" ++ String "-" t2) ft2 ->
  rebuilt_article a3 ("GDL-1950-01-02-a" ++ String "-" t3) ft3 ->
  has_char "-" t1 = false -> has_char "-" t2 = false ->
  has_char "-" t3 = false ->
  ft_tokens_of ft1 = 10%Z -> ft_tokens_of ft2 = 5%Z ->
  ft_tokens_of ft3 = 7%Z ->
  Permutation (concat bag) [a1; a2; a3] ->
  (forall include_np passim : bool,
     exists counts : Val,
       Aggregators.counts_for_rebuilt ci include_np passim = inr counts
       /\ getitem counts "issues" = inr (VStr (issue_id_of id))
       /\ getitem counts "year" = inr (VStr (year_of id))
       /\ getitem counts "content_items_out" = inr (VInt 1)
       /\ contains counts "np_id" = inr include_np
       /\ contains counts "ft_tokens" = inr (negb passim)
       /\ (passim = false ->
           getitem counts "ft_tokens"
           = inr (VInt (match ft with
                        | Some text =>
                            Z.of_nat (length (str_split_ws text))
                        | None => 0
                        end))))
  /\ (forall s t, has_char "-" t = false ->
                  issue_id_of (s ++ String "-" t) = s)
  /\ forall include_np : bool,
       exists (tr : list Event) (rec : Val),
         Aggregators.compute_stats_in_rebuilt_bag bag key include_np false
           client
         = (tr, inr [rec])
         /\ getitem rec "issues" = inr (VInt 2)
         /\ getitem rec "content_items_out" = inr (VInt 3)
         /\ getitem rec "ft_tokens" = inr (VInt 22)
         /\ (include_np = true ->
             getitem rec "np_id" = inr (VStr "GDL")
             /\ getitem rec "year" = inr (VStr "1950")).
Proof.
  intros Hwf Hwf1 Hwf2 Hwf3 Ht1 Ht2 Ht3 Hft1 Hft2 Hft3 Hperm.
  split; [|split].
  - intros include_np passim.
    exists (rebuilt_counts include_np passim id ft).
    split; [now apply counts_for_rebuilt_wf|].
    destruct include_np, passim; repeat split; try reflexivity;
      discriminate.
  - intros s t Ht. now apply article_id_parts.
  - intros include_np.
    set (extract := fun rf => Aggregators.counts_for_rebuilt rf include_np
                                false).
    set (c := fun (s t : string) (n : Z) =>
           VDict ((if include_np then [(VStr "np_id", VStr (np_id_of s))]
                   else [])
                  ++ [(VStr "year", VStr (year_of s)); (VStr "issues", VStr s);
                      (VStr "content_items_out", VInt 1);
                      (VStr "ft_tokens", VInt n)])).
    assert (Hc : forall a s t ft0 n,
               rebuilt_article a (s ++ String "-" t) ft0 ->
               has_char "-" t = false -> 2 <= length (str_split "-" s) ->
               ft_tokens_of ft0 = n -> extract a = inr (c s t n)).
    { intros a s t ft0 n Ha Ht Hs Hn. unfold extract.
      rewrite (counts_for_rebuilt_wf a _ ft0 include_np false Ha).
      unfold rebuilt_counts, c.
      destruct (article_id_parts s t Ht) as (_ & -> & -> & Hy).
      now rewrite Hy, Hn by assumption. }
    assert (H1 : extract a1 = inr (c "GDL-1950-01-01-a" t1 10%Z))
      by (eapply Hc; eauto; cbn; lia).
    assert (H2 : extract a2 = inr (c "GDL-1950-01-01-a" t2 5%Z))
      by (eapply Hc; eauto; cbn; lia).
    assert (H3 : extract a3 = inr (c "GDL-1950-01-02-a" t3 7%Z))
      by (eapply Hc; eauto; cbn; lia).
    assert (Hbag : bag_map extract bag
                   = inr (map (map (the_counts extract)) bag)).
    { apply bag_map_the_counts. intros x Hx.
      apply (Permutation_in _ Hperm) in Hx.
      destruct Hx as [<-|[<-|[<-|[]]]]; eauto. }
    destruct (rebuilt_pipeline bag _ key include_np false client Hbag)
      as (idx & Hnd & Hkeys & Hrun).
    rewrite <- concat_map in Hkeys, Hrun.
    assert (Hrecs : Permutation (map (the_counts extract) (concat bag))
                      [c "GDL-1950-01-01-a" t1 10%Z;
                       c "GDL-1950-01-01-a" t2 5%Z;
                       c "GDL-1950-01-02-a" t3 7%Z]).
    { apply (Permutation_map (the_counts extract)) in Hperm.
      cbn [map] in Hperm. unfold the_counts at 2 3 4 in Hperm.
      now rewrite H1, H2, H3 in Hperm. }
    set (k := if include_np then [VStr "GDL"; VStr "1950"]
              else [VStr "1950"]).
    assert (Hidx : idx = [k]).
    { apply (single_group (rec_key (rebuilt_by include_np))
               (map (the_counts extract) (concat bag))); auto.
      - intros E. rewrite E in Hrecs. now apply Permutation_nil in Hrecs.
      - intros c0 Hc0. apply (Permutation_in _ Hrecs) in Hc0.
        unfold k, c.
        destruct Hc0 as [<-|[<-|[<-|[]]]]; destruct include_np;
          reflexivity. }
    rewrite Hidx in Hrun.
    exists (rebuilt_trace key client).
    destruct include_np; unfold stats_records, stats_records_no_key in Hrun;
      cbn [map] in Hrun;
      rewrite (stat_row_Permutation _ _ _
                 [c "GDL-1950-01-01-a" t1 10%Z;
                  c "GDL-1950-01-01-a" t2 5%Z;
                  c "GDL-1950-01-02-a" t3 7%Z]) in Hrun; auto;
      try (repeat constructor;
           first [apply sum_col_order_free | apply tunique_col_order_free]);
      (eexists; split; [exact Hrun|]);
      rewrite !getitem_row_to_dict; repeat split; try reflexivity;
      discriminate.
Qed.

(** *** The example, run *)

(** The three articles of the example, with 10, 5 and 7 tokens. *)
Definition gdl_article_1 : Val :=
  VDict [(VStr "id", VStr "GDL-1950-01-01-a-i0001");
         (VStr "ft", VStr "a b c d e f g h i j")].

Definition gdl_article_2 : Val :=
  VDict [(VStr "id", VStr "GDL-1950-01-01-a-i0002");
         (VStr "ft", VStr "  a b   c d e ")].

Definition gdl_article_3 : Val :=
  VDict [(VStr "id", VStr "GDL-1950-01-02-a-i0001");
         (VStr "ft", VStr "a b c d e f g")].

(** An article without full text. *)
Definition gdl_article_no_ft : Val :=
  VDict [(VStr "id", VStr "GDL-1950-01-03-a-i0001")].

Definition rebuilt_bag : Bag Val :=
  [[gdl_article_1; gdl_article_3]; [gdl_article_2]].

Lemma rebuilt_counts_and_example_witness :
  (exists counts : Val,
     Aggregators.counts_for_rebuilt gdl_article_no_ft false false
     = inr counts
     /\ getitem counts "issues" = inr (VStr "GDL-1950-01-03-a")
     /\ getitem counts "ft_tokens" = inr (VInt 0))
  /\ exists (tr : list Event) (rec : Val),
       Aggregators.compute_stats_in_rebuilt_bag rebuilt_bag "" true false None
       = (tr, inr [rec])
       /\ getitem rec "np_id" = inr (VStr "GDL")
       /\ getitem rec "year" = inr (VStr "1950")
       /\ getitem rec "issues" = inr (VInt 2)
       /\ getitem rec "content_items_out" = inr (VInt 3)
       /\ getitem rec "ft_tokens" = inr (VInt 22).
Proof.
  assert (H : rebuilt_article gdl_article_no_ft "GDL-1950-01-03-a-i0001" None
              /\ rebuilt_article gdl_article_1
                   ("GDL-1950-01-01-a" ++ String "-" "i0001")
                   (Some "a b c d e f g h i j")
              /\ rebuilt_article gdl_article_2
                   ("GDL-1950-01-01-a" ++ String "-" "i0002")
                   (Some "  a b   c d e ")
              /\ rebuilt_article gdl_article_3
                   ("GDL-1950-01-02-a" ++ String "-" "i0001")
                   (Some "a b c d e f g")).
  { repeat split; try reflexivity; cbn; lia. }
  destruct H as (H0 & H1 & H2 & H3).
  destruct (rebuilt_counts_and_example
              gdl_article_no_ft "GDL-1950-01-03-a-i0001" None
              gdl_article_1 gdl_article_2 gdl_article_3
              "i0001" "i0002" "i0001"
              (Some "a b c d e f g h i j") (Some "  a b   c d e ")
              (Some "a b c d e f g")
              rebuilt_bag "" None H0 H1 H2 H3
              eq_refl eq_refl eq_refl eq_refl eq_refl eq_refl)
    as (Hextract & _ & Hrun).
  { cbn. apply perm_skip, perm_swap. }
  split.
  - destruct (Hextract false false) as (counts & Hc & Hi & _ & _ & _ & _ & Hft).
    exists counts. split; [exact Hc|]. split; [exact Hi|]. now apply Hft.
  - destruct (Hrun true) as (tr & rec & Hr & Hi & Hc & Hf & Hk).
    destruct (Hk eq_refl) as (Hnp & Hy).
    exists tr, rec. repeat split; assumption.
Defined.

(** ** C8: groups and records *)

Lemma zsum_ones (l : list Val) :
  (forall v, In v l -> v = VInt 1) -> zsum l = Z.of_nat (length l).
Proof.
  induction l as [|v l IH]; intros H; [reflexivity|].
  cbn [zsum fold_right length]. rewrite (H v) by now left.
  fold (zsum l). rewrite IH by (intros; apply H; now right). lia.
Qed.

Lemma rec_key_stats_record (k : Key) (row : Row) :
  length k = 2 -> rec_key np_year (row_to_dict (combine np_year k ++ row)) = k.
Proof.
  destruct k as [|a [|b [|c k]]]; simpl; intros H; try lia. reflexivity.
Qed.

Section OneRecordPerGroup.
Variable cols : list ColSpec.
Variable unit_field : string.
Variable recs : list Val.
Variable idx : list Key.
Hypothesis idx_NoDup : NoDup idx.
Hypothesis idx_keys :
  forall k, In k idx <-> In k (map (rec_key np_year) recs).
Hypothesis unit_col : In (sum_col unit_field) cols.
Hypothesis cols_NoDup : NoDup (map cs_name cols).
Hypothesis unit_not_key : ~ In unit_field np_year.
Hypothesis unit_is_one :
  forall c, In c recs -> field unit_field c = VInt 1.

Let out := stats_records np_year cols recs idx.





End OneRecordPerGroup.








(** *** Two pipelines, run *)

(** Search-index items of two titles; the year is a number. *)
Definition solr_item_of (journal : string) (year : Z) (issue : string) : Val :=
  VDict [(VStr "meta_journal_s", VStr journal);
         (VStr "meta_year_i", VInt year);
         (VStr "meta_issue_id_s", VStr issue)].

Definition solr_bag : Bag Val :=
  [[solr_item_of "GDL" 1950 "GDL-1950-01-01-a";
    solr_item_of "NZZ" 1900 "NZZ-1900-01-01-a"];
   [solr_item_of "GDL" 1950 "GDL-1950-01-02-a"]].


Example solr_bag_result :
  snd (Aggregators.compute_stats_in_solr_text_bag solr_bag None)
  = inr [VDict [(VStr "np_id", VStr "GDL"); (VStr "year", VStr "1950");
                (VStr "issues", VInt 2); (VStr "content_items_out", VInt 2)];
         VDict [(VStr "np_id", VStr "NZZ"); (VStr "year", VStr "1900");
                (VStr "issues", VInt 1); (VStr "content_items_out", VInt 1)]].
Proof. vm_compute. reflexivity. Qed.

(** ** C9: the client handle *)

Definition is_progress (e : Event) : bool :=
  match e with
  | Progress => true
  | _ => false
  end.

(** What a run with a client handle and the run without have in common:
    the same result, and the same events but for the progress display,
    which the run without handle never shows and the run with handle
    shows once, if the aggregated collection could be built. *)
Definition differ_by_progress {A : Type} (with_client without : Eff A)
  : Prop :=
  snd with_client = snd without
  /\ filter (fun e => negb (is_progress e)) (fst with_client) = fst without
  /\ existsb is_progress (fst without) = false
  /\ length (filter is_progress (fst with_client))
     = match snd without with
       | inr _ => 1
       | inl _ => 0
       end.

Lemma differ_bind {A B : Type} (m : Eff A) (k1 k2 : A -> Eff B) :
  existsb is_progress (fst m) = false ->
  (forall a, differ_by_progress (k1 a) (k2 a)) ->
  differ_by_progress (eff_bind m k1) (eff_bind m k2).
Proof.
  intros Hm Hk. destruct m as [t [e|a]]; cbn [fst] in Hm.
  - unfold differ_by_progress. cbn [eff_bind fst snd].
    assert (Hf : forall e, In e t -> negb (is_progress e) = true).
    { intros ev Hev. destruct (is_progress ev) eqn:E; [|reflexivity].
      assert (existsb is_progress t = true)
        by (apply existsb_exists; eauto).
      congruence. }
    repeat split; auto.
    + clear Hm. induction t as [|ev t IH]; [reflexivity|]. cbn [filter].
      rewrite (Hf ev) by now left. f_equal. apply IH.
      intros; apply Hf; now right.
    + clear Hf. induction t as [|ev t IH]; [reflexivity|].
      cbn [existsb filter] in *. apply orb_false_iff in Hm as [-> Ht].
      now apply IH.
  - destruct (Hk a) as (Hs & Hf & He & Hc).
    unfold differ_by_progress. cbn [eff_bind].
    destruct (k1 a) as [t1 r1], (k2 a) as [t2 r2]. cbn [fst snd] in *.
    assert (Hnone : filter is_progress t = []).
    { clear - Hm. induction t as [|ev t IH]; [reflexivity|].
      cbn [existsb filter] in *. apply orb_false_iff in Hm as [-> Ht].
      now apply IH. }
    assert (Hall : filter (fun e => negb (is_progress e)) t = t).
    { clear - Hm. induction t as [|ev t IH]; [reflexivity|].
      cbn [existsb filter] in *. apply orb_false_iff in Hm as [-> Ht].
      cbn [negb]. f_equal. now apply IH. }
    repeat split.
    + exact Hs.
    + now rewrite filter_app, Hall, Hf.
    + rewrite existsb_app, Hm, He. reflexivity.
    + now rewrite filter_app, Hnone.
Qed.

Lemma differ_progress {B : Type} (k : unit -> Eff B) :
  existsb is_progress (fst (k tt)) = false ->
  (exists b, snd (k tt) = inr b) ->
  differ_by_progress (eff_bind progress k) (eff_bind (eff_ret tt) k).
Proof.
  intros Ht (b & Hb). unfold differ_by_progress.
  cbn [eff_bind progress emit eff_ret]. destruct (k tt) as [t r].
  cbn [fst snd app filter is_progress negb] in *. subst r.
  assert (Hnone : filter is_progress t = []).
  { clear - Ht. induction t as [|ev t IH]; [reflexivity|].
    cbn [existsb filter] in *. apply orb_false_iff in Ht as [-> Ht'].
    now apply IH. }
  assert (Hall : filter (fun e => negb (is_progress e)) t = t).
  { clear - Ht. induction t as [|ev t IH]; [reflexivity|].
    cbn [existsb filter] in *. apply orb_false_iff in Ht as [-> Ht'].
    cbn [negb]. f_equal. now apply IH. }
  repeat split; auto. now rewrite Hnone.
Qed.

Ltac with_progress :=
  cbv iota;
  match goal with
  | |- differ_by_progress (eff_bind progress ?k) _ =>
      exact (differ_progress k eq_refl (ex_intro _ _ eq_refl))
  end.

Ltac same_stage :=
  apply differ_bind; [exact eq_refl | intros ?].

(** C9.  Each pipeline returns the same list of Statistics Records (or
    raises the same error) with a client handle as without: the handle
    only adds the progress display, once, on the aggregated collection
    before it is materialized. *)
Theorem client_only_adds_progress (bag : Bag Val) (key : string)
  (include_np passim : bool) (c : Client) :
  differ_by_progress
    (Aggregators.compute_stats_in_canonical_bag bag (Some c))
    (Aggregators.compute_stats_in_canonical_bag bag None)
  /\ differ_by_progress
       (Aggregators.compute_stats_in_rebuilt_bag bag key include_np passim
          (Some c))
       (Aggregators.compute_stats_in_rebuilt_bag bag key include_np passim
          None)
  /\ differ_by_progress
       (Aggregators.compute_stats_in_entities_bag bag (Some c))
       (Aggregators.compute_stats_in_entities_bag bag None)
  /\ differ_by_progress
       (Aggregators.compute_stats_in_langident_bag bag (Some c))
       (Aggregators.compute_stats_in_langident_bag bag None)
  /\ differ_by_progress
       (Aggregators.compute_stats_in_solr_text_bag bag (Some c))
       (Aggregators.compute_stats_in_solr_text_bag bag None).
Proof.
  split; [|split; [|split; [|split]]].
  - unfold Aggregators.compute_stats_in_canonical_bag.
    do 4 same_stage. with_progress.
  - unfold Aggregators.compute_stats_in_rebuilt_bag.
    do 4 same_stage. destruct (negb (String.eqb key ""));
      same_stage; with_progress.
  - unfold Aggregators.compute_stats_in_entities_bag.
    do 4 same_stage. with_progress.
  - unfold Aggregators.compute_stats_in_langident_bag.
    do 3 same_stage. with_progress.
  - unfold Aggregators.compute_stats_in_solr_text_bag.
    do 4 same_stage. with_progress.
Qed.

(** ** C3: records whose id cannot be split *)

(** What reading [raw["id"].split("-")[0]] and [[1]] raises, if it does:
    [TypeError] on something that is no dict, [KeyError] without an id,
    [AttributeError] on an id that is no string, [IndexError] on an id
    with fewer than two dash-separated components. *)
Definition id_error (raw : Val) : option PyError :=
  match raw with
  | VDict d =>
      match dict_get d (VStr "id") with
      | None => Some KeyError
      | Some (VStr s) =>
          if (length (str_split "-" s) <? 2)%nat then Some IndexError
          else None
      | Some _ => Some AttributeError
      end
  | _ => Some TypeError
  end.

(** The record without its id field. *)
Definition drop_id (raw : Val) : Val :=
  match raw with
  | VDict d => VDict (filter (fun kv => negb (val_eqb (fst kv) (VStr "id"))) d)
  | _ => raw
  end.

Lemma getitem_drop_id (raw : Val) (k : string) :
  k <> "id" -> getitem (drop_id raw) k = getitem raw k.
Proof.
  intros Hk. destruct raw as [ | | | | |d]; try reflexivity.
  cbn [drop_id getitem].
  replace (dict_get (filter (fun kv => negb (val_eqb (fst kv) (VStr "id"))) d)
             (VStr k)) with (dict_get d (VStr k)); [reflexivity|].
  induction d as [|[k' v] d IH]; [reflexivity|].
  cbn [filter fst dict_get].
  destruct (val_eqb k' (VStr "id")) eqn:E; cbn [negb dict_get].
  - apply val_eqb_eq in E. subst k'. cbn [val_eqb].
    destruct (String.eqb_spec "id" k); [congruence | exact IH].
  - destruct (val_eqb k' (VStr k)); [reflexivity | exact IH].
Qed.

(** The issue with id ["NZZ"], no page and no content item. *)
Definition nzz_issue : Val :=
  VDict [(VStr "id", VStr "NZZ"); (VStr "pp", VList []); (VStr "i", VList [])].

(** C3, as stated, fails: on the id ["NZZ"] the canonical extractor
    called with its default [include_np_yr=False] returns a Count
    Record. *)
Lemma canonical_extractor_accepts_id_NZZ :
  id_error nzz_issue = Some IndexError
  /\ Aggregators.counts_for_canonical_issue nzz_issue false
     = inr (VDict [(VStr "issues", VInt 1); (VStr "pages", VInt 0);
                   (VStr "content_items_out", VInt 0);
                   (VStr "images", VInt 0)]).
Proof. split; reflexivity. Qed.

(** C3, amended.  On a Raw Record whose id is missing or has fewer than
    two dash-separated components, every extractor that reads the id (the
    canonical one with [include_np_yr=True], the rebuilt/passim one, the
    entity one and the langident one) raises, [KeyError] in the first case
    and [IndexError] in the second, and returns no Count Record.  The
    canonical extractor with [include_np_yr=False] and the search-index
    extractor do not read the id: they return what they return on the
    record without its id. *)
Theorem extractors_reading_the_id_raise (raw : Val) (e : PyError) :
  id_error raw = Some e ->
  Aggregators.counts_for_canonical_issue raw true = inl e
  /\ (forall include_np passim,
        Aggregators.counts_for_rebuilt raw include_np passim = inl e)
  /\ Aggregators.entities_counts raw = inl e
  /\ Aggregators.langident_counts raw = inl e
  /\ Aggregators.counts_for_canonical_issue raw false
     = Aggregators.counts_for_canonical_issue (drop_id raw) false
  /\ Aggregators.solr_counts raw = Aggregators.solr_counts (drop_id raw).
Proof.
  intros H.
  assert (Hfirst :
            Aggregators.counts_for_canonical_issue raw true = inl e
            /\ (forall include_np passim,
                  Aggregators.counts_for_rebuilt raw include_np passim = inl e)
            /\ Aggregators.entities_counts raw = inl e
            /\ Aggregators.langident_counts raw = inl e).
  { unfold Aggregators.counts_for_canonical_issue,
      Aggregators.counts_for_rebuilt, Aggregators.entities_counts,
      Aggregators.langident_counts.
    destruct raw as [ | | | | |d]; cbn [id_error] in H;
      try (injection H as <-; repeat split; reflexivity).
    cbn [getitem].
    destruct (dict_get d (VStr "id")) as [[ | | | s | | ]|];
      try (injection H as <-; repeat split; reflexivity).
    cbn [bind split ret].
    pose proof (str_split_nonempty "-" s) as Hne.
    destruct (str_split "-" s) as [|a [|b l]]; try congruence;
      cbn [length Nat.ltb Nat.leb] in H; [|discriminate].
    injection H as <-.
    repeat split; try reflexivity. intros [] []; reflexivity. }
  destruct Hfirst as (H1 & H2 & H3 & H4).
  repeat split; auto.
  - unfold Aggregators.counts_for_canonical_issue.
    now rewrite !getitem_drop_id by discriminate.
  - unfold Aggregators.solr_counts.
    now rewrite !getitem_drop_id by discriminate.
Qed.

Lemma extractors_reading_the_id_raise_witness :
  id_error nzz_issue = Some IndexError
  /\ Aggregators.counts_for_canonical_issue nzz_issue true = inl IndexError
  /\ Aggregators.entities_counts nzz_issue = inl IndexError.
Proof.
  split; [reflexivity|].
  pose proof (extractors_reading_the_id_raise nzz_issue IndexError eq_refl)
    as (H1 & _ & H3 & _).
  split; assumption.
Defined.

Example missing_id_raises_KeyError :
  Aggregators.counts_for_rebuilt (VDict [(VStr "ft", VStr "some text")])
    true false
  = inl KeyError.
Proof. reflexivity. Qed.

(** ** C2 and C6: the entity pipeline *)

Definition mention (w : Val) : Val := VDict [(VStr "wkd_id", w)].

(** An item with two mentions, linked to two distinct entities. *)
Definition two_entity_item : Val :=
  VDict [(VStr "id", VStr "NZZ-1900-01-01-a-i0001");
         (VStr "nes", VList [mention (VStr "Q1"); mention (VStr "Q2")])].

(** An item with one mention, linked to no entity. *)
Definition unlinked_item : Val :=
  VDict [(VStr "id", VStr "NZZ-1900-01-01-a-i0002");
         (VStr "nes", VList [mention (VStr "NIL")])].

(** C2 at its failing input.  The Count Record of [two_entity_item] has
    [content_items_out] 1 and [ne_mentions] 2; [explode] turns its row
    into one row per entity, each with these values, and the sums of the
    group come out as 2 and 4. *)
Theorem entities_sums_count_exploded_rows :
  Aggregators.entities_counts two_entity_item
  = inr (VDict [(VStr "np_id", VStr "NZZ"); (VStr "year", VStr "1900");
                (VStr "issues", VStr "NZZ-1900-01-01-a");
                (VStr "content_items_out", VInt 1);
                (VStr "ne_mentions", VInt 2);
                (VStr "ne_entities", VList [VStr "Q1"; VStr "Q2"])])
  /\ snd (Aggregators.compute_stats_in_entities_bag [[two_entity_item]] None)
     = inr [VDict [(VStr "np_id", VStr "NZZ"); (VStr "year", VStr "1900");
                   (VStr "issues", VInt 1);
                   (VStr "content_items_out", VInt 2);
                   (VStr "ne_mentions", VInt 4);
                   (VStr "ne_entities", VInt 2)]].
Proof. split; vm_compute; reflexivity. Qed.

(** C6 at its failing input.  The Count Record of [unlinked_item] has no
    linked entity; [explode] turns the empty list into a row holding the
    missing value, which [tunique] counts as one value: the group comes
    out with one entity. *)
Theorem entities_empty_list_counted :
  Aggregators.entities_counts unlinked_item
  = inr (VDict [(VStr "np_id", VStr "NZZ"); (VStr "year", VStr "1900");
                (VStr "issues", VStr "NZZ-1900-01-01-a");
                (VStr "content_items_out", VInt 1);
                (VStr "ne_mentions", VInt 1);
                (VStr "ne_entities", VList [])])
  /\ snd (Aggregators.compute_stats_in_entities_bag [[unlinked_item]] None)
     = inr [VDict [(VStr "np_id", VStr "NZZ"); (VStr "year", VStr "1900");
                   (VStr "issues", VInt 1);
                   (VStr "content_items_out", VInt 1);
                   (VStr "ne_mentions", VInt 1);
                   (VStr "ne_entities", VInt 1)]].
Proof. split; vm_compute; reflexivity. Qed.

(** The example of the specification: two items of one group linked to
    [Q1, Q2] and to [Q2, Q3] give three distinct entities (and, the rows
    being exploded, [content_items_out] 4 for two items). *)
Example entities_Q1_Q2_Q3 :
  snd (Aggregators.compute_stats_in_entities_bag
         [[two_entity_item];
          [VDict [(VStr "id", VStr "NZZ-1900-01-02-a-i0001");
                  (VStr "nes",
                   VList [mention (VStr "Q2"); mention (VStr "Q3")])]]]
         None)
  = inr [VDict [(VStr "np_id", VStr "NZZ"); (VStr "year", VStr "1900");
                (VStr "issues", VInt 2);
                (VStr "content_items_out", VInt 4);
                (VStr "ne_mentions", VInt 8);
                (VStr "ne_entities", VInt 3)]].
Proof. vm_compute. reflexivity. Qed.

(** ** C7: the language frequency distribution *)

(** A language-identification item with a plain language code. *)
Definition french_item : Val :=
  VDict [(VStr "id", VStr "NZZ-1900-01-01-a-i0001");
         (VStr "tp", VStr "ar");
         (VStr "lg", VStr "fr")].

(** A language-identification item whose language is the text of a
    frequency distribution. *)
Definition serialized_fd_item : Val :=
  VDict [(VStr "id", VStr "NZZ-1900-01-01-a-i0001");
         (VStr "tp", VStr "ar");
         (VStr "lg", VStr "{'fr': 2}")].

(** C7 at its failing input.  The extractor gives [french_item] the Count
    Record the claim describes, with [lang_fd] the language code.  The
    aggregation collects the labels of the group into a list, and [freq]
    hands that list, not a string, to [literal_eval], which raises
    [ValueError]: the pipeline returns no Statistics Record, where the
    claim has one with the frequency count [{'fr': 1}].  The item whose
    label is the text of a frequency distribution fares the same. *)
Theorem langident_freq_rejects_collected_list :
  Aggregators.langident_counts french_item
  = inr (VDict [(VStr "np_id", VStr "NZZ"); (VStr "year", VStr "1900");
                (VStr "issues", VStr "NZZ-1900-01-01-a");
                (VStr "content_items_out", VInt 1);
                (VStr "images", VInt 0);
                (VStr "lang_fd", VStr "fr")])
  /\ snd (Aggregators.compute_stats_in_langident_bag [[french_item]] None)
     = inl ValueError
  /\ Aggregators.langident_counts serialized_fd_item
     = inr (VDict [(VStr "np_id", VStr "NZZ"); (VStr "year", VStr "1900");
                   (VStr "issues", VStr "NZZ-1900-01-01-a");
                   (VStr "content_items_out", VInt 1);
                   (VStr "images", VInt 0);
                   (VStr "lang_fd", VStr "{'fr': 2}")])
  /\ snd (Aggregators.compute_stats_in_langident_bag [[serialized_fd_item]]
            None)
     = inl ValueError.
Proof. repeat split; vm_compute; reflexivity. Qed.

(** The extractor on every well-formed item: [content_items_out] 1,
    [images] 1 exactly when the type is ["img"], [lang_fd] the language
    code or the string ["None"]. *)
Lemma langident_counts_fields (ci : Val) (id : string) (tp : Val)
  (lg : option string) :
  langident_item ci id tp lg ->
  exists counts : Val,
    Aggregators.langident_counts ci = inr counts
    /\ getitem counts "content_items_out" = inr (VInt 1)
    /\ getitem counts "images"
       = inr (VInt (if val_eqb tp (VStr "img") then 1 else 0))
    /\ getitem counts "lang_fd" = inr (VStr (label_of lg)).
Proof.
  intros Hwf. exists (langident_counts_of id tp lg).
  split; [now apply langident_counts_wf|]. repeat split; reflexivity.
Qed.

(** A bag of three items in two partitions. *)
Definition langident_bag : Bag Val :=
  [[VDict [(VStr "id", VStr "NZZ-1900-01-01-a-i0001");
           (VStr "tp", VStr "ar"); (VStr "lg", VStr "fr")];
    VDict [(VStr "id", VStr "NZZ-1900-01-01-a-i0002");
           (VStr "tp", VStr "img"); (VStr "lg", VNone)]];
   [VDict [(VStr "id", VStr "NZZ-1900-01-02-a-i0001");
           (VStr "tp", VStr "ar"); (VStr "lg", VStr "fr")]]].

Example langident_bag_result :
  snd (Aggregators.compute_stats_in_langident_bag langident_bag None)
  = inl ValueError.
Proof. vm_compute. reflexivity. Qed.

(* ================================================================== *)
(** * Part III: further properties of the code                         *)
(* ================================================================== *)

(** ** [utils.py]: further properties *)

(** *** [chunk] with a chunk size that is not positive *)

(** X1.  A chunk size of zero is refused by [range]; with a negative one the
    range is empty and the generator yields nothing, whatever the list. *)
Theorem chunk_nonpositive_size (A : Type) (l : list A) (chunksize : Z) :
  (chunksize <= 0)%Z ->
  Utils.chunk l chunksize
  = if (chunksize =? 0)%Z then raise ValueError else ret [].
Proof.
  intros Hn. unfold Utils.chunk, range.
  destruct (Z.eqb_spec chunksize 0) as [E|N]; [reflexivity|].
  destruct (Z.ltb_spec 0 chunksize); [lia|].
  cbn [bind ret].
  assert (Hq : ((0 - Z.of_nat (length l) - chunksize - 1) / - chunksize
                <= 0)%Z).
  { destruct (Z.le_gt_cases 0 (0 - Z.of_nat (length l) - chunksize - 1)).
    - rewrite Z.div_small by lia. lia.
    - apply Z.lt_le_incl, Z.div_lt_upper_bound; lia. }
  replace (Z.to_nat ((0 - Z.of_nat (length l) - chunksize - 1) / - chunksize))
    with 0%nat by lia.
  reflexivity.
Qed.

Lemma chunk_nonpositive_size_witness :
  Utils.chunk [1; 2; 3] (-2) = ret [].
Proof. apply (chunk_nonpositive_size nat [1; 2; 3] (-2)). lia. Defined.

(** *** The number of chunks *)

(** X2.  For a positive chunk size there are [ceil(len(l) / chunksize)] chunks:
    none for the empty list, and the list itself as the only chunk when
    it is not empty and no longer than the chunk size. *)
Theorem chunk_count (A : Type) (l : list A) (chunksize : Z) :
  (0 < chunksize)%Z ->
  exists chunks : list (list A),
    Utils.chunk l chunksize = ret chunks
    /\ Z.of_nat (length chunks)
       = ((Z.of_nat (length l) + chunksize - 1) / chunksize)%Z
    /\ (l = [] -> chunks = [])
    /\ (l <> [] -> (Z.of_nat (length l) <= chunksize)%Z -> chunks = [l]).
Proof.
  intros Hn. rewrite chunk_pos by assumption. eexists. split; [reflexivity|].
  rewrite length_map, length_seq.
  assert (Hq : (0 <= (Z.of_nat (length l) + chunksize - 1) / chunksize)%Z)
    by (apply Z.div_pos; lia).
  split; [lia|]. split.
  - intros ->. cbn [length Z.of_nat]. rewrite Z.div_small by lia. reflexivity.
  - intros Hne Hle.
    assert (Hlen : 0 < length l) by (destruct l; [congruence | cbn; lia]).
    replace ((Z.of_nat (length l) + chunksize - 1) / chunksize)%Z with 1%Z.
    + change (Z.to_nat 1) with 1%nat. cbn [seq map]. unfold nth_chunk.
      cbn [Nat.mul skipn]. rewrite firstn_all2 by lia. reflexivity.
    + apply Z.div_unique with (r := (Z.of_nat (length l) - 1)%Z); lia.
Qed.

Lemma chunk_count_witness :
  exists chunks : list (list nat),
    Utils.chunk [1; 2; 3; 4; 5; 6; 7] 3 = ret chunks
    /\ Z.of_nat (length chunks) = 3%Z.
Proof.
  destruct (chunk_count nat [1; 2; 3; 4; 5; 6; 7] 3) as (chunks & H & Hc & _).
  - lia.
  - exists chunks. split; [exact H | exact Hc].
Defined.

(** *** [user_confirmation] *)

(** The answer a line gives, if it gives one: yes or no, in any case and
    abbreviated or not, or the default on an empty line. *)
Definition answer_of (default : option string) (line : string)
  : option bool :=
  let choice := Utils.lower line in
  if String.eqb choice "yes" || String.eqb choice "y" then Some true
  else if String.eqb choice "no" || String.eqb choice "n" then Some false
  else if String.eqb line EmptyString then
    match default with
    | Some d => if String.eqb d "yes" then Some true
                else if String.eqb d "no" then Some false else None
    | None => None
    end
  else None.

(** What the rounds on the lines [junk] write. *)
Definition rounds (question prompt : string) (junk : list string)
  : list string :=
  flat_map (fun _ => [String.append question prompt; Utils.reminder]) junk.

Lemma lower_empty (s : string) :
  String.eqb (Utils.lower s) EmptyString = String.eqb s EmptyString.
Proof. destruct s; reflexivity. Qed.

Lemma lookup_valid (choice : string) :
  Utils.lookup Utils.valid choice
  = if String.eqb choice "yes" || String.eqb choice "y" then Some true
    else if String.eqb choice "no" || String.eqb choice "n" then Some false
    else None.
Proof.
  unfold Utils.valid. cbn [Utils.lookup].
  rewrite (String.eqb_sym "yes"), (String.eqb_sym "y"),
    (String.eqb_sym "no"), (String.eqb_sym "n").
  destruct (String.eqb choice "yes"), (String.eqb choice "y"),
    (String.eqb choice "no"), (String.eqb choice "n"); reflexivity.
Qed.

(** One round of the loop, in terms of [answer_of]. *)
Lemma confirmation_loop_step (question prompt : string)
  (default : option string) (line : string) (rest out : list string) :
  Utils.prompt_of default = inr prompt ->
  Utils.confirmation_loop question prompt default (line :: rest) out
  = match answer_of default line with
    | Some b => ((rest, out ++ [String.append question prompt]), inr b)
    | None =>
        Utils.confirmation_loop question prompt default rest
          ((out ++ [String.append question prompt]) ++ [Utils.reminder])
    end.
Proof.
  intros Hp. cbn [Utils.confirmation_loop]. unfold answer_of.
  rewrite lower_empty, !lookup_valid.
  destruct (String.eqb_spec line EmptyString) as [->|Hline].
  - cbn [Utils.lower String.eqb orb].
    destruct default as [d|]; [|reflexivity].
    unfold Utils.prompt_of in Hp.
    destruct (String.eqb_spec d "yes") as [->|Hy]; [reflexivity|].
    destruct (String.eqb_spec d "no") as [->|Hn]; [reflexivity|].
    discriminate.
  - destruct default;
      destruct (String.eqb (Utils.lower line) "yes"
                || String.eqb (Utils.lower line) "y"); try reflexivity;
      destruct (String.eqb (Utils.lower line) "no"
                || String.eqb (Utils.lower line) "n"); reflexivity.
Qed.

Lemma confirmation_loop_junk (question prompt : string)
  (default : option string) (junk tail out : list string) :
  Utils.prompt_of default = inr prompt ->
  Forall (fun l => answer_of default l = None) junk ->
  Utils.confirmation_loop question prompt default (junk ++ tail) out
  = Utils.confirmation_loop question prompt default tail
      (out ++ rounds question prompt junk).
Proof.
  intros Hp Hjunk. revert out.
  induction Hjunk as [|l junk Hl _ IH]; intros out.
  - cbn [app rounds flat_map]. now rewrite app_nil_r.
  - cbn [app]. rewrite confirmation_loop_step, Hl by assumption.
    rewrite IH. f_equal. unfold rounds. cbn [flat_map].
    now rewrite <- !app_assoc.
Qed.

(** X3.  The answer is that of the first line that gives one; every line
    before it is answered by the reminder and the question again, and the
    lines after it stay on the input. *)
Theorem user_confirmation_first_answer
  (question prompt : string) (default : option string)
  (junk : list string) (line : string) (rest : list string) (b : bool)
  (w : Utils.World) :
  Utils.prompt_of default = inr prompt ->
  Utils.stdin w = junk ++ line :: rest ->
  Forall (fun l => answer_of default l = None) junk ->
  answer_of default line = Some b ->
  Utils.user_confirmation question default w
  = ({| Utils.stdin := rest;
        Utils.stdout := Utils.stdout w ++ rounds question prompt junk
                        ++ [String.append question prompt];
        Utils.log := Utils.log w |},
     inr b).
Proof.
  intros Hp Hin Hjunk Hline. unfold Utils.user_confirmation.
  rewrite Hp, Hin, confirmation_loop_junk by assumption.
  rewrite confirmation_loop_step, Hline by assumption.
  now rewrite <- app_assoc.
Qed.

Lemma user_confirmation_first_answer_witness :
  Utils.user_confirmation "Proceed?" (Some "no")
    {| Utils.stdin := ["maybe"; "YES"; "n"]; Utils.stdout := [];
       Utils.log := [] |}
  = ({| Utils.stdin := ["n"];
        Utils.stdout := ["Proceed? [y/N] "; Utils.reminder;
                         "Proceed? [y/N] "];
        Utils.log := [] |},
     inr true).
Proof.
  apply (user_confirmation_first_answer "Proceed?" " [y/N] " (Some "no")
           ["maybe"] "YES" ["n"] true
           {| Utils.stdin := ["maybe"; "YES"; "n"]; Utils.stdout := [];
              Utils.log := [] |}).
  - reflexivity.
  - reflexivity.
  - repeat constructor.
  - reflexivity.
Defined.

(** X4.  When no line gives an answer the function asks once more than there
    are lines and [input()] raises [EOFError]. *)
Theorem user_confirmation_end_of_input
  (question prompt : string) (default : option string) (w : Utils.World) :
  Utils.prompt_of default = inr prompt ->
  Forall (fun l => answer_of default l = None) (Utils.stdin w) ->
  Utils.user_confirmation question default w
  = ({| Utils.stdin := [];
        Utils.stdout := Utils.stdout w
                        ++ rounds question prompt (Utils.stdin w)
                        ++ [String.append question prompt];
        Utils.log := Utils.log w |},
     inl Utils.EOFError).
Proof.
  intros Hp Hjunk. unfold Utils.user_confirmation. rewrite Hp.
  rewrite <- (app_nil_r (Utils.stdin w)) at 1.
  rewrite confirmation_loop_junk by assumption.
  cbn [Utils.confirmation_loop]. now rewrite <- app_assoc.
Qed.

Lemma user_confirmation_end_of_input_witness :
  Utils.user_confirmation "Proceed?" None
    {| Utils.stdin := [""; "maybe"]; Utils.stdout := []; Utils.log := [] |}
  = ({| Utils.stdin := [];
        Utils.stdout := ["Proceed? [y/n] "; Utils.reminder;
                         "Proceed? [y/n] "; Utils.reminder;
                         "Proceed? [y/n] "];
        Utils.log := [] |},
     inl Utils.EOFError).
Proof.
  apply (user_confirmation_end_of_input "Proceed?" " [y/n] " None
           {| Utils.stdin := [""; "maybe"]; Utils.stdout := [];
              Utils.log := [] |}).
  - reflexivity.
  - repeat constructor.
Defined.

Lemma confirmation_loop_no_builtin (question prompt : string)
  (default : option string) (lines out : list string) (e : PyError) :
  Utils.prompt_of default = inr prompt ->
  snd (Utils.confirmation_loop question prompt default lines out)
  <> inl (Utils.Builtin e).
Proof.
  intros Hp. revert out. induction lines as [|l lines IH]; intros out.
  - cbn. discriminate.
  - rewrite confirmation_loop_step by assumption.
    destruct (answer_of default l); [cbn; discriminate | apply IH].
Qed.

(** Whether [default] is one of [None], ["yes"], ["no"]. *)
Definition default_ok (default : option string) : bool :=
  match default with
  | None => true
  | Some d => String.eqb d "yes" || String.eqb d "no"
  end.

(** X5.  [ValueError] is raised for a default other than [None], ["yes"] and
    ["no"], before anything is written or read.  With one of these three
    no built-in exception is ever raised: the lookups [valid[default]] and
    [valid[choice]] cannot fail. *)
Theorem user_confirmation_value_error
  (question : string) (default : option string) (w : Utils.World) :
  if default_ok default
  then forall e : PyError,
         snd (Utils.user_confirmation question default w)
         <> inl (Utils.Builtin e)
  else Utils.user_confirmation question default w
       = (w, inl (Utils.Builtin ValueError)).
Proof.
  unfold Utils.user_confirmation.
  destruct (Utils.prompt_of default) as [x|p] eqn:Hp.
  - unfold Utils.prompt_of, default_ok in *.
    destruct default as [d|]; [|discriminate].
    destruct (String.eqb d "yes"); [discriminate|].
    destruct (String.eqb d "no"); [discriminate|].
    now injection Hp as <-.
  - assert (Hok : default_ok default = true).
    { unfold Utils.prompt_of, default_ok in *.
      destruct default as [d|]; [|reflexivity].
      destruct (String.eqb d "yes"); [reflexivity|].
      destruct (String.eqb d "no"); [reflexivity | discriminate]. }
    rewrite Hok. intros e.
    pose proof (confirmation_loop_no_builtin question p default
                  (Utils.stdin w) (Utils.stdout w) e Hp) as Hno.
    destruct (Utils.confirmation_loop question p default (Utils.stdin w)
                (Utils.stdout w)) as [[rest out] r].
    exact Hno.
Qed.

(** *** [user_question] *)

(** The question [user_question] asks about a variable. *)
Definition item_question (variable_to_confirm : string) : string :=
  String (ascii_of_nat 9)
    (String.append "Is the following the correct item to work with?"
       (String (ascii_of_nat 10) (String.append "  " variable_to_confirm))).

(** X6.  [user_question] returns when the first answer given is a yes, and
    exits when it is a no; an empty line is no answer.  Either way it
    logs what happened. *)
Theorem user_question_confirms_or_exits
  (variable_to_confirm : string) (junk : list string) (line : string)
  (rest : list string) (b : bool) (w : Utils.World) :
  Utils.stdin w = junk ++ line :: rest ->
  Forall (fun l => answer_of None l = None) junk ->
  answer_of None line = Some b ->
  Utils.user_question variable_to_confirm w
  = ({| Utils.stdin := rest;
        Utils.stdout :=
          Utils.stdout w
          ++ rounds (item_question variable_to_confirm) " [y/n] " junk
          ++ [String.append (item_question variable_to_confirm) " [y/n] "];
        Utils.log :=
          Utils.log w
          ++ [if b then "Variable confirmed."
              else "Variable not confirmed, exiting."] |},
     if b then inr tt else inl Utils.SystemExit).
Proof.
  intros Hin Hjunk Hline. unfold Utils.user_question.
  fold (item_question variable_to_confirm).
  unfold Utils.user_confirmation. cbn [Utils.prompt_of].
  rewrite Hin, confirmation_loop_junk by (assumption || reflexivity).
  rewrite confirmation_loop_step, Hline by reflexivity.
  rewrite <- app_assoc. destruct b; reflexivity.
Qed.

Lemma user_question_confirms_or_exits_witness :
  snd (Utils.user_question "s3://bucket/NZZ"
         {| Utils.stdin := [""; "No"]; Utils.stdout := []; Utils.log := [] |})
  = inl Utils.SystemExit.
Proof.
  rewrite (user_question_confirms_or_exits "s3://bucket/NZZ" [""] "No" []
             false
             {| Utils.stdin := [""; "No"]; Utils.stdout := [];
                Utils.log := [] |});
    [reflexivity | reflexivity | repeat constructor | reflexivity].
Defined.

(** *** [get_list_intersection] *)

Lemma mem_In (x : Val) (l : list Val) : mem x l = true <-> In x l.
Proof. apply (mem_by_In val_eqb val_eqb_eq). Qed.

(** What the function computes on hashable values, and what is in it. *)
Lemma get_list_intersection_hashable (list1 list2 : list Val) :
  forallb hashable list1 = true ->
  forallb hashable list2 = true ->
  Utils.get_list_intersection list1 list2
  = inr (dedup (filter (fun x => mem x (dedup list1)) list2)).
Proof.
  intros H1 H2.
  unfold Utils.get_list_intersection, set_of, Utils.set_intersection.
  rewrite H1. cbn [bind ret]. now rewrite H2.
Qed.

Lemma intersection_In (list1 list2 : list Val) (x : Val) :
  In x (dedup (filter (fun x => mem x (dedup list1)) list2))
  <-> In x list1 /\ In x list2.
Proof. rewrite dedup_In, filter_In, mem_In, dedup_In. tauto. Qed.

(** X7.  On lists of hashable values the result holds each common element
    once: it has no duplicate, and a value is in it exactly when it is in
    both lists.  So it is no longer than either list. *)
Theorem get_list_intersection_members (list1 list2 : list Val) :
  forallb hashable list1 = true ->
  forallb hashable list2 = true ->
  exists r : list Val,
    Utils.get_list_intersection list1 list2 = inr r
    /\ NoDup r
    /\ (forall x, In x r <-> In x list1 /\ In x list2)
    /\ length r <= length list1
    /\ length r <= length list2.
Proof.
  intros H1 H2. rewrite get_list_intersection_hashable by assumption.
  eexists. split; [reflexivity|].
  split; [apply dedup_NoDup|]. split; [apply intersection_In|].
  split; apply NoDup_incl_length; try apply dedup_NoDup;
    intros x Hx; apply intersection_In in Hx; tauto.
Qed.

Lemma get_list_intersection_members_witness :
  exists r : list Val,
    Utils.get_list_intersection
      [VStr "GDL"; VStr "NZZ"; VStr "GDL"; VStr "JDG"]
      [VStr "NZZ"; VStr "IMP"; VStr "GDL"; VStr "NZZ"] = inr r
    /\ NoDup r
    /\ length r <= 4.
Proof.
  destruct (get_list_intersection_members
              [VStr "GDL"; VStr "NZZ"; VStr "GDL"; VStr "JDG"]
              [VStr "NZZ"; VStr "IMP"; VStr "GDL"; VStr "NZZ"]
              eq_refl eq_refl) as (r & Hr & Hnd & _ & Hlen & _).
  exists r. split; [exact Hr|]. split; [exact Hnd | exact Hlen].
Defined.

(** X8.  The function raises exactly when one of the lists holds an unhashable
    value (a list or a dict), and then it raises [TypeError]. *)
Theorem get_list_intersection_unhashable (list1 list2 : list Val) :
  if forallb hashable (list1 ++ list2)
  then exists r, Utils.get_list_intersection list1 list2 = inr r
  else Utils.get_list_intersection list1 list2 = inl TypeError.
Proof.
  unfold Utils.get_list_intersection, set_of, Utils.set_intersection.
  rewrite forallb_app.
  destruct (forallb hashable list1); cbn [andb bind ret raise];
    [|reflexivity].
  destruct (forallb hashable list2); [eauto | reflexivity].
Qed.

(** X9.  Swapping the arguments gives the same elements (the order of the
    result is that of a set), and intersecting a list with itself gives
    its distinct elements. *)
Theorem get_list_intersection_symmetric (list1 list2 : list Val) :
  forallb hashable list1 = true ->
  forallb hashable list2 = true ->
  exists r r' s : list Val,
    Utils.get_list_intersection list1 list2 = inr r
    /\ Utils.get_list_intersection list2 list1 = inr r'
    /\ Permutation r r'
    /\ Utils.get_list_intersection list1 list1 = inr s
    /\ Permutation s (dedup list1).
Proof.
  intros H1 H2.
  rewrite !get_list_intersection_hashable by assumption.
  eexists _, _, _. split; [reflexivity|]. split; [reflexivity|].
  split; [|split; [reflexivity|]];
    apply NoDup_Permutation; try apply dedup_NoDup; intros x;
    rewrite ?intersection_In, ?dedup_In; tauto.
Qed.

Lemma get_list_intersection_symmetric_witness :
  exists r r' : list Val,
    Utils.get_list_intersection [VInt 1; VInt 2; VInt 3] [VInt 3; VInt 1]
    = inr r
    /\ Utils.get_list_intersection [VInt 3; VInt 1] [VInt 1; VInt 2; VInt 3]
       = inr r'
    /\ Permutation r r'.
Proof.
  destruct (get_list_intersection_symmetric
              [VInt 1; VInt 2; VInt 3] [VInt 3; VInt 1] eq_refl eq_refl)
    as (r & r' & _ & Hr & Hr' & Hp & _).
  exists r, r'. split; [exact Hr|]. split; [exact Hr' | exact Hp].
Defined.

(** ** The entity pipeline *)

Definition entities_meta : list (string * dtype) :=
  [("np_id", dt_str); ("year", dt_str); ("issues", dt_str);
   ("content_items_out", dt_int); ("ne_mentions", dt_int);
   ("ne_entities", dt_object)].

Definition entities_cols : list ColSpec :=
  [tunique_col "issues"; sum_col "content_items_out"; sum_col "ne_mentions";
   tunique_col "ne_entities"].

(** The Count Record of an entity item. *)
Definition entity_record (np y i : string) (m : Z) (ents : list Val) : Val :=
  VDict [(VStr "np_id", VStr np); (VStr "year", VStr y);
         (VStr "issues", VStr i); (VStr "content_items_out", VInt 1);
         (VStr "ne_mentions", VInt m); (VStr "ne_entities", VList ents)].

Lemma sorted_hashable (l r : list Val) :
  forallb hashable l = true -> sorted l = inr r -> forallb hashable r = true.
Proof.
  unfold sorted. intros Hl H.
  assert (Hz : forall zs : list Z, forallb hashable (map VInt zs) = true)
    by (induction zs; cbn; auto).
  assert (Hs : forall ss : list string, forallb hashable (map VStr ss) = true)
    by (induction ss; cbn; auto).
  destruct l as [|x [|y l]];
    [injection H as <-; exact Hl | destruct x; injection H as <-; exact Hl |].
  destruct x; inv_bind; injection H as <-; auto.
Qed.

Lemma set_of_hashable (l r : list Val) :
  set_of l = inr r -> forallb hashable r = true.
Proof.
  unfold set_of. destruct (forallb hashable l) eqn:E; [|discriminate].
  intros H. injection H as <-. rewrite forallb_forall in *.
  intros x Hx. apply E. now apply dedup_In.
Qed.

Lemma entities_counts_shape (ci c : Val) :
  Aggregators.entities_counts ci = inr c ->
  exists (np y i : string) (m : Z) (ents : list Val),
    c = entity_record np y i m ents /\ forallb hashable ents = true.
Proof.
  unfold Aggregators.entities_counts. intros H. inv_bind.
  injection H as <-.
  match goal with
  | Hs : set_of _ = inr _, H : sorted _ = inr _ |- _ =>
      apply sorted_hashable in H; [|exact (set_of_hashable _ _ Hs)]
  end.
  unfold entity_record. do 5 eexists. split; [reflexivity | eassumption].
Qed.

(** The rows [explode] makes of a Count Record, as Count Records: one per
    linked entity, or one holding the missing value when there is none. *)
Definition exploded (c : Val) : list Val :=
  match c with
  | VDict d =>
      match field "ne_entities" c with
      | VList [] => [VDict (dict_set d (VStr "ne_entities") VNaN)]
      | VList l => map (fun x => VDict (dict_set d (VStr "ne_entities") x)) l
      | _ => [c]
      end
  | _ => [c]
  end.

Definition entities_row (c : Val) : Row := row_of (map fst entities_meta) c.

Lemma exploded_good (np y i : string) (m : Z) (ents : list Val) (c : Val) :
  forallb hashable ents = true ->
  In c (exploded (entity_record np y i m ents)) ->
  good_record entities_meta np_year entities_cols c
  /\ rec_key np_year c = [VStr np; VStr y]
  /\ field "issues" c = VStr i
  /\ field "content_items_out" c = VInt 1
  /\ field "ne_mentions" c = VInt m.
Proof.
  intros Hh Hc.
  assert (Hx : exists x,
             hashable x = true
             /\ c = VDict [(VStr "np_id", VStr np); (VStr "year", VStr y);
                           (VStr "issues", VStr i);
                           (VStr "content_items_out", VInt 1);
                           (VStr "ne_mentions", VInt m);
                           (VStr "ne_entities", x)]).
  { rewrite forallb_forall in Hh. destruct ents as [|e ents].
    - destruct Hc as [<-|[]]. exists VNaN. split; reflexivity.
    - change (In c (map (fun x =>
                           VDict [(VStr "np_id", VStr np);
                                  (VStr "year", VStr y);
                                  (VStr "issues", VStr i);
                                  (VStr "content_items_out", VInt 1);
                                  (VStr "ne_mentions", VInt m);
                                  (VStr "ne_entities", x)]) (e :: ents)))
        in Hc.
      apply in_map_iff in Hc as (x & <- & Hx). exists x.
      split; [now apply Hh | reflexivity]. }
  destruct Hx as (x & Hx & ->).
  split; [|repeat split].
  repeat split;
    [ eexists; reflexivity
    | intros c ty Hc'; cbn in Hc';
      repeat (destruct Hc' as [Hc'|Hc']; [inversion Hc'; subst; reflexivity|]);
      try discriminate; contradiction
    | intros cs Hcs; cbn in Hcs;
      repeat (destruct Hcs as [Hcs|Hcs]; [subst cs; try reflexivity|]);
      try contradiction ].
  exact Hx.
Qed.

(** A Count Record of the entity extractor. *)
Definition is_entity_record (c : Val) : Prop :=
  exists (np y i : string) (m : Z) (ents : list Val),
    c = entity_record np y i m ents /\ forallb hashable ents = true.

Lemma map_column_entity_row (c : Val) :
  is_entity_record c ->
  (v <- cell (entities_row c) "ne_entities" ;;
   w <- ret (match v with VList _ => v | _ => VList [v] end) ;;
   ret (row_set (entities_row c) "ne_entities" w))
  = inr (entities_row c).
Proof. intros (np & y & i & m & ents & -> & _). reflexivity. Qed.

Lemma explode_entity_row (c : Val) :
  is_entity_record c ->
  explode_row "ne_entities" (entities_row c)
  = inr (map entities_row (exploded c)).
Proof.
  intros (np & y & i & m & ents & -> & _).
  destruct ents as [|e ents]; [reflexivity|].
  cbn. unfold ret. do 2 f_equal. rewrite map_map. apply map_ext.
  reflexivity.
Qed.

Lemma to_row_exploded (c c' : Val) :
  is_entity_record c -> In c' (exploded c) ->
  to_row entities_meta c' = inr (entities_row c').
Proof.
  intros (np & y & i & m & ents & -> & Hh) Hin.
  destruct (exploded_good np y i m ents c' Hh Hin)
    as ((Hd & Hint & _) & _).
  now apply to_row_ok.
Qed.

Lemma to_row_entity (c : Val) :
  is_entity_record c -> to_row entities_meta c = inr (entities_row c).
Proof. intros (np & y & i & m & ents & -> & _). reflexivity. Qed.

(** The frame the entity pipeline aggregates is the frame of the exploded
    Count Records. *)
Lemma entities_frame (recs : Bag Val) :
  Forall is_entity_record (concat recs) ->
  (df <- to_dataframe entities_meta recs ;;
   df <- map_column "ne_entities"
           (fun x => ret (match x with
                          | VList _ => x
                          | _ => VList [x]
                          end)) df ;;
   explode "ne_entities" df)
  = to_dataframe entities_meta (map (flat_map exploded) recs).
Proof.
  intros Hall. rewrite Forall_forall in Hall.
  unfold to_dataframe.
  rewrite (bag_map_ok _ entities_row)
    by (intros c Hc; apply to_row_entity, Hall, Hc).
  cbn [bind]. unfold map_column.
  rewrite (bag_map_ok _ (fun r => r)).
  2:{ intros r Hr. rewrite <- concat_map in Hr.
      apply in_map_iff in Hr as (c & <- & Hc).
      apply map_column_entity_row, Hall, Hc. }
  cbn [bind]. rewrite map_map.
  rewrite (map_ext _ (map entities_row)) by (intros p; rewrite map_map;
                                              apply map_ext; reflexivity).
  unfold explode. rewrite mapM_map.
  rewrite (mapM_ok _ (fun p => map entities_row (flat_map exploded p))).
  - symmetry. rewrite (bag_map_ok _ entities_row).
    + now rewrite map_map.
    + intros c' Hc'. rewrite <- flat_map_concat_map in Hc'.
      apply in_flat_map in Hc' as (p & Hp & Hc').
      apply in_flat_map in Hc' as (c & Hc & Hc').
      apply (to_row_exploded c); [|assumption].
      apply Hall, in_concat. eauto.
  - intros p Hp. rewrite mapM_map.
    rewrite (mapM_ok _ (fun c => map entities_row (exploded c))).
    + cbn [bind ret]. f_equal.
      rewrite flat_map_concat_map, concat_map, map_map. reflexivity.
    + intros c Hc. apply explode_entity_row, Hall, in_concat. eauto.
Qed.

Definition entities_trace (client : option Client) : list Event :=
  [Print "Finished grouping and aggregating stats by title and year.";
   LogInfo "Finished grouping and aggregating stats by title and year."]
  ++ match client with Some _ => [Progress] | None => [] end.

Lemma exploded_key (c c' : Val) :
  is_entity_record c -> In c' (exploded c) ->
  rec_key np_year c' = rec_key np_year c.
Proof.
  intros (np & y & i & m & ents & -> & Hh) Hin.
  now destruct (exploded_good np y i m ents c' Hh Hin) as (_ & -> & _).
Qed.

Lemma exploded_nonempty (c : Val) : exploded c <> [].
Proof.
  destruct c as [ | | | | |d]; try discriminate. unfold exploded.
  destruct (field "ne_entities" (VDict d)) as [ | | | |[|e l]| ];
    discriminate.
Qed.

(** The entity pipeline, when every item of the bag has a Count Record:
    one Statistics Record per (np_id, year) of the Count Records, reduced
    over the exploded Count Records of the group. *)
Theorem entities_pipeline (bag recs : Bag Val) (client : option Client) :
  bag_map Aggregators.entities_counts bag = inr recs ->
  exists idx : list Key,
    NoDup idx
    /\ (forall k, In k idx <-> In k (map (rec_key np_year) (concat recs)))
    /\ Aggregators.compute_stats_in_entities_bag bag client
       = (entities_trace client,
          inr (stats_records np_year entities_cols
                 (flat_map exploded (concat recs)) idx)).
Proof.
  intros Hbag.
  assert (Hall : Forall is_entity_record (concat recs)).
  { eapply Forall2_Forall_r; [exact (bag_map_concat _ _ _ Hbag)|].
    intros ci c. apply entities_counts_shape. }
  destruct (run_frame entities_meta np_year entities_cols
              (map (flat_map exploded) recs))
    as (idx & df & Hdf & Hagg & Hnd & Hkeys).
  - intros c Hc. cbn in *. tauto.
  - intros cs Hcs. cbn in Hcs.
    repeat (destruct Hcs as [<-|Hcs]; [cbn; tauto|]). contradiction.
  - discriminate.
  - rewrite <- flat_map_concat_map. apply Forall_forall. intros c' Hc'.
    apply in_flat_map in Hc' as (p & Hp & Hc').
    apply in_flat_map in Hc' as (c & Hc & Hc').
    rewrite Forall_forall in Hall.
    destruct (Hall c) as (np & y & i & m & ents & -> & Hh).
    { apply in_concat. eauto. }
    now destruct (exploded_good np y i m ents c' Hh Hc') as (Hg & _).
  - assert (Hflat : concat (map (flat_map exploded) recs)
                    = flat_map exploded (concat recs)).
    { clear. induction recs as [|p recs IH]; [reflexivity|].
      cbn [map concat]. now rewrite flat_map_app, IH. }
    rewrite Hflat in Hagg, Hkeys.
    exists idx. split; [exact Hnd|]. split.
    + intros k. rewrite Hkeys. rewrite Forall_forall in Hall.
      rewrite !in_map_iff. split.
      * intros (c' & <- & Hc'). apply in_flat_map in Hc' as (c & Hc & Hc').
        exists c. split; [|assumption]. symmetry.
        now apply exploded_key; [apply Hall|].
      * intros (c & <- & Hc).
        destruct (exploded c) as [|c' l] eqn:E;
          [now apply exploded_nonempty in E|].
        exists c'. split.
        -- apply exploded_key; [now apply Hall|]. rewrite E. now left.
        -- apply in_flat_map. exists c. split; [assumption|].
           rewrite E. now left.
    + unfold Aggregators.compute_stats_in_entities_bag.
      rewrite Hbag. cbn [bind].
      fold entities_meta. rewrite (entities_frame recs Hall), Hdf.
      cbn [eff_bind lift print logger_info emit].
      change [("issues", Aggregators.tunique); ("content_items_out", agg_sum);
              ("ne_mentions", agg_sum); ("ne_entities", Aggregators.tunique)]
        with (spec_of entities_cols).
      fold np_year. rewrite Hagg. cbn [bind ret].
      rewrite compute_reset_index.
      destruct client; reflexivity.
Qed.

(** ** The five pipelines together *)

(** The pipelines of [aggregators.py], with the arguments other than the
    bag and the client. *)
Inductive Pipeline : Type :=
| Canonical
| Rebuilt (key : string) (include_np passim : bool)
| Entities
| Langident
| SolrText.

(** The Record Extractor a pipeline maps over its bag. *)
Definition extractor (p : Pipeline) (x : Val) : Err Val :=
  match p with
  | Canonical => Aggregators.counts_for_canonical_issue x true
  | Rebuilt _ include_np passim =>
      Aggregators.counts_for_rebuilt x include_np passim
  | Entities => Aggregators.entities_counts x
  | Langident => Aggregators.langident_counts x
  | SolrText => Aggregators.solr_counts x
  end.

Definition run (p : Pipeline) (bag : Bag Val) (client : option Client)
  : Eff (list Val) :=
  match p with
  | Canonical => Aggregators.compute_stats_in_canonical_bag bag client
  | Rebuilt key include_np passim =>
      Aggregators.compute_stats_in_rebuilt_bag bag key include_np passim
        client
  | Entities => Aggregators.compute_stats_in_entities_bag bag client
  | Langident => Aggregators.compute_stats_in_langident_bag bag client
  | SolrText => Aggregators.compute_stats_in_solr_text_bag bag client
  end.

(** The columns a pipeline groups by. *)
Definition group_by (p : Pipeline) : list string :=
  match p with
  | Rebuilt _ include_np _ => rebuilt_by include_np
  | _ => np_year
  end.

(** The Raw Records a pipeline is written for: those its extractor
    accepts, with a language that is a string or null for the langident
    pipeline, and with a journal and a year that are scalars and not null
    for the search-index pipeline. *)
Definition well_formed (p : Pipeline) (x : Val) : Prop :=
  match p with
  | Langident => exists id tp lg, langident_item x id tp lg
  | SolrText => exists j y i, solr_item x j y i
  | _ => exists c, extractor p x = inr c
  end.

Lemma well_formed_extracts (p : Pipeline) (x : Val) :
  well_formed p x -> exists c, extractor p x = inr c.
Proof.
  destruct p; cbn [well_formed extractor]; auto.
  - intros (id & tp & lg & H). rewrite (langident_counts_wf _ _ _ _ H). eauto.
  - intros (j & y & i & H). rewrite (solr_counts_wf _ _ _ _ H). eauto.
Qed.

(** The Count Records of the items of a bag. *)
Definition count_records (p : Pipeline) (bag : Bag Val) : list Val :=
  map (the_counts (extractor p)) (concat bag).

(** The Count Records as the rows of the frame: in the entity pipeline
    the exploded ones, in the search-index pipeline their text form. *)
Definition frame_records (p : Pipeline) (recs : list Val) : list Val :=
  match p with
  | Entities => flat_map exploded recs
  | SolrText => map solr_frame_record recs
  | _ => recs
  end.

(** The record of group [k] in the aggregated frame, from the Count
    Records: the Statistics Record, but in the langident pipeline, where
    [freq] is still to be mapped over it. *)
Definition statistics_record (p : Pipeline) (recs : list Val) (k : Key)
  : Val :=
  match p with
  | Canonical =>
      row_to_dict (combine np_year k ++ stat_row np_year canonical_cols recs k)
  | Rebuilt _ true passim =>
      row_to_dict (combine (rebuilt_by true) k
                   ++ stat_row (rebuilt_by true) (rebuilt_cols passim) recs k)
  | Rebuilt _ false passim =>
      row_to_dict (stat_row (rebuilt_by false) (rebuilt_cols passim) recs k)
  | Entities =>
      row_to_dict (combine np_year k
                   ++ stat_row np_year entities_cols
                        (flat_map exploded recs) k)
  | Langident =>
      row_to_dict (combine np_year k ++ stat_row np_year langident_cols recs k)
  | SolrText =>
      row_to_dict (combine np_year k
                   ++ stat_row np_year solr_cols
                        (map solr_frame_record recs) k)
  end.


Lemma exploded_keys (recs : list Val) (k : Key) :
  Forall is_entity_record recs ->
  In k (map (rec_key np_year) (flat_map exploded recs))
  <-> In k (map (rec_key np_year) recs).
Proof.
  intros Hall. rewrite Forall_forall in Hall. rewrite !in_map_iff. split.
  - intros (c' & <- & Hc'). apply in_flat_map in Hc' as (c & Hc & Hc').
    exists c. split; [|assumption]. symmetry.
    now apply exploded_key; [apply Hall|].
  - intros (c & <- & Hc).
    destruct (exploded c) as [|c' l] eqn:E;
      [now apply exploded_nonempty in E|].
    exists c'. split.
    + apply exploded_key; [now apply Hall|]. rewrite E. now left.
    + apply in_flat_map. exists c. split; [assumption|].
      rewrite E. now left.
Qed.

Lemma langident_or_not (p : Pipeline) : p = Langident \/ p <> Langident.
Proof. destruct p; auto; right; discriminate. Qed.

(** What a pipeline other than the langident one returns on a bag of
    well-formed Raw Records: one Statistics Record per Group Key of the
    rows of the frame. *)
Lemma pipeline_output (p : Pipeline) (bag : Bag Val)
  (client : option Client) :
  p <> Langident ->
  Forall (well_formed p) (concat bag) ->
  exists idx : list Key,
    NoDup idx
    /\ (forall k, In k idx
                  <-> In k (map (rec_key (group_by p))
                                (frame_records p (count_records p bag))))
    /\ snd (run p bag client)
       = inr (map (statistics_record p (count_records p bag)) idx).
Proof.
  intros Hp Hwf. unfold count_records.
  assert (Hbag : bag_map (extractor p) bag
                 = inr (map (map (the_counts (extractor p))) bag)).
  { apply bag_map_the_counts. intros x Hx. rewrite Forall_forall in Hwf.
    now apply well_formed_extracts, Hwf. }
  rewrite concat_map.
  destruct p as [|key include_np passim| | |];
    cbn [run group_by frame_records] in *.
  - destruct (canonical_pipeline bag _ client Hbag)
      as (idx & Hnd & Hkeys & Hrun).
    exists idx. rewrite Hrun. auto.
  - destruct (rebuilt_pipeline bag _ key include_np passim client Hbag)
      as (idx & Hnd & Hkeys & Hrun).
    exists idx. rewrite Hrun. destruct include_np; auto.
  - destruct (entities_pipeline bag _ client Hbag)
      as (idx & Hnd & Hkeys & Hrun).
    exists idx. rewrite Hrun. split; [exact Hnd|]. split; [|reflexivity].
    intros k. rewrite Hkeys. symmetry. apply exploded_keys.
    eapply Forall2_Forall_r; [exact (bag_map_concat _ _ _ Hbag)|].
    intros ci c. apply entities_counts_shape.
  - congruence.
  - destruct (solr_pipeline bag _ client Hbag Hwf)
      as (idx & Hnd & Hkeys & Hrun).
    exists idx. rewrite Hrun. auto.
Qed.

(** The langident pipeline on a bag of well-formed Raw Records returns
    only when the bag has no item, and then it returns no record. *)
Lemma langident_output (bag : Bag Val) (client : option Client) :
  Forall (well_formed Langident) (concat bag) ->
  snd (run Langident bag client)
  = match concat bag with
    | [] => inr []
    | _ :: _ => inl ValueError
    end.
Proof.
  intros Hwf.
  assert (Hbag : bag_map Aggregators.langident_counts bag
                 = inr (map (map (the_counts Aggregators.langident_counts))
                            bag)).
  { apply bag_map_the_counts. intros x Hx. rewrite Forall_forall in Hwf.
    now apply (well_formed_extracts Langident), Hwf. }
  cbn [run]. rewrite (langident_pipeline bag _ client Hbag).
  rewrite <- concat_map. now destruct (concat bag).
Qed.

(** *** Empty input *)

(** X10.  On a bag without items (no partition, or empty partitions only)
    the canonical, rebuilt, langident and search-index pipelines return
    the empty list. *)
Theorem empty_bag_gives_no_record (p : Pipeline) (bag : Bag Val)
  (client : option Client) :
  p <> Entities ->
  concat bag = [] -> snd (run p bag client) = inr [].
Proof.
  intros Hp Hempty.
  assert (Hwf : Forall (well_formed p) (concat bag))
    by (rewrite Hempty; constructor).
  destruct (langident_or_not p) as [-> | HL].
  { now rewrite (langident_output bag client Hwf), Hempty. }
  destruct (pipeline_output p bag client HL Hwf) as (idx & _ & Hkeys & Hrun).
  unfold count_records in *. rewrite Hempty in *.
  replace (frame_records p (map (the_counts (extractor p)) []))
    with (@nil Val) in Hkeys by (now destruct p).
  cbn [map] in *.
  destruct idx as [|k idx]; [exact Hrun|].
  exfalso. apply (Hkeys k). now left.
Qed.

Lemma empty_bag_gives_no_record_witness :
  snd (Aggregators.compute_stats_in_langident_bag [[]; []] None) = inr [].
Proof.
  apply (empty_bag_gives_no_record Langident [[]; []] None).
  - discriminate.
  - reflexivity.
Defined.

(** *** A record the extractor refuses *)

Lemma mapM_app_bind {A B : Type} (f : A -> Err B) (l1 l2 : list A) :
  mapM f (l1 ++ l2)
  = (ys1 <- mapM f l1 ;; ys2 <- mapM f l2 ;; ret (ys1 ++ ys2)).
Proof.
  induction l1 as [|x l1 IH]; cbn [app mapM bind ret].
  - destruct (mapM f l2); reflexivity.
  - destruct (f x) as [e|y]; [reflexivity|]. cbn [bind]. rewrite IH.
    destruct (mapM f l1) as [e|ys1]; [reflexivity|]. cbn [bind].
    destruct (mapM f l2); reflexivity.
Qed.

(** Mapping over a bag raises what mapping over its items in order
    raises. *)
Lemma bag_map_items {A B : Type} (f : A -> Err B) (b : Bag A) :
  match mapM f (concat b) with
  | inl e => bag_map f b = inl e
  | inr ys => exists recs, bag_map f b = inr recs /\ concat recs = ys
  end.
Proof.
  unfold bag_map. induction b as [|p b IH]; cbn [concat mapM].
  - exists []. split; reflexivity.
  - rewrite mapM_app_bind. destruct (mapM f p) as [e|ys1]; [reflexivity|].
    cbn [bind]. destruct (mapM f (concat b)) as [e|ys2].
    + rewrite IH. reflexivity.
    + destruct IH as (recs & -> & <-). cbn [bind ret].
      exists (ys1 :: recs). split; reflexivity.
Qed.

(** When [f] raises on an element, mapping [f] raises what [f] raises on
    some element. *)
Lemma mapM_some_error {A B : Type} (f : A -> Err B) (l : list A) (x : A)
  (e : PyError) :
  In x l -> f x = inl e ->
  exists (y : A) (e' : PyError),
    In y l /\ f y = inl e' /\ mapM f l = inl e'.
Proof.
  induction l as [|z l IH]; cbn [In mapM]; [contradiction|].
  intros Hin Hx. destruct (f z) as [ez|c] eqn:Ez.
  - exists z, ez. cbn [bind]. auto.
  - destruct Hin as [->|Hin]; [congruence|].
    destruct (IH Hin Hx) as (y & e' & Hy & Hfy & Hmap).
    exists y, e'. rewrite Hmap. cbn [bind]. auto.
Qed.

Lemma run_extractor_error (p : Pipeline) (bag : Bag Val)
  (client : option Client) (e : PyError) :
  bag_map (extractor p) bag = inl e ->
  snd (run p bag client) = inl e.
Proof.
  intros H.
  destruct p; cbn [extractor run] in *;
    unfold Aggregators.compute_stats_in_canonical_bag,
      Aggregators.compute_stats_in_rebuilt_bag,
      Aggregators.compute_stats_in_entities_bag,
      Aggregators.compute_stats_in_langident_bag,
      Aggregators.compute_stats_in_solr_text_bag;
    match goal with
    | |- context [bag_map ?f bag] =>
        assert (H' : bag_map f bag = inl e) by exact H; rewrite H'
    end;
    reflexivity.
Qed.

(** X11.  When the extractor of the canonical, rebuilt, langident or
    search-index pipeline raises on an item of the bag, the pipeline
    returns no Statistics Record: it raises, and what it raises is the
    exception of the extractor on an item of the bag. *)
Theorem refused_record_aborts (p : Pipeline) (bag : Bag Val)
  (client : option Client) (x : Val) (e : PyError) :
  p <> Entities ->
  In x (concat bag) ->
  extractor p x = inl e ->
  exists (y : Val) (e' : PyError),
    In y (concat bag)
    /\ extractor p y = inl e'
    /\ snd (run p bag client) = inl e'.
Proof.
  intros _ Hin Hx.
  destruct (mapM_some_error (extractor p) (concat bag) x e Hin Hx)
    as (y & e' & Hy & Hfy & Hmap).
  exists y, e'. split; [exact Hy|]. split; [exact Hfy|].
  apply run_extractor_error.
  pose proof (bag_map_items (extractor p) bag) as H.
  now rewrite Hmap in H.
Qed.

Lemma refused_record_aborts_witness :
  exists (y : Val) (e' : PyError),
    In y [nzz_issue_1; nzz_issue; nzz_issue_2]
    /\ Aggregators.counts_for_canonical_issue y true = inl e'
    /\ snd (Aggregators.compute_stats_in_canonical_bag
              [[nzz_issue_1]; [nzz_issue; nzz_issue_2]]
              (Some "tcp://scheduler"))
       = inl e'.
Proof.
  apply (refused_record_aborts Canonical
           [[nzz_issue_1]; [nzz_issue; nzz_issue_2]]
           (Some "tcp://scheduler") nzz_issue IndexError).
  - discriminate.
  - cbn. tauto.
  - reflexivity.
Defined.

(** *** The order and the partitioning of the items *)

Lemma statistics_record_Permutation (p : Pipeline) (recs recs' : list Val)
  (k : Key) :
  p <> Langident -> Permutation recs recs' ->
  statistics_record p recs k = statistics_record p recs' k.
Proof.
  intros Hp Hperm.
  assert (Hflat : Permutation (flat_map exploded recs)
                              (flat_map exploded recs'))
    by (apply Permutation_flat_map; exact Hperm).
  assert (Htext : Permutation (map solr_frame_record recs)
                              (map solr_frame_record recs'))
    by (apply Permutation_map; exact Hperm).
  destruct p as [|key [] passim| | |]; cbn [statistics_record];
    try congruence;
    first [ rewrite (stat_row_Permutation _ _ recs recs' k)
          | rewrite (stat_row_Permutation _ _ (flat_map exploded recs)
                       (flat_map exploded recs') k)
          | rewrite (stat_row_Permutation _ _ (map solr_frame_record recs)
                       (map solr_frame_record recs') k) ];
    try reflexivity; try assumption;
    try destruct passim;
    repeat constructor;
    first [apply sum_col_order_free | apply tunique_col_order_free].
Qed.

Lemma frame_records_Permutation (p : Pipeline) (recs recs' : list Val) :
  Permutation recs recs' ->
  Permutation (frame_records p recs) (frame_records p recs').
Proof.
  intros H. destruct p; cbn [frame_records]; try assumption.
  - now apply Permutation_flat_map.
  - now apply Permutation_map.
Qed.

(** X12.  Two bags with the same well-formed items, in any order and
    partitioning: when the two runs return, they return the same
    Statistics Records, up to their order (the langident pipeline is
    left out here). *)
Theorem same_items_same_records (p : Pipeline) (bag bag' : Bag Val)
  (client client' : option Client) (out out' : list Val) :
  p <> Langident ->
  Permutation (concat bag) (concat bag') ->
  Forall (well_formed p) (concat bag) ->
  snd (run p bag client) = inr out ->
  snd (run p bag' client') = inr out' ->
  Permutation out out'.
Proof.
  intros Hp Hperm Hwf Hout Hout'.
  assert (Hwf' : Forall (well_formed p) (concat bag'))
    by (eapply Permutation_Forall; eassumption).
  destruct (pipeline_output p bag client Hp Hwf)
    as (idx & Hnd & Hkeys & Hrun).
  destruct (pipeline_output p bag' client' Hp Hwf')
    as (idx' & Hnd' & Hkeys' & Hrun').
  rewrite Hout in Hrun. injection Hrun as ->.
  rewrite Hout' in Hrun'. injection Hrun' as ->.
  assert (Hrecs : Permutation (count_records p bag) (count_records p bag'))
    by (apply Permutation_map, Hperm).
  assert (Hidx : Permutation idx idx').
  { apply NoDup_Permutation; try assumption. intros k.
    rewrite Hkeys, Hkeys'.
    split; apply Permutation_in, Permutation_map, frame_records_Permutation;
      [|symmetry]; exact Hrecs. }
  rewrite (map_ext _ (statistics_record p (count_records p bag')))
    by (intros k; now apply statistics_record_Permutation).
  now apply Permutation_map.
Qed.

Lemma same_items_same_records_witness :
  Permutation
    [VDict [(VStr "np_id", VStr "NZZ"); (VStr "year", VStr "1900");
            (VStr "issues", VInt 2); (VStr "pages", VInt 5);
            (VStr "content_items_out", VInt 3); (VStr "images", VInt 1)];
     VDict [(VStr "np_id", VStr "GDL"); (VStr "year", VStr "1950");
            (VStr "issues", VInt 1); (VStr "pages", VInt 1);
            (VStr "content_items_out", VInt 0); (VStr "images", VInt 0)]]
    [VDict [(VStr "np_id", VStr "GDL"); (VStr "year", VStr "1950");
            (VStr "issues", VInt 1); (VStr "pages", VInt 1);
            (VStr "content_items_out", VInt 0); (VStr "images", VInt 0)];
     VDict [(VStr "np_id", VStr "NZZ"); (VStr "year", VStr "1900");
            (VStr "issues", VInt 2); (VStr "pages", VInt 5);
            (VStr "content_items_out", VInt 3); (VStr "images", VInt 1)]].
Proof.
  apply (same_items_same_records Canonical
           [[nzz_issue_2; gdl_issue]; [nzz_issue_1]]
           [[gdl_issue; nzz_issue_1; nzz_issue_2]]
           None (Some "tcp://scheduler")).
  - discriminate.
  - cbn. apply perm_trans with [gdl_issue; nzz_issue_2; nzz_issue_1];
      [apply perm_swap | apply perm_skip, perm_swap].
  - repeat constructor; eexists; reflexivity.
  - vm_compute. reflexivity.
  - vm_compute. reflexivity.
Defined.

(** *** The fields of a Statistics Record *)














(** *** Nothing is lost, nothing is counted twice *)








(** *** The canonical pipeline: images and content items *)

Lemma chars_length (s : string) : length (chars s) = String.length s.
Proof. induction s; cbn; auto. Qed.

Lemma len_iter (v : Val) (l : list Val) (n : Z) :
  iter v = inr l -> len v = inr n -> n = Z.of_nat (length l).
Proof.
  destruct v; cbn; try discriminate; intros [= <-] [= <-];
    now rewrite ?length_map, ?chars_length.
Qed.

Lemma list_comp_length {A B : Type} (cond : A -> Err bool) (elt : A -> Err B)
  (l : list A) (r : list B) :
  list_comp cond elt l = inr r -> length r <= length l.
Proof.
  revert r. induction l as [|x l IH]; cbn [list_comp]; intros r H.
  - injection H as <-. reflexivity.
  - apply bind_ret_inv in H as (b & _ & H). destruct b.
    + apply bind_ret_inv in H as (y & _ & H).
      apply bind_ret_inv in H as (ys & Hys & H). injection H as <-.
      cbn [length]. apply IH in Hys. lia.
    + apply IH in H. cbn [length]. lia.
Qed.

(** In a Count Record of a canonical issue the pages are counted from
    zero and the images are among the content items. *)
Lemma canonical_counts_bounds (issue c : Val) :
  Aggregators.counts_for_canonical_issue issue true = inr c ->
  exists (np y : string) (pg n im : Z),
    c = VDict [(VStr "np_id", VStr np); (VStr "year", VStr y);
               (VStr "issues", VInt 1); (VStr "pages", VInt pg);
               (VStr "content_items_out", VInt n); (VStr "images", VInt im)]
    /\ (0 <= pg)%Z /\ (0 <= im <= n)%Z.
Proof.
  unfold Aggregators.counts_for_canonical_issue. intros H. inv_bind.
  injection H as <-.
  match goal with H : ret _ = inr _ |- _ => injection H as <- end.
  repeat match goal with
         | H1 : getitem issue ?k = inr ?a, H2 : getitem issue ?k = inr ?b
           |- _ => assert (a = b) by congruence; subst b; clear H2
         end.
  match goal with
  | Hl : len ?i = inr ?n, Hi : iter ?i = inr ?items,
    Hc : list_comp _ _ ?items = inr ?images |- _ =>
      pose proof (len_iter _ _ _ Hi Hl) as Hn;
      pose proof (list_comp_length _ _ _ _ Hc) as Hle
  end.
  do 5 eexists. split; [reflexivity|]. subst. lia.
Qed.

Lemma zsum_le (f g : Val -> Val) (l : list Val) :
  (forall c, In c l ->
     exists a b : Z, f c = VInt a /\ g c = VInt b /\ (0 <= a <= b)%Z) ->
  (0 <= zsum (map f l) <= zsum (map g l))%Z.
Proof.
  induction l as [|c l IH]; intros H; [cbn; lia|].
  destruct (H c (or_introl eq_refl)) as (a & b & Ha & Hb & Hab).
  specialize (IH (fun c' Hc' => H c' (or_intror Hc'))).
  cbn [map zsum fold_right]. rewrite Ha, Hb.
  fold (zsum (map f l)). fold (zsum (map g l)). lia.
Qed.

(** X15.  In every Statistics Record of the canonical pipeline there is at
    least one issue, the number of pages is not negative, and there are
    at most as many images as content items. *)
Theorem canonical_images_among_items (bag : Bag Val)
  (client : option Client) (out : list Val) :
  snd (Aggregators.compute_stats_in_canonical_bag bag client) = inr out ->
  forall rec, In rec out ->
    exists i pg n im : Z,
      getitem rec "issues" = inr (VInt i)
      /\ getitem rec "pages" = inr (VInt pg)
      /\ getitem rec "content_items_out" = inr (VInt n)
      /\ getitem rec "images" = inr (VInt im)
      /\ (1 <= i)%Z /\ (0 <= pg)%Z /\ (0 <= im <= n)%Z.
Proof.
  intros Hrun rec Hrec.
  destruct (bag_map (fun i => Aggregators.counts_for_canonical_issue i true)
              bag) as [e|recs] eqn:Hbag.
  { unfold Aggregators.compute_stats_in_canonical_bag in Hrun.
    rewrite Hbag in Hrun. discriminate. }
  destruct (canonical_pipeline bag recs client Hbag)
    as (idx & _ & Hkeys & Hrun').
  rewrite Hrun' in Hrun. injection Hrun as <-.
  pose proof (bag_map_concat _ _ _ Hbag) as Hrecs.
  assert (Hb : forall c, In c (concat recs) ->
             exists (np y : string) (pg n im : Z),
               c = VDict [(VStr "np_id", VStr np); (VStr "year", VStr y);
                          (VStr "issues", VInt 1); (VStr "pages", VInt pg);
                          (VStr "content_items_out", VInt n);
                          (VStr "images", VInt im)]
               /\ (0 <= pg)%Z /\ (0 <= im <= n)%Z).
  { apply Forall_forall.
    eapply Forall2_Forall_r; [exact Hrecs|]. intros issue c.
    apply canonical_counts_bounds. }
  apply in_map_iff in Hrec as (k & <- & Hk). apply Hkeys in Hk.
  set (G := group_of np_year (concat recs) k).
  assert (HG : forall c, In c G -> In c (concat recs))
    by (intros c Hc; unfold G, group_of in Hc; now apply filter_In in Hc).
  assert (Hne : G <> []).
  { apply in_map_iff in Hk as (c & E & Hc). intros Hnil.
    assert (H : In c G).
    { apply filter_In. split; [exact Hc|]. rewrite E. apply key_eqb_refl. }
    rewrite Hnil in H. exact H. }
  assert (Hlen : length k = 2)
    by (apply in_map_iff in Hk as (c & <- & _); reflexivity).
  destruct k as [|a [|b [|? ?]]]; try discriminate.
  exists (zsum (map (field "issues") G)), (zsum (map (field "pages") G)),
    (zsum (map (field "content_items_out") G)),
    (zsum (map (field "images") G)).
  repeat (split; [reflexivity|]).
  split; [|split].
  - rewrite zsum_ones.
    + destruct G; [congruence | cbn [map length]; lia].
    + intros v Hv. apply in_map_iff in Hv as (c & <- & Hc).
      destruct (Hb c (HG c Hc)) as (np & y & pg & n & im & -> & _).
      reflexivity.
  - assert (H : (0 <= zsum (map (fun _ => VInt 0) G)
                 <= zsum (map (field "pages") G))%Z); [|lia].
    apply zsum_le. intros c Hc.
    destruct (Hb c (HG c Hc)) as (np & y & pg & n & im & -> & ?).
    exists 0%Z, pg. repeat split; try reflexivity; lia.
  - apply zsum_le. intros c Hc.
    destruct (Hb c (HG c Hc)) as (np & y & pg & n & im & -> & ?).
    exists im, n. repeat split; try reflexivity; lia.
Qed.

Lemma canonical_images_among_items_witness :
  exists i pg n im : Z,
    getitem (VDict [(VStr "np_id", VStr "NZZ"); (VStr "year", VStr "1900");
                    (VStr "issues", VInt 2); (VStr "pages", VInt 5);
                    (VStr "content_items_out", VInt 3);
                    (VStr "images", VInt 1)]) "issues" = inr (VInt i)
    /\ getitem (VDict [(VStr "np_id", VStr "NZZ"); (VStr "year", VStr "1900");
                       (VStr "issues", VInt 2); (VStr "pages", VInt 5);
                       (VStr "content_items_out", VInt 3);
                       (VStr "images", VInt 1)]) "pages" = inr (VInt pg)
    /\ getitem (VDict [(VStr "np_id", VStr "NZZ"); (VStr "year", VStr "1900");
                       (VStr "issues", VInt 2); (VStr "pages", VInt 5);
                       (VStr "content_items_out", VInt 3);
                       (VStr "images", VInt 1)]) "content_items_out"
       = inr (VInt n)
    /\ getitem (VDict [(VStr "np_id", VStr "NZZ"); (VStr "year", VStr "1900");
                       (VStr "issues", VInt 2); (VStr "pages", VInt 5);
                       (VStr "content_items_out", VInt 3);
                       (VStr "images", VInt 1)]) "images" = inr (VInt im)
    /\ (1 <= i)%Z /\ (0 <= pg)%Z /\ (0 <= im <= n)%Z.
Proof.
  apply (canonical_images_among_items canonical_bag None
           [VDict [(VStr "np_id", VStr "NZZ"); (VStr "year", VStr "1900");
                   (VStr "issues", VInt 2); (VStr "pages", VInt 5);
                   (VStr "content_items_out", VInt 3);
                   (VStr "images", VInt 1)]]).
  - vm_compute. reflexivity.
  - now left.
Defined.

(** *** The rebuilt pipeline: which fields a Statistics Record has *)

(** X16.  The title and the year are fields of the Statistics Records exactly
    when [include_np] is set: without it the index (the year) is not
    reset into a column, and the records carry the reduced fields only.
    [ft_tokens] is a field exactly when not in passim mode. *)
Theorem rebuilt_record_fields (bag : Bag Val) (key : string)
  (include_np passim : bool) (client : option Client) (out : list Val) :
  snd (Aggregators.compute_stats_in_rebuilt_bag bag key include_np passim
         client) = inr out ->
  forall rec, In rec out ->
    contains rec "np_id" = inr include_np
    /\ contains rec "year" = inr include_np
    /\ contains rec "issues" = inr true
    /\ contains rec "content_items_out" = inr true
    /\ contains rec "ft_tokens" = inr (negb passim).
Proof.
  intros Hrun rec Hrec.
  destruct (bag_map (fun rf => Aggregators.counts_for_rebuilt rf include_np
                                 passim) bag) as [e|recs] eqn:Hbag.
  { unfold Aggregators.compute_stats_in_rebuilt_bag in Hrun.
    rewrite Hbag in Hrun. discriminate. }
  destruct (rebuilt_pipeline bag recs key include_np passim client Hbag)
    as (idx & _ & Hkeys & Hrun').
  rewrite Hrun' in Hrun. injection Hrun as <-.
  assert (Hk : exists k, In k idx
                         /\ rec = (if include_np
                                   then row_to_dict
                                          (combine (rebuilt_by include_np) k
                                           ++ stat_row (rebuilt_by include_np)
                                                (rebuilt_cols passim)
                                                (concat recs) k)
                                   else row_to_dict
                                          (stat_row (rebuilt_by include_np)
                                             (rebuilt_cols passim)
                                             (concat recs) k))).
  { destruct include_np; apply in_map_iff in Hrec as (k & <- & Hk); eauto. }
  destruct Hk as (k & Hk & ->). apply Hkeys in Hk.
  apply in_map_iff in Hk as (c & <- & _).
  destruct include_np, passim; repeat split; reflexivity.
Qed.

Lemma rebuilt_record_fields_witness :
  contains (VDict [(VStr "issues", VInt 2);
                   (VStr "content_items_out", VInt 3);
                   (VStr "ft_tokens", VInt 22)]) "year" = inr false.
Proof.
  refine (proj1 (proj2 (rebuilt_record_fields rebuilt_bag "GDL-1950" false
                          false None _ _ _ _))).
  - vm_compute. reflexivity.
  - now left.
Defined.

(** *** The entity pipeline: what a group's fields count *)

(** The cells [explode] makes of the linked entities of a Count Record:
    the entities, or the missing value when there is none. *)
Definition entity_values (c : Val) : list Val :=
  match field "ne_entities" c with
  | VList [] => [VNaN]
  | VList l => l
  | v => [v]
  end.

Definition mentions_of (c : Val) : Z :=
  match field "ne_mentions" c with
  | VInt m => m
  | _ => 0
  end.

Lemma exploded_fields (c : Val) :
  is_entity_record c ->
  map (field "issues") (exploded c)
  = repeat (field "issues" c) (length (entity_values c))
  /\ map (field "content_items_out") (exploded c)
     = repeat (VInt 1) (length (entity_values c))
  /\ map (field "ne_mentions") (exploded c)
     = repeat (VInt (mentions_of c)) (length (entity_values c))
  /\ map (field "ne_entities") (exploded c) = entity_values c.
Proof.
  intros (np & y & i & m & ents & -> & _).
  destruct ents as [|e ents]; [repeat split; reflexivity|].
  unfold entity_values, mentions_of, exploded. cbn [field dict_get val_eqb
    String.eqb Ascii.eqb Bool.eqb entity_record dict_set].
  cbn. repeat split; f_equal;
    induction ents as [|e' ents IH]; cbn; congruence.
Qed.

Lemma group_of_exploded (recs : list Val) (k : Key) :
  Forall is_entity_record recs ->
  group_of np_year (flat_map exploded recs) k
  = flat_map exploded (group_of np_year recs k).
Proof.
  induction 1 as [|c recs Hc _ IH]; [reflexivity|].
  cbn [flat_map]. unfold group_of in *. rewrite filter_app, IH.
  cbn [filter].
  assert (E : filter (fun rec => key_eqb (rec_key np_year rec) k) (exploded c)
              = if key_eqb (rec_key np_year c) k then exploded c else []).
  { assert (Hk : forall c', In c' (exploded c) ->
                            rec_key np_year c' = rec_key np_year c)
      by (intros; now apply exploded_key).
    induction (exploded c) as [|c' l IHl]; cbn [filter].
    - now destruct (key_eqb (rec_key np_year c) k).
    - rewrite (Hk c') by now left.
      rewrite IHl by (intros; apply Hk; now right).
      now destruct (key_eqb (rec_key np_year c) k). }
  rewrite E. destruct (key_eqb (rec_key np_year c) k); reflexivity.
Qed.

Lemma zsum_repeat (m : Z) (n : nat) :
  zsum (repeat (VInt m) n) = (Z.of_nat n * m)%Z.
Proof.
  induction n as [|n IH]; [reflexivity|].
  cbn [repeat zsum fold_right]. fold (zsum (repeat (VInt m) n)). lia.
Qed.

Lemma map_flat_map {A B C : Type} (f : B -> C) (g : A -> list B)
  (l : list A) :
  map f (flat_map g l) = flat_map (fun x => map f (g x)) l.
Proof.
  induction l as [|x l IH]; [reflexivity|].
  cbn [flat_map]. now rewrite map_app, IH.
Qed.

Lemma flat_map_ext_in {A B : Type} (f g : A -> list B) (l : list A) :
  (forall x, In x l -> f x = g x) -> flat_map f l = flat_map g l.
Proof.
  induction l as [|x l IH]; intros H; [reflexivity|].
  cbn [flat_map]. rewrite (H x) by now left.
  now rewrite IH by (intros; apply H; now right).
Qed.

(** X18.  Engine assumption: the cells of the [ne_entities] column are the
    Python lists of the Count Records, so that [explode] makes one row
    per linked entity (see [Dask]).  Under it the entity pipeline,
    whenever it returns, groups the items by title and year.  In the
    Statistics Record of a group, [issues] is the number of distinct
    issue ids of the items of the group; [content_items_out] is the
    number of rows the group has after [explode] (an item has one row
    per linked entity, and one row when it has none); [ne_mentions] adds
    up the mentions of each item once per row; [ne_entities] is the
    number of distinct cells of the exploded column. *)
Theorem entities_group_counts (bag : Bag Val) (client : option Client)
  (out : list Val) :
  snd (Aggregators.compute_stats_in_entities_bag bag client) = inr out ->
  exists recs : list Val,
    Forall2 (fun ci c => Aggregators.entities_counts ci = inr c)
            (concat bag) recs
    /\ NoDup (map (rec_key np_year) out)
    /\ (forall k, In k (map (rec_key np_year) out)
                  <-> In k (map (rec_key np_year) recs))
    /\ forall rec, In rec out ->
         let G := group_of np_year recs (rec_key np_year rec) in
         getitem rec "issues"
         = inr (VInt (Z.of_nat (length (dedup (map (field "issues") G)))))
         /\ getitem rec "content_items_out"
            = inr (VInt (Z.of_nat (length (flat_map entity_values G))))
         /\ getitem rec "ne_mentions"
            = inr (VInt (zsum (map (fun c =>
                                      VInt (Z.of_nat (length (entity_values c))
                                            * mentions_of c)) G)))
         /\ getitem rec "ne_entities"
            = inr (VInt (Z.of_nat
                           (length (dedup (flat_map entity_values G))))).
Proof.
  intros Hrun.
  destruct (bag_map Aggregators.entities_counts bag) as [e|recs] eqn:Hbag.
  { unfold Aggregators.compute_stats_in_entities_bag in Hrun.
    rewrite Hbag in Hrun. discriminate. }
  destruct (entities_pipeline bag recs client Hbag)
    as (idx & Hnd & Hkeys & Hrun').
  rewrite Hrun' in Hrun. injection Hrun as <-.
  pose proof (bag_map_concat _ _ _ Hbag) as Hrecs.
  assert (Hall : Forall is_entity_record (concat recs)).
  { eapply Forall2_Forall_r; [exact Hrecs|].
    intros ci c. apply entities_counts_shape. }
  exists (concat recs). split; [exact Hrecs|].
  assert (Hlen : forall k, In k idx -> length k = 2).
  { intros k Hk. apply Hkeys in Hk. apply in_map_iff in Hk as (c & <- & _).
    reflexivity. }
  assert (Hout : map (rec_key np_year)
                   (stats_records np_year entities_cols
                      (flat_map exploded (concat recs)) idx) = idx).
  { unfold stats_records. rewrite map_map.
    rewrite <- (map_id idx) at 2. apply map_ext_in.
    intros k Hk. apply rec_key_stats_record, Hlen, Hk. }
  rewrite Hout. split; [exact Hnd|]. split; [exact Hkeys|].
  intros rec Hrec. unfold stats_records in Hrec.
  apply in_map_iff in Hrec as (k & <- & Hk).
  rewrite (rec_key_stats_record k _ (Hlen k Hk)).
  cbn zeta. set (G := group_of np_year (concat recs) k).
  assert (HG : Forall is_entity_record G).
  { apply Forall_forall. intros c Hc. rewrite Forall_forall in Hall.
    apply Hall. unfold G, group_of in Hc. now apply filter_In in Hc. }
  assert (Hf : forall f,
             map (field f)
                 (group_of np_year (flat_map exploded (concat recs)) k)
             = flat_map (fun c => map (field f) (exploded c)) G).
  { intros f. rewrite group_of_exploded by assumption. apply map_flat_map. }
  pose proof (Hlen k Hk) as Hk2.
  destruct k as [|a [|b [|? ?]]]; try discriminate.
  rewrite Forall_forall in HG.
  cbn [stat_row entities_cols map cs_name cs_reduce tunique_col sum_col].
  rewrite !getitem_row_to_dict. cbn [combine np_year app row_get String.eqb
    Ascii.eqb Bool.eqb].
  rewrite !Hf. fold G. split; [|split; [|split]].
  - do 3 f_equal. apply dedup_length_ext. intros v.
    rewrite in_flat_map, in_map_iff. split.
    + intros (c & Hc & Hv).
      destruct (exploded_fields c (HG c Hc)) as (E & _). rewrite E in Hv.
      apply repeat_spec in Hv. subst v. eauto.
    + intros (c & <- & Hc). exists c. split; [exact Hc|].
      destruct (exploded_fields c (HG c Hc)) as (E & _). rewrite E.
      pose proof (exploded_nonempty c) as Hne.
      assert (Hl : length (exploded c) = length (entity_values c)).
      { rewrite <- (length_map (field "issues")), E. apply repeat_length. }
      destruct (entity_values c);
        [destruct (exploded c); [congruence | discriminate] | now left].
  - do 2 f_equal. rewrite zsum_ones.
    + rewrite !flat_map_concat_map, !length_concat. do 2 f_equal.
      rewrite !map_map. apply map_ext_in. intros c Hc.
      destruct (exploded_fields c (HG c Hc)) as (_ & E & _).
      now rewrite E, repeat_length.
    + intros v Hv. apply in_flat_map in Hv as (c & Hc & Hv).
      destruct (exploded_fields c (HG c Hc)) as (_ & E & _).
      rewrite E in Hv. now apply repeat_spec in Hv.
  - do 2 f_equal.
    rewrite (flat_map_ext_in _ (fun c => repeat (VInt (mentions_of c))
                                           (length (entity_values c))))
      by (intros c Hc; now destruct (exploded_fields c (HG c Hc))
                         as (_ & _ & E & _)).
    clear. induction G as [|c G IH]; [reflexivity|].
    cbn [flat_map map zsum fold_right]. rewrite zsum_app, zsum_repeat.
    fold (zsum (map (fun c => VInt (Z.of_nat (length (entity_values c))
                                     * mentions_of c)) G)).
    now rewrite IH.
  - do 5 f_equal. apply flat_map_ext_in. intros c Hc.
    now destruct (exploded_fields c (HG c Hc)) as (_ & _ & _ & E).
Qed.

Lemma entities_group_counts_witness :
  exists recs : list Val,
    Forall2 (fun ci c => Aggregators.entities_counts ci = inr c)
            [two_entity_item; unlinked_item] recs.
Proof.
  destruct (entities_group_counts [[two_entity_item]; [unlinked_item]] None
              (match snd (Aggregators.compute_stats_in_entities_bag
                            [[two_entity_item]; [unlinked_item]] None) with
               | inr out => out
               | inl _ => []
               end))
    as (recs & Hrecs & _).
  - vm_compute. reflexivity.
  - exists recs. exact Hrecs.
Defined.

(** *** The entity extractor *)

(** The entity a mention is linked to, if it is linked to one: the
    [wkd_id] of the mention when it is a string other than ["NIL"]. *)
Definition linked_id (m : Val) : list string :=
  match field "wkd_id" m with
  | VStr s => if String.eqb s "NIL" then [] else [s]
  | _ => []
  end.

(** A mention: a dict whose [wkd_id], when it has one, is a string or
    null. *)
Definition mention_ok (m : Val) : Prop :=
  exists d, m = VDict d
            /\ match dict_get d (VStr "wkd_id") with
               | Some (VStr _) | Some VNone | None => True
               | Some _ => False
               end.

(** A well-formed entity item: an id with at least two components and a
    list of mentions. *)
Record entity_item (ci : Val) (id : string) (mentions : list Val) : Prop := {
  ei_id : getitem ci "id" = inr (VStr id);
  ei_id_parts : 2 <= length (str_split "-" id);
  ei_nes : getitem ci "nes" = inr (VList mentions);
  ei_mentions : Forall mention_ok mentions
}.

(** Each string is at most the next one. *)
Fixpoint ascending (l : list string) : bool :=
  match l with
  | a :: (b :: _) as l' => String.leb a b && ascending l'
  | _ => true
  end.

Lemma insert_by_ascending (x : string) (l : list string) :
  ascending l = true -> ascending (insert_by String.leb x l) = true.
Proof.
  induction l as [|y l IH]; [reflexivity|].
  intros Hl. cbn [insert_by].
  destruct (String.leb x y) eqn:Exy.
  - cbn [ascending]. now rewrite Exy.
  - assert (Hyx : String.leb y x = true)
      by (destruct (String.leb_total x y); congruence).
    assert (Hl' : ascending l = true)
      by (destruct l; [reflexivity | cbn [ascending] in Hl;
                       now apply andb_prop in Hl]).
    specialize (IH Hl').
    destruct l as [|z l]; [cbn; now rewrite Hyx|].
    cbn [insert_by] in *. cbn [ascending] in Hl.
    apply andb_prop in Hl as [Hyz _].
    destruct (String.leb x z).
    + cbn [ascending] in *. now rewrite Hyx, IH.
    + cbn [ascending] in *. now rewrite Hyz, IH.
Qed.

Lemma sort_by_ascending (l : list string) :
  ascending (sort_by String.leb l) = true.
Proof.
  induction l as [|x l IH]; [reflexivity|].
  apply insert_by_ascending, IH.
Qed.

Lemma wkd_ids_comp (mentions : list Val) :
  Forall mention_ok mentions ->
  list_comp (fun m =>
               has_id <- contains m "wkd_id" ;;
               if has_id then
                 w <- getitem m "wkd_id" ;;
                 ret (negb (mem w [VStr "NIL"; VNone]))
               else ret false)
            (fun m => getitem m "wkd_id") mentions
  = inr (map VStr (flat_map linked_id mentions)).
Proof.
  set (cond := fun m =>
                 has_id <- contains m "wkd_id" ;;
                 if has_id then
                   w <- getitem m "wkd_id" ;;
                   ret (negb (mem w [VStr "NIL"; VNone]))
                 else ret false).
  set (elt := fun m => getitem m "wkd_id").
  induction 1 as [|m mentions (d & -> & Hd) _ IH]; [reflexivity|].
  cbn [list_comp flat_map]. rewrite map_app, IH.
  assert (El : linked_id (VDict d)
               = match dict_get d (VStr "wkd_id") with
                 | Some (VStr s) => if String.eqb s "NIL" then [] else [s]
                 | _ => []
                 end).
  { unfold linked_id. cbn [field].
    now destruct (dict_get d (VStr "wkd_id")) as [[ | | | | | ]|]. }
  rewrite El. unfold cond at 1, elt at 1.
  cbn [contains getitem].
  destruct (dict_get d (VStr "wkd_id")) as [w|]; cbn [bind ret];
    [|reflexivity].
  destruct w as [ | | |s| | ]; try contradiction.
  - reflexivity.
  - unfold mem. cbn [mem_by val_eqb]. rewrite (String.eqb_sym "NIL" s).
    destruct (String.eqb s "NIL"); reflexivity.
Qed.

Lemma strs_of (vs : list Val) :
  (forall v, In v vs -> exists s, v = VStr s) ->
  exists ss, vs = map VStr ss.
Proof.
  induction vs as [|v vs IH]; intros H; [now exists []|].
  destruct (H v (or_introl eq_refl)) as (s & ->).
  destruct IH as (ss & ->); [intros; apply H; now right|].
  now exists (s :: ss).
Qed.

Lemma dedup_strs (l : list string) :
  exists l', dedup (map VStr l) = map VStr l'
             /\ NoDup l' /\ forall s, In s l' <-> In s l.
Proof.
  destruct (strs_of (dedup (map VStr l))) as (l' & E).
  { intros v Hv. apply (proj1 (dedup_In v _)) in Hv.
    apply in_map_iff in Hv as (s & <- & _). eauto. }
  exists l'. split; [exact E|]. split.
  - apply (NoDup_map_inv VStr). rewrite <- E. apply dedup_NoDup.
  - assert (Hinj : forall (s : string) (m : list string),
               In (VStr s) (map VStr m) <-> In s m).
    { intros s m. rewrite in_map_iff. split.
      - intros (s' & [= ->] & H). exact H.
      - intros H. exists s. auto. }
    intros s. rewrite <- (Hinj s l'), <- (Hinj s l), <- E.
    apply dedup_In.
Qed.

Lemma sorted_strs (l : list string) :
  sorted (map VStr l) = inr (map VStr (sort_by String.leb l)).
Proof.
  assert (H : mapM as_str (map VStr l) = inr l).
  { rewrite mapM_map, (mapM_ok _ (fun s => s)); [now rewrite map_id|].
    reflexivity. }
  unfold sorted. destruct l as [|s [|t l]]; [reflexivity | reflexivity |].
  cbn [map] in *. now rewrite H.
Qed.

(** X19.  For a well-formed entity item the extractor returns a Count Record
    with [content_items_out] 1, [ne_mentions] the number of mentions, and
    [ne_entities] the linked entities of the mentions (the [wkd_id]s
    other than null and ["NIL"]), each once, in ascending order. *)
Theorem entities_counts_linked_entities (ci : Val) (id : string)
  (mentions : list Val) :
  entity_item ci id mentions ->
  exists ents : list string,
    Aggregators.entities_counts ci
    = inr (entity_record (np_id_of id) (year_of id) (issue_id_of id)
             (Z.of_nat (length mentions)) (map VStr ents))
    /\ NoDup ents
    /\ ascending ents = true
    /\ forall s, In s ents <-> In s (flat_map linked_id mentions).
Proof.
  intros [Hid Hparts Hnes Hment].
  destruct (id_parts id Hparts) as [Hnp Hyear].
  destruct (dedup_strs (flat_map linked_id mentions))
    as (l' & Hdedup & Hnd & Hin).
  exists (sort_by String.leb l'). split; [|split; [|split]].
  - unfold Aggregators.entities_counts.
    rewrite Hid, Hnes. cbn [bind split ret len iter]. rewrite Hnp, Hyear.
    cbn [bind]. rewrite (wkd_ids_comp mentions Hment). cbn [bind].
    unfold set_of. rewrite forallb_hashable_strs, Hdedup. cbn [bind ret].
    rewrite sorted_strs. reflexivity.
  - eapply Permutation_NoDup; [|exact Hnd].
    apply Permutation_sym, sort_by_Permutation.
  - apply sort_by_ascending.
  - intros s. rewrite <- Hin.
    split; apply Permutation_in;
      [|apply Permutation_sym]; apply sort_by_Permutation.
Qed.

Lemma entities_counts_linked_entities_witness :
  exists ents : list string,
    Aggregators.entities_counts
      (VDict [(VStr "id", VStr "NZZ-1900-01-01-a-i0003");
              (VStr "nes",
               VList [mention (VStr "Q72"); mention (VStr "NIL");
                      mention VNone; VDict []; mention (VStr "Q1");
                      mention (VStr "Q72")])])
    = inr (entity_record "NZZ" "1900" "NZZ-1900-01-01-a" 6 (map VStr ents))
    /\ NoDup ents
    /\ ascending ents = true.
Proof.
  destruct (entities_counts_linked_entities
              (VDict [(VStr "id", VStr "NZZ-1900-01-01-a-i0003");
                      (VStr "nes",
                       VList [mention (VStr "Q72"); mention (VStr "NIL");
                              mention VNone; VDict []; mention (VStr "Q1");
                              mention (VStr "Q72")])])
              "NZZ-1900-01-01-a-i0003"
              [mention (VStr "Q72"); mention (VStr "NIL"); mention VNone;
               VDict []; mention (VStr "Q1"); mention (VStr "Q72")])
    as (ents & H & Hnd & Hasc & _).
  - constructor; try reflexivity; [cbn; lia|].
    repeat constructor; eexists; (split; [reflexivity | exact I]).
  - exists ents. split; [exact H|]. split; assumption.
Defined.

Example entities_counts_sorted_distinct :
  Aggregators.entities_counts
    (VDict [(VStr "id", VStr "NZZ-1900-01-01-a-i0003");
            (VStr "nes",
             VList [mention (VStr "Q72"); mention (VStr "NIL");
                    mention VNone; VDict []; mention (VStr "Q1");
                    mention (VStr "Q72")])])
  = inr (entity_record "NZZ" "1900" "NZZ-1900-01-01-a" 6
           [VStr "Q1"; VStr "Q72"]).
Proof. reflexivity. Qed.

(** *** [tunique] on values that cannot be hashed *)

Lemma mapM_only_error {A B : Type} (g : A -> Err B) (l : list A) (x : A)
  (e : PyError) :
  (forall y, In y l -> g y = inl e \/ exists b, g y = inr b) ->
  In x l -> g x = inl e -> mapM g l = inl e.
Proof.
  induction l as [|y l IH]; intros Hall Hin Hx; [contradiction|].
  cbn [mapM]. destruct (Hall y (or_introl eq_refl)) as [Hy|(b & Hy)];
    rewrite Hy; [reflexivity|]. cbn [bind].
  destruct Hin as [->|Hin]; [congruence|].
  rewrite IH; auto. intros; apply Hall; now right.
Qed.

Lemma chunk_error (s : Series) :
  Aggregators.chunk (groupby_level s) = inl TypeError
  \/ exists r, Aggregators.chunk (groupby_level s) = inr r.
Proof.
  unfold Aggregators.chunk, groupby_apply, set_of.
  cbn [_selected_obj groupby_level].
  induction (group_keys s) as [|k ks IH]; [right; now exists []|].
  cbn [mapM].
  destruct (forallb hashable (group_values s k)); [|now left].
  cbn [bind ret].
  destruct IH as [->|(r & ->)]; [now left|].
  right. cbn [bind ret]. eauto.
Qed.

(** X20.  The distinct count is for hashable values only: when some value of
    the column is a list or a dict, the chunk function raises
    [TypeError] on the partition that holds it; hence so does the chunk
    stage of the aggregation, and the aggregation raises it without
    reaching its combine stage, whatever the other values and the
    partitioning.  (This is why the entity pipeline explodes
    [ne_entities] first.) *)
Theorem tunique_unhashable_value (parts : list Series) (p : Series)
  (k : Key) (v : Val) :
  In p parts -> In (k, v) p -> hashable v = false ->
  agg_chunk Aggregators.tunique (groupby_level p) = inl TypeError
  /\ mapM (agg_chunk Aggregators.tunique) (map groupby_level parts)
     = inl TypeError
  /\ aggregate Aggregators.tunique (map groupby_level parts) = inl TypeError.
Proof.
  intros Hp Hkv Hv.
  assert (Hchunk : Aggregators.chunk (groupby_level p) = inl TypeError).
  { unfold Aggregators.chunk, groupby_apply.
    cbn [_selected_obj groupby_level].
    apply (mapM_only_error _ _ k).
    + intros k' _. unfold set_of.
      destruct (forallb hashable (group_values p k')); [right|left];
        cbn [bind ret]; eauto.
    + apply group_keys_In, in_map_iff. exists (k, v). auto.
    + unfold set_of.
      assert (Hf : forallb hashable (group_values p k) = false).
      { destruct (forallb hashable (group_values p k)) eqn:E;
          [|reflexivity].
        rewrite forallb_forall in E.
        rewrite (E v) in Hv; [discriminate|]. now apply group_values_In. }
      now rewrite Hf. }
  assert (Hstage : mapM (agg_chunk Aggregators.tunique)
                     (map groupby_level parts) = inl TypeError).
  { cbn [agg_chunk Aggregators.tunique]. rewrite mapM_map.
    apply (mapM_only_error _ parts p TypeError); try assumption.
    intros s _. apply chunk_error. }
  split; [exact Hchunk|]. split; [exact Hstage|].
  unfold aggregate. now rewrite Hstage.
Qed.

Lemma tunique_unhashable_value_witness :
  mapM (agg_chunk Aggregators.tunique)
    (map groupby_level
       [[(c1_key, VStr "Q1")];
        [(c1_key, VList [VStr "Q1"; VStr "Q2"]); (c1_key, VStr "Q2")]])
  = inl TypeError
  /\ aggregate Aggregators.tunique
       (map groupby_level
          [[(c1_key, VStr "Q1")];
           [(c1_key, VList [VStr "Q1"; VStr "Q2"]); (c1_key, VStr "Q2")]])
     = inl TypeError.
Proof.
  refine (proj2 (tunique_unhashable_value
                   [[(c1_key, VStr "Q1")];
                    [(c1_key, VList [VStr "Q1"; VStr "Q2"]);
                     (c1_key, VStr "Q2")]]
                   [(c1_key, VList [VStr "Q1"; VStr "Q2"]);
                    (c1_key, VStr "Q2")]
                   c1_key (VList [VStr "Q1"; VStr "Q2"]) _ _ _)).
  - right. now left.
  - now left.
  - reflexivity.
Defined.

(** *** What a Raw Record must have *)

(** The fields an extractor reads in any case. *)
Definition required_fields (p : Pipeline) : list string :=
  match p with
  | Canonical => ["id"; "pp"; "i"]
  | Rebuilt _ _ _ => ["id"]
  | Entities => ["id"; "nes"]
  | Langident => ["id"; "tp"; "lg"]
  | SolrText => ["meta_journal_s"; "meta_year_i"; "meta_issue_id_s"]
  end.

Lemma getitem_inv (o : Val) (k : string) (v : Val) :
  getitem o k = inr v -> exists d, o = VDict d /\ dict_get d (VStr k) = Some v.
Proof.
  destruct o; try discriminate. cbn [getitem].
  destruct (dict_get d (VStr k)) eqn:E; [|discriminate].
  intros [= ->]. eauto.
Qed.

Lemma split_inv (v : Val) (sep : ascii) (parts : list string) :
  split v sep = inr parts -> exists s, v = VStr s /\ parts = str_split sep s.
Proof. destruct v; try discriminate. intros [= <-]. eauto. Qed.

Lemma list_index_1_inv {A : Type} (l : list A) (x : A) :
  list_index l 1 = inr x -> 2 <= length l.
Proof.
  intros H. destruct (Nat.le_gt_cases (length l) 1) as [Hle|Hgt]; [|lia].
  pose proof (list_index_short l 1 Hle) as E.
  change (Z.of_nat 1) with 1%Z in E. congruence.
Qed.

Ltac read_fields :=
  repeat match goal with
         | H : getitem ?o ?k = inr ?v |- _ =>
             let d := fresh "d" in
             let E := fresh "E" in
             apply getitem_inv in H; destruct H as (d & E & H);
             try (injection E as ->); try subst o
         end.

(** X21.  An extractor returns a Count Record only for a dict that has every
    field the extractor reads; except for the search-index extractor,
    its id is then a string with at least two dash-separated
    components. *)
Theorem count_record_needs_fields (p : Pipeline) (raw c : Val) :
  extractor p raw = inr c ->
  exists d : list (Val * Val),
    raw = VDict d
    /\ Forall (fun k => dict_get d (VStr k) <> None) (required_fields p)
    /\ (p <> SolrText ->
        exists id : string,
          dict_get d (VStr "id") = Some (VStr id)
          /\ 2 <= length (str_split "-" id)).
Proof.
  intros H.
  destruct p as [|key include_np passim| | |];
    cbn [extractor required_fields] in *.
  - unfold Aggregators.counts_for_canonical_issue in H. inv_bind.
    match goal with
    | Hs : split _ _ = inr ?parts, Hi : list_index ?parts 1 = inr _ |- _ =>
        apply split_inv in Hs; destruct Hs as (s & -> & ->);
        apply list_index_1_inv in Hi
    end.
    read_fields. eexists. split; [reflexivity|].
    split; [repeat constructor; congruence|].
    intros _. eexists. split; eassumption.
  - unfold Aggregators.counts_for_rebuilt in H. inv_bind.
    match goal with
    | Hs : split _ _ = inr ?parts, Hi : list_index ?parts 1 = inr _ |- _ =>
        apply split_inv in Hs; destruct Hs as (s & -> & ->);
        apply list_index_1_inv in Hi
    end.
    match goal with
    | Hg : getitem raw "id" = inr _ |- _ =>
        apply getitem_inv in Hg; destruct Hg as (d & -> & Hg)
    end.
    eexists. split; [reflexivity|].
    split; [repeat constructor; congruence|].
    intros _. eexists. split; eassumption.
  - unfold Aggregators.entities_counts in H. inv_bind.
    match goal with
    | Hs : split _ _ = inr ?parts, Hi : list_index ?parts 1 = inr _ |- _ =>
        apply split_inv in Hs; destruct Hs as (s & -> & ->);
        apply list_index_1_inv in Hi
    end.
    read_fields. eexists. split; [reflexivity|].
    split; [repeat constructor; congruence|].
    intros _. eexists. split; eassumption.
  - unfold Aggregators.langident_counts in H. inv_bind.
    match goal with
    | Hs : split _ _ = inr ?parts, Hi : list_index ?parts 1 = inr _ |- _ =>
        apply split_inv in Hs; destruct Hs as (s & -> & ->);
        apply list_index_1_inv in Hi
    end.
    match goal with
    | Hg : getitem raw "id" = inr (VStr s), Ht : getitem raw "tp" = inr _,
      Hl : getitem raw "lg" = inr _ |- _ =>
        apply getitem_inv in Hg; destruct Hg as (d & -> & Hg);
        apply getitem_inv in Ht; destruct Ht as (d1 & [= <-] & Ht);
        apply getitem_inv in Hl; destruct Hl as (d2 & [= <-] & Hl)
    end.
    eexists. split; [reflexivity|].
    split; [repeat constructor; congruence|].
    intros _. eexists. split; eassumption.
  - unfold Aggregators.solr_counts in H. inv_bind.
    match goal with
    | Hj : getitem raw "meta_journal_s" = inr _,
      Hy : getitem raw "meta_year_i" = inr _,
      Hi : getitem raw "meta_issue_id_s" = inr _ |- _ =>
        apply getitem_inv in Hj; destruct Hj as (d & -> & Hj);
        apply getitem_inv in Hy; destruct Hy as (d1 & [= <-] & Hy);
        apply getitem_inv in Hi; destruct Hi as (d2 & [= <-] & Hi)
    end.
    eexists. split; [reflexivity|].
    split; [repeat constructor; congruence | congruence].
Qed.

Lemma count_record_needs_fields_witness :
  exists d : list (Val * Val),
    gdl_article_1 = VDict d
    /\ Forall (fun k => dict_get d (VStr k) <> None) ["id"].
Proof.
  destruct (count_record_needs_fields (Rebuilt "" true false) gdl_article_1
              (VDict [(VStr "np_id", VStr "GDL"); (VStr "year", VStr "1950");
                      (VStr "issues", VStr "GDL-1950-01-01-a");
                      (VStr "content_items_out", VInt 1);
                      (VStr "ft_tokens", VInt 10)]) eq_refl)
    as (d & Hd & Hreq & _).
  exists d. split; [exact Hd | exact Hreq].
Defined.

(** *** [freq] *)

(** X22.  Whatever the labels (quotes, backslashes and unprintable characters
    included), [freq] reads the string form of their list back and puts
    their frequency count in its place. *)
Theorem freq_reads_labels_back (d : list (Val * Val)) (labels : list string) :
  dict_get d (VStr "lang_fd")
  = Some (VStr (str (VList (map VStr labels)))) ->
  Aggregators.freq (VDict d) "lang_fd"
  = inr (VDict (dict_set d (VStr "lang_fd")
                  (VDict (counter_dict (map VStr labels))))).
Proof.
  intros Hd. unfold Aggregators.freq. cbn [getitem]. rewrite Hd.
  cbn [bind ret str]. rewrite literal_eval_repr_strs. cbn [bind Counter iter ret].
  now rewrite forallb_hashable_strs.
Qed.

Lemma freq_reads_labels_back_witness :
  Aggregators.freq
    (VDict [(VStr "issues", VInt 1);
            (VStr "lang_fd",
             VStr (str (VList [VStr "fr"; VStr "it's"; VStr "fr"])))])
    "lang_fd"
  = inr (VDict [(VStr "issues", VInt 1);
                (VStr "lang_fd",
                 VDict [(VStr "fr", VInt 2); (VStr "it's", VInt 1)])]).
Proof.
  apply (freq_reads_labels_back
           [(VStr "issues", VInt 1);
            (VStr "lang_fd",
             VStr (str (VList [VStr "fr"; VStr "it's"; VStr "fr"])))]
           ["fr"; "it's"; "fr"]).
  reflexivity.
Defined.
